(** * Kraken: state convergence engine and peer mesh

    A shallow embedding of the convergence engine ([NextState],
    [DivergingGraph]), of the mesh layer ([PeerGroup], [PeerConnection]),
    of the deck of cards and of the Ably relay wrapper of the kraken card
    table, followed by the properties established about them.

    JavaScript data is modelled as follows.
    - Opaque keys and states are [value]s: [undefined], [null] or a string.
    - Logical times, distances and the arrival counter are integers,
      modelled in [Z]; lottery tickets and random numbers are finite
      doubles, modelled in [Q]. Where the code computes with them
      ([time + 1], the product in the shuffle) the exact result is rounded
      to the nearest double ([Double.round]).
    - A [Map] is an insertion-ordered association list with unique keys,
      a [Set] an insertion-ordered list without duplicates.
    - A method that can throw returns a [completion] next to the object
      state it leaves behind; [while] loops run on fuel. *)

From Stdlib Require Import ZArith QArith Qround Qpower List String Ascii Bool.
From Stdlib Require Import Lia Lqa.
From Stdlib Require Import Permutation Sorted.
Import ListNotations.
Open Scope Z_scope.

Set Implicit Arguments.

(** ** JavaScript values *)

Inductive value : Type :=
| VUndefined
| VNull
| VStr (s : string).

(** Strict equality [a === b] (also the [SameValueZero] of [Map] keys). *)
Definition value_eqb (a b : value) : bool :=
  match a, b with
  | VUndefined, VUndefined => true
  | VNull, VNull => true
  | VStr s, VStr s' => String.eqb s s'
  | _, _ => false
  end.

(** Truthiness: [undefined], [null] and the empty string are falsy. *)
Definition truthy (v : value) : bool :=
  match v with
  | VUndefined | VNull => false
  | VStr EmptyString => false
  | VStr _ => true
  end.

(** Nullish coalescing [a ?? b]. *)
Definition coalesce (a b : value) : value :=
  match a with
  | VUndefined | VNull => b
  | VStr _ => a
  end.

(** A lottery comparison [a > b] on finite numbers. *)
Definition Qgtb (a b : Q) : bool := negb (Qle_bool a b).

(** ** Completions *)

Inductive error : Type :=
| TypeError            (* raised by the engine *)
| InvalidStateError    (* raised by a data channel that is not open *)
| Thrown (msg : string) (* [throw 'message'] *).

Inductive completion : Type :=
| Normal
| Throw (e : error)
| OutOfFuel.

(** ** IEEE 754 binary64 rounding *)

Module Double.

(** [floor (log2 x)] for [x > 0]. *)
Definition ilog2 (x : Q) : Z :=
  let d := Z.log2 (Qnum x) - Z.log2 (Zpos (Qden x)) in
  if Qle_bool (2 ^ d)%Q x then d else d - 1.

(** The unit in the last place at the magnitude of [x > 0]: 53 significant
    bits, and the subnormal spacing below [2 ^ -1022]. *)
Definition ulp (x : Q) : Q := (2 ^ (Z.max (ilog2 x) (-1022) - 52))%Q.

(** The nearest integer, a tie going to the even one. *)
Definition nearest_even (s : Q) : Z :=
  let f := Qfloor s in
  match (s - inject_Z f ?= 1 # 2)%Q with
  | Lt => f
  | Gt => f + 1
  | Eq => if Z.even f then f else f + 1
  end.

(** The double nearest to [x] (round to nearest, ties to even), for [x] of
    magnitude below [2 ^ 1024]; every arithmetic operation on numbers
    returns the exact result rounded this way. *)
Definition round (x : Q) : Q :=
  match (x ?= 0)%Q with
  | Eq => 0%Q
  | Gt => (inject_Z (nearest_even (x / ulp x)) * ulp x)%Q
  | Lt => (- (inject_Z (nearest_even (- x / ulp (- x))) * ulp (- x)))%Q
  end.

(** [a + b] and [a * b] on numbers. *)
Definition add (a b : Q) : Q := round (a + b)%Q.
Definition mul (a b : Q) : Q := round (a * b)%Q.

(** The doubles in [[0, 1)], the values of [Math.random()]: [m / 2 ^ k]
    with at most 53 significant bits and no bit below [2 ^ -1074]. *)
Definition unit_double (x : Q) : Prop :=
  exists m k : Z,
    0 <= m < 2 ^ 53 /\ 0 <= k <= 1074 /\ m < 2 ^ k /\
    (x == inject_Z m / inject_Z (2 ^ k))%Q.

(** [Number.isSafeInteger] *)
Definition is_safe (z : Z) : Prop := - (2 ^ 53 - 1) <= z <= 2 ^ 53 - 1.

(** The double nearest to [1 / 3], [0.3333333333333333]. *)
Definition third : Q := (6004799503160661 # 18014398509481984)%Q.

End Double.

(** ** NextState *)

Module NextState.

Inductive code : Type :=
| ADVANCE | ADVANCE_SHIFT | FAST_FORWARD | CONFIRM
| LOTTERY_LOST | ROCK | ONE_DIRECTION.

Definition code_number (c : code) : Z :=
  match c with
  | ADVANCE => 0 | ADVANCE_SHIFT => 1 | FAST_FORWARD => 2 | CONFIRM => 3
  | LOTTERY_LOST => 4 | ROCK => 5 | ONE_DIRECTION => 6
  end.

Record t : Type := mk {
  state : value;
  time : Z;
  lottery : Q
}.

Record proposal : Type := mkProposal {
  p_next : value;
  p_state : value;
  p_time : Z;
  p_lottery : Q
}.

(** The [reason] text only repeats the code in words; it is left out. *)
Record result : Type := mkResult {
  accept : bool;
  rcode : code
}.

(** [constructor({ state, time, lottery })]: [this.state = state ?? ''].
    The numeric fields are always supplied by [advance]. *)
Definition new (state : value) (time : Z) (lottery : Q) : t :=
  mk (coalesce state (VStr "")) time lottery.

Definition advance (_ : t) (p : proposal) : t :=
  new (p_next p) (p_time p) (p_lottery p).

(** [time + 1] on numbers: the exact sum rounded to a double. Up to
    [2 ^ 53] it is the successor; from there on the odd integers are not
    doubles. *)
Definition plus_one (clock : Z) : Z :=
  Qfloor (Double.add (inject_Z clock) 1).

Definition evaluate (this : t) (p : proposal) : result :=
  if p_time p >? time this then
    if p_time p >? plus_one (time this) then mkResult true FAST_FORWARD
    else if value_eqb (p_state p) (state this) then mkResult true ADVANCE
    else mkResult true ADVANCE_SHIFT
  else if p_time p =? time this then
    if value_eqb (p_next p) (state this) then mkResult false CONFIRM
    else if Qgtb (p_lottery p) (lottery this) then mkResult true LOTTERY_LOST
    else mkResult false ROCK
  else if p_time p <? time this then mkResult false ONE_DIRECTION
  else mkResult false ADVANCE.

(** [propose(next)]; [draw] is the value [Math.random()] returns. *)
Definition propose (this : t) (draw : Q) (next : value) : proposal :=
  mkProposal next (state this) (plus_one (time this)) draw.

End NextState.

(** ** Insertion-ordered maps and sets *)

Module JsMap.
Section Ops.
Variable V : Type.

Definition t : Type := list (value * V).

Fixpoint get (k : value) (m : t) : option V :=
  match m with
  | [] => None
  | (k', v) :: m' => if value_eqb k k' then Some v else get k m'
  end.

Definition has (k : value) (m : t) : bool :=
  match get k m with Some _ => true | None => false end.

(** [set] keeps the position of a key that is already there. *)
Fixpoint set (k : value) (v : V) (m : t) : t :=
  match m with
  | [] => [(k, v)]
  | (k', v') :: m' =>
      if value_eqb k k' then (k', v) :: m' else (k', v') :: set k v m'
  end.

(** A key occurs once: [delete] drops the entry that carries it. *)
Definition delete (k : value) (m : t) : t :=
  filter (fun e => negb (value_eqb k (fst e))) m.

Definition keys (m : t) : list value := map fst m.

(** [new Map(entries)] *)
Definition of_entries (l : list (value * V)) : t :=
  fold_left (fun m e => set (fst e) (snd e) m) l [].
End Ops.
End JsMap.

Module JsSet.
Definition t : Type := list value.

Definition has (k : value) (s : t) : bool := existsb (value_eqb k) s.

Definition add (k : value) (s : t) : t := if has k s then s else s ++ [k].

Definition delete (k : value) (s : t) : t :=
  filter (fun x => negb (value_eqb k x)) s.
End JsSet.

(** [Array.prototype.toSpliced(start, deleteCount)] without new items. *)
Definition toSpliced (A : Type) (start deleteCount : Z) (l : list A) : list A :=
  let len := Z.of_nat (List.length l) in
  let actualStart :=
    if start <? 0 then Z.max (len + start) 0 else Z.min start len in
  let actualSkip := Z.min (Z.max deleteCount 0) (len - actualStart) in
  firstn (Z.to_nat actualStart) l
    ++ skipn (Z.to_nat (actualStart + actualSkip)) l.

(** ** DivergingGraph *)

Module DivergingGraph.

Record info : Type := mkInfo {
  source : value;
  distance : Z;
  _t : Z;
  data : value
}.

Definition with_source (s : value) (i : info) : info :=
  mkInfo s (distance i) (_t i) (data i).

Definition with_distance (d : Z) (i : info) : info :=
  mkInfo (source i) d (_t i) (data i).

(** The object: [counter] is the private field [#t]. *)
Record t : Type := mk {
  nodeInfo : JsMap.t info;
  heads : JsSet.t;
  furthestNode : value;
  counter : Z
}.

(** An ['advance'] event with its [detail]. *)
Record event : Type := advance {
  ev_node : value;
  ev_info : option info
}.

Definition outcome : Type := (completion * t * list event)%type.

(** The sentinel carries neither [source] nor [data]: both read as
    [undefined]. *)
Definition root : info := mkInfo VUndefined (-1) 0 VUndefined.

Definition new : t := mk [(VNull, root)] [] VNull 1.

Definition with_nodeInfo (ni : JsMap.t info) (g : t) : t :=
  mk ni (heads g) (furthestNode g) (counter g).

Definition with_heads (hs : JsSet.t) (g : t) : t :=
  mk (nodeInfo g) hs (furthestNode g) (counter g).

(** [set furthestNode(node)] *)
Definition set_furthestNode (node : value) (g : t) : t * list event :=
  if value_eqb node (furthestNode g) then (g, [])
  else (mk (nodeInfo g) (heads g) node (counter g),
        [advance node (JsMap.get node (nodeInfo g))]).

Definition size (g : t) : Z := Z.of_nat (List.length (nodeInfo g)) - 1.

(** The callback of both [reduce] calls; destructuring a missing entry
    is a [TypeError], here [None]. *)
Definition further (ni : JsMap.t info) (a b : value) : option value :=
  match JsMap.get a ni, JsMap.get b ni with
  | Some ia, Some ib =>
      Some (if distance ia >? distance ib then a
            else if distance ia <? distance ib then b
            else if _t ia <? _t ib then a else b)
  | _, _ => None
  end.

Fixpoint reduce_further (ni : JsMap.t info) (l : list value) (acc : value)
  : option value :=
  match l with
  | [] => Some acc
  | b :: l' =>
      match further ni acc b with
      | Some acc' => reduce_further ni l' acc'
      | None => None
      end
  end.

(** The backward walk [while (!seen.has(node)) { path.push(node);
    node = nodeInfo.get(node).source }], followed by [seen.get(node)]. *)
Inductive walked (V : Type) : Type :=
| Found (v : V) (path : list value)
| Failed (c : completion).
Arguments Failed {V} c.

Fixpoint walk (V : Type) (fuel : nat) (ni : JsMap.t info) (seen : JsMap.t V)
    (node : value) (path : list value) : walked V :=
  match JsMap.get node seen with
  | Some v => Found v path
  | None =>
      match fuel with
      | O => Failed OutOfFuel
      | S fuel' =>
          match JsMap.get node ni with
          | None => Failed (Throw TypeError)
          | Some i => walk fuel' ni seen (source i) (path ++ [node])
          end
      end
  end.

(** [for (let node of heads) { ... path.forEach((n) =>
    followsTarget.set(n, value)) }] *)
Fixpoint mark_paths (fuel : nat) (ni : JsMap.t info) (hs : list value)
    (follows : JsMap.t bool) : completion * JsMap.t bool :=
  match hs with
  | [] => (Normal, follows)
  | h :: hs' =>
      match walk fuel ni follows h [] with
      | Found v path =>
          mark_paths fuel ni hs'
            (fold_left (fun m n => JsMap.set n v m) path follows)
      | Failed c => (c, follows)
      end
  end.

(** [updatedNodes.forEach((node) => nodeInfo.set(node,
    {...info, distance: info.distance + targetDistance}))] *)
Fixpoint raise_distances (nodes : list value) (d : Z) (ni : JsMap.t info)
  : completion * JsMap.t info :=
  match nodes with
  | [] => (Normal, ni)
  | n :: nodes' =>
      match JsMap.get n ni with
      | Some i =>
          raise_distances nodes' d
            (JsMap.set n (with_distance (distance i + d) i) ni)
      | None => (Throw TypeError, ni)
      end
  end.

Definition split_only : string := "The graph can only split, not join.".

(** The first statement of [addEdge]: a known [source] leaves the heads,
    an unknown one starts a new path. *)
Definition enter_source (source : value) (g : t) : t :=
  if JsMap.has source (nodeInfo g)
  then with_heads (JsSet.delete source (heads g)) g
  else mk (JsMap.set source (mkInfo VNull 0 (counter g) VUndefined)
             (nodeInfo g))
          (heads g) (furthestNode g) (counter g + 1).

Definition addEdge (fuel : nat) (source target data : value) (g : t)
  : outcome :=
  let g1 := enter_source source g in
  match JsMap.get source (nodeInfo g1) with
  | None => (Throw TypeError, g1, [])
  | Some sourceInfo =>
      let targetDistance := distance sourceInfo + 1 in
      match JsMap.get target (nodeInfo g1) with
      | Some currentTargetInfo =>
          if truthy (DivergingGraph.source currentTargetInfo)
             || negb (distance currentTargetInfo =? 0)
          then (Throw (Thrown split_only), g1, [])
          else
            match mark_paths fuel (nodeInfo g1) (heads g1)
                    (JsMap.of_entries [(target, true); (VNull, false)]) with
            | (Normal, followsTarget) =>
                let updatedNodes := map fst (filter snd followsTarget) in
                match raise_distances updatedNodes targetDistance
                        (nodeInfo g1) with
                | (Normal, ni2) =>
                    let g2 := with_nodeInfo ni2 g1 in
                    match reduce_further ni2 updatedNodes
                            (furthestNode g1) with
                    | Some f =>
                        let (g3, evs) := set_furthestNode f g2 in
                        match JsMap.get target (nodeInfo g3) with
                        | Some ti =>
                            (Normal,
                             with_nodeInfo
                               (JsMap.set target
                                  (mkInfo source (distance ti) (_t ti) data)
                                  (nodeInfo g3)) g3,
                             evs)
                        | None => (Throw TypeError, g3, evs)
                        end
                    | None => (Throw TypeError, g2, [])
                    end
                | (c, ni2) => (c, with_nodeInfo ni2 g1, [])
                end
            | (c, _) => (c, g1, [])
            end
      | None =>
          let g2 :=
            mk (JsMap.set target
                  (mkInfo source targetDistance (counter g1) data)
                  (nodeInfo g1))
               (JsSet.add target (heads g1))
               (furthestNode g1) (counter g1 + 1) in
          match JsMap.get (furthestNode g2) (nodeInfo g2) with
          | Some fi =>
              if targetDistance >? distance fi
              then let (g3, evs) := set_furthestNode target g2 in
                   (Normal, g3, evs)
              else (Normal, g2, [])
          | None => (Throw TypeError, g2, [])
          end
      end
  end.

(** [for (let n of path.reverse()) { ... scores.set(n, score) }] *)
Fixpoint score_path (ni : JsMap.t info) (path : list value) (score : Z)
    (scores : JsMap.t Z) : completion * JsMap.t Z :=
  match path with
  | [] => (Normal, scores)
  | n :: path' =>
      match JsMap.get n ni with
      | Some i =>
          let score' :=
            Z.max (score - (distance i - 1)) (_t i) + distance i in
          score_path ni path' score' (JsMap.set n score' scores)
      | None => (Throw TypeError, scores)
      end
  end.

Fixpoint score_heads (fuel : nat) (ni : JsMap.t info) (hs : list value)
    (scores : JsMap.t Z) : completion * JsMap.t Z :=
  match hs with
  | [] => (Normal, scores)
  | h :: hs' =>
      match walk fuel ni scores h [] with
      | Found score path =>
          match score_path ni (rev path) score scores with
          | (Normal, scores') => score_heads fuel ni hs' scores'
          | failed => failed
          end
      | Failed c => (c, scores)
      end
  end.

(** [Array.prototype.sort] is stable; the comparator is [ta - tb]. *)
Fixpoint insert_by_t (e : value * info) (l : list (value * info))
  : list (value * info) :=
  match l with
  | [] => [e]
  | e' :: l' =>
      if _t (snd e) <=? _t (snd e') then e :: l else e' :: insert_by_t e l'
  end.

Definition sort_by_t (l : list (value * info)) : list (value * info) :=
  fold_right insert_by_t [] l.

(** [nodeInfo.forEach((info) => { if (!nodeInfo.has(info.source))
    info.source = null })] *)
Definition clear_dangling (ni : JsMap.t info) : JsMap.t info :=
  map (fun e => (fst e,
                 if JsMap.has (source (snd e)) ni then snd e
                 else with_source VNull (snd e))) ni.

(** Assigning to a [const] binding: the right-hand side has been
    evaluated, then the store throws. *)
Definition assign_const : completion := Throw TypeError.

Definition prune (fuel : nat) (maxSize : Z) (g : t) : outcome :=
  let size := size g in
  let nodeInfo := nodeInfo g in
  let heads := heads g in
  match JsMap.get VNull nodeInfo with
  | None => (Throw TypeError, g, [])
  | Some r =>
      match score_heads fuel nodeInfo heads
              [(VNull, distance r + _t r)] with
      | (Normal, _) =>
          if maxSize <? size then
            let sorted := sort_by_t nodeInfo in
            let g1 :=
              with_nodeInfo
                (JsMap.of_entries (toSpliced 1 (size - maxSize) sorted)) g in
            match assign_const with
            | Normal =>
                (Normal,
                 with_nodeInfo (clear_dangling (DivergingGraph.nodeInfo g1))
                   g1,
                 [])
            | c => (c, g1, [])
            end
          else (Normal, g, [])
      | (c, _) => (c, g, [])
      end
  end.

Definition removeNode (target : value) (g : t) : outcome :=
  let source :=
    match JsMap.get target (nodeInfo g) with
    | Some i => source i
    | None => VUndefined
    end in
  let ni :=
    map (fun e => (fst e,
                   if value_eqb (DivergingGraph.source (snd e)) target
                   then with_source VNull (snd e) else snd e))
        (JsMap.delete target (nodeInfo g)) in
  let g1 := with_nodeInfo ni g in
  if value_eqb target (furthestNode g1) then
    match reduce_further ni (JsMap.keys ni) (coalesce source VNull) with
    | Some f =>
        let (g2, evs) := set_furthestNode f g1 in (Normal, g2, evs)
    | None => (Throw TypeError, g1, [])
    end
  else (Normal, g1, []).

(** The operations a client issues, and a run of them in which every
    call returns normally. *)
Inductive op : Type :=
| AddEdge (source target data : value)
| RemoveNode (target : value)
| Prune (maxSize : Z).

Definition exec (fuel : nat) (o : op) (g : t) : outcome :=
  match o with
  | AddEdge s x d => addEdge fuel s x d g
  | RemoveNode x => removeNode x g
  | Prune k => prune fuel k g
  end.

Fixpoint run (fuel : nat) (ops : list op) (g : t) : completion * t :=
  match ops with
  | [] => (Normal, g)
  | o :: ops' =>
      match exec fuel o g with
      | (Normal, g', _) => run fuel ops' g'
      | (c, g', _) => (c, g')
      end
  end.

End DivergingGraph.

(** ** PeerConnection *)

Module PeerConnection.

Inductive channelState : Type :=
| CHANNEL_CONNECTING | CHANNEL_OPEN | CHANNEL_CLOSING | CHANNEL_CLOSED.

Inductive signalingState : Type :=
| stable | have_local_offer | have_remote_offer
| have_local_pranswer | have_remote_pranswer | signaling_closed.

Inductive sdpType : Type := offer | answer | pranswer | rollback.

Record description : Type := mkDescription {
  type : sdpType;
  sdp : string
}.

Definition is_offer (d : description) : bool :=
  match type d with offer => true | _ => false end.

Definition is_stable (s : signalingState) : bool :=
  match s with stable => true | _ => false end.

(** What the [RTCPeerConnection] answers during one call: the signaling
    state it reports, whether each awaited operation resolves, and the
    local description it exposes afterwards. *)
Record transport : Type := mkTransport {
  tr_signalingState : signalingState;
  tr_setRemoteDescription : bool;
  tr_setLocalDescription : bool;
  tr_addIceCandidate : bool;
  tr_localDescription : description
}.

(** [connection] records whether an [RTCPeerConnection] is attached;
    [channel] is the attached data channel with its [readyState]. *)
Record t : Type := mk {
  localId : string;
  remoteId : string;
  _ignoreOffer : bool;
  _makingOffer : bool;
  _polite : bool;
  connection : bool;
  channel : option channelState
}.

Inductive effect : Type :=
| SetRemoteDescription (d : description)
| SetLocalDescription
| AddIceCandidate (c : string)
| SendOutOfBand (c : option string) (d : option description)
| CreateDataChannel
| ChannelSend (to : string) (msg : string)
| ChannelClose
| ConnectionClose
| RestartIce
| Dispatch (name : string)
| ConsoleError
| ConsoleWarn.

(** [localId > remoteId] on strings. *)
Definition string_gtb (a b : string) : bool :=
  match String.compare a b with Gt => true | _ => false end.

Definition with_ignoreOffer (b : bool) (p : t) : t :=
  mk (localId p) (remoteId p) b (_makingOffer p) (_polite p)
     (connection p) (channel p).

Definition with_makingOffer (b : bool) (p : t) : t :=
  mk (localId p) (remoteId p) (_ignoreOffer p) b (_polite p)
     (connection p) (channel p).

Definition with_connection (c : bool) (p : t) : t :=
  mk (localId p) (remoteId p) (_ignoreOffer p) (_makingOffer p) (_polite p)
     c (channel p).

Definition with_channel (c : option channelState) (p : t) : t :=
  mk (localId p) (remoteId p) (_ignoreOffer p) (_makingOffer p) (_polite p)
     (connection p) c.

(** [async negotiate({ candidate, description })]; every error is caught
    and logged inside. *)
Definition negotiate (candidate : option string)
    (desc : option description) (tr : transport) (this : t)
  : t * list effect :=
  let ignoreOffer0 := _ignoreOffer this in
  let makingOffer := _makingOffer this in
  let polite := _polite this in
  match desc with
  | Some d =>
      let offerCollision : option bool :=
        if is_offer d then
          if makingOffer then Some true
          else if connection this
               then Some (negb (is_stable (tr_signalingState tr)))
               else None
        else Some false in
      match offerCollision with
      | None => (this, [ConsoleError])
      | Some collision =>
          let this1 := with_ignoreOffer (negb polite && collision) this in
          if _ignoreOffer this1 then (this1, [])
          else if negb (connection this1) then (this1, [ConsoleError])
          else if negb (tr_setRemoteDescription tr)
          then (this1, [SetRemoteDescription d; ConsoleError])
          else if is_offer d then
            if tr_setLocalDescription tr
            then (this1,
                  [SetRemoteDescription d; SetLocalDescription;
                   SendOutOfBand None (Some (tr_localDescription tr))])
            else (this1,
                  [SetRemoteDescription d; SetLocalDescription;
                   ConsoleError])
          else (this1, [SetRemoteDescription d])
      end
  | None =>
      match candidate with
      | Some c =>
          if negb (connection this) then
            if ignoreOffer0 then (this, []) else (this, [ConsoleError])
          else if tr_addIceCandidate tr then (this, [AddIceCandidate c])
          else if ignoreOffer0 then (this, [AddIceCandidate c])
          else (this, [AddIceCandidate c; ConsoleError])
      | None => (this, [])
      end
  end.

(** [setDataChannel] through [_handleDataChannel]. *)
Definition _handleDataChannel (st : channelState) (this : t)
  : t * list effect :=
  match channel this with
  | None => (with_channel (Some st) this, [])
  | Some _ => (this, [ConsoleWarn])
  end.

(** [constructor(localId, remoteId, config)] with [setConnection]. *)
Definition new (localId remoteId : string) (desc : option description)
    (tr : transport) : t * list effect :=
  let this := mk localId remoteId false false (string_gtb localId remoteId)
                 true None in
  match desc with
  | Some d => negotiate None (Some d) tr this
  | None =>
      let (this', effs) := _handleDataChannel CHANNEL_CONNECTING this in
      (this', CreateDataChannel :: effs)
  end.

Definition closeDataChannel (this : t) : t * list effect :=
  match channel this with
  | None => (this, [])
  | Some _ => (with_channel None this, [ChannelClose])
  end.

Definition closeConnection (this : t) : t * list effect :=
  if connection this then (with_connection false this, [ConnectionClose])
  else (this, []).

Definition close (this : t) : t * list effect :=
  let (p1, e1) := closeDataChannel this in
  let (p2, e2) := closeConnection p1 in
  (p2, e1 ++ e2).

(** [send(msgString)]: [this.channel.send(msgString)]. A missing channel
    is a [TypeError]; a channel that is not open refuses the message. *)
Definition send (msg : string) (this : t) : completion * list effect :=
  match channel this with
  | None => (Throw TypeError, [])
  | Some CHANNEL_OPEN => (Normal, [ChannelSend (remoteId this) msg])
  | Some _ => (Throw InvalidStateError, [])
  end.

(** [_handleNegotiationNeeded], split at its [await]. *)
Definition negotiationNeeded_begin (this : t) : t * list effect :=
  let this1 := with_makingOffer true this in
  if connection this1 then (this1, [SetLocalDescription])
  else (with_makingOffer false this1, [ConsoleError]).

Definition negotiationNeeded_end (tr : transport) (this : t)
  : t * list effect :=
  (with_makingOffer false this,
   if tr_setLocalDescription tr
   then [SendOutOfBand None (Some (tr_localDescription tr))]
   else [ConsoleError]).

(** [_handleDataChannelStateChange({ type })] *)
Definition _handleDataChannelStateChange (ty : string) (this : t)
  : t * list effect :=
  if String.eqb ty "closing" then
    let (p, e) := close this in (p, e ++ [Dispatch "close"])
  else if String.eqb ty "open" then (this, [Dispatch "open"])
  else (this, []).

(** Everything that can happen to a link after its construction. *)
Inductive action : Type :=
| Negotiate (candidate : option string) (desc : option description)
    (tr : transport)
| NegotiationNeededBegin
| NegotiationNeededEnd (tr : transport)
| DataChannel (st : channelState)
| ChannelReadyState (st : channelState)
| DataChannelStateChange (ty : string)
| Send (msg : string)
| Close.

Definition step (a : action) (this : t) : t * list effect :=
  match a with
  | Negotiate c d tr => negotiate c d tr this
  | NegotiationNeededBegin => negotiationNeeded_begin this
  | NegotiationNeededEnd tr => negotiationNeeded_end tr this
  | DataChannel st => _handleDataChannel st this
  | ChannelReadyState st =>
      match channel this with
      | Some _ => (with_channel (Some st) this, [])
      | None => (this, [])
      end
  | DataChannelStateChange ty => _handleDataChannelStateChange ty this
  | Send msg => (this, snd (send msg this))
  | Close => close this
  end.

Fixpoint steps (l : list action) (this : t) : t :=
  match l with
  | [] => this
  | a :: l' => steps l' (fst (step a this))
  end.

End PeerConnection.

(** ** PeerGroup *)

Module PeerGroup.

Import PeerConnection.

Record envelope : Type := mkEnvelope {
  from : value;
  to : value;
  candidate : option string;
  description : option description
}.

Record t : Type := mk {
  localId : string;
  peers : list PeerConnection.t
}.

Definition with_peers (ps : list PeerConnection.t) (g : t) : t :=
  mk (localId g) ps.

Definition is_hex (c : ascii) : bool :=
  let n := nat_of_ascii c in
  ((48 <=? n) && (n <=? 57) || (97 <=? n) && (n <=? 102))%nat.

(** [[0-9a-f]{n}]: consumes [n] hexadecimal characters. *)
Fixpoint hex_run (n : nat) (s : string) : option string :=
  match n with
  | O => Some s
  | S n' =>
      match s with
      | String c s' => if is_hex c then hex_run n' s' else None
      | EmptyString => None
      end
  end.

(** [-[0-9a-f]{n}] *)
Definition dash_hex_run (n : nat) (s : string) : option string :=
  match s with
  | String "-" s' => hex_run n s'
  | _ => None
  end.

(** [/^[0-9a-f]{8}(?:-[0-9a-f]{4}){3}-[0-9a-f]{12}$/] *)
Definition reUUIDv4 (s : string) : bool :=
  match hex_run 8 s with
  | Some s1 =>
      match dash_hex_run 4 s1 with
      | Some s2 =>
          match dash_hex_run 4 s2 with
          | Some s3 =>
              match dash_hex_run 4 s3 with
              | Some s4 =>
                  match dash_hex_run 12 s4 with
                  | Some EmptyString => true
                  | _ => false
                  end
              | None => false
              end
          | None => false
          end
      | None => false
      end
  | None => false
  end.

Definition isValidId (id : value) : bool :=
  match id with
  | VStr s => reUUIDv4 s
  | _ => false
  end.

(** [getPeer(remoteId)] *)
Definition getPeer (remoteId : string) (g : t) : option PeerConnection.t :=
  find (fun p => String.eqb (PeerConnection.remoteId p) remoteId) (peers g).

(** The class declares no [findPeer] and [EventTarget] has none: reading
    [this.findPeer] gives [undefined]. *)
Definition findPeer : option (string -> t -> option PeerConnection.t) :=
  None.

Definition outcome : Type := (completion * t * list effect)%type.

(** [addPeer(remoteId, description)] *)
Definition addPeer (remoteId : string) (desc : option PeerConnection.description)
    (tr : transport) (g : t) : outcome :=
  match findPeer with
  | None => (Throw TypeError, g, [])
  | Some find =>
      match find remoteId g with
      | Some _ => (Normal, g, [ConsoleWarn])
      | None =>
          let (peer, effs) :=
            PeerConnection.new (localId g) remoteId desc tr in
          (Normal, with_peers (peers g ++ [peer]) g, effs)
      end
  end.

(** The link found by [getPeer] is updated where it stands. *)
Fixpoint update_peer (remoteId : string)
    (f : PeerConnection.t -> PeerConnection.t)
    (ps : list PeerConnection.t) : list PeerConnection.t :=
  match ps with
  | [] => []
  | p :: ps' =>
      if String.eqb (PeerConnection.remoteId p) remoteId
      then f p :: ps'
      else p :: update_peer remoteId f ps'
  end.

(** [_handlePeer(remoteId, { candidate, description })] *)
Definition _handlePeer (remoteId : string) (cand : option string)
    (desc : option PeerConnection.description) (tr : transport) (g : t) : outcome :=
  match getPeer remoteId g with
  | Some peer =>
      (Normal,
       with_peers
         (update_peer remoteId
            (fun p => fst (PeerConnection.negotiate cand desc tr p))
            (peers g)) g,
       snd (PeerConnection.negotiate cand desc tr peer))
  | None => addPeer remoteId desc tr g
  end.

(** [(to ?? localId) === localId && isValidId(from)] *)
Definition accepts (g : t) (e : envelope) : bool :=
  value_eqb (coalesce (to e) (VStr (localId g))) (VStr (localId g))
  && isValidId (from e).

Definition handleMessage (tr : string -> transport) (e : envelope) (g : t)
  : outcome :=
  if accepts g e then
    match from e with
    | VStr remoteId =>
        _handlePeer remoteId (candidate e) (description e) (tr remoteId) g
    | _ => (Normal, g, [])
    end
  else (Normal, g, []).

(** What one [negotiate] call does up to its first [await], and what its
    continuation does once the awaited call has settled. *)
Definition before_await (effs : list effect) : list effect * list effect :=
  match effs with
  | SetRemoteDescription d :: rest => ([SetRemoteDescription d], rest)
  | AddIceCandidate c :: rest => ([AddIceCandidate c], rest)
  | _ => (effs, [])
  end.

(** The loop [messages.forEach(handleMessage)]: every envelope is handled
    up to the first [await] of its [negotiate]; the continuations are
    collected apart, in call order. *)
Fixpoint handle_each (tr : string -> transport) (messages : list envelope)
    (g : t) : completion * t * list effect * list effect :=
  match messages with
  | [] => (Normal, g, [], [])
  | e :: rest =>
      match handleMessage tr e g with
      | (Normal, g', effs) =>
          match handle_each tr rest g' with
          | (c, g'', now, later) =>
              (c, g'', fst (before_await effs) ++ now,
               snd (before_await effs) ++ later)
          end
      | (c, g', effs) =>
          (c, g', fst (before_await effs), snd (before_await effs))
      end
  end.

(** [_handleSocketMessage] on the parsed batch: the loop runs first, the
    continuations of the [negotiate] calls it started run after it, also
    when the loop was left by a throw. *)
Definition _handleSocketMessage (tr : string -> transport)
    (messages : list envelope) (g : t) : outcome :=
  match handle_each tr messages g with
  | (c, g', now, later) => (c, g', now ++ later)
  end.

(** [send(msgString)]: [this.peers.forEach((peer) => peer.send(msgString))] *)
Fixpoint send_each (msg : string) (ps : list PeerConnection.t)
  : completion * list effect :=
  match ps with
  | [] => (Normal, [])
  | p :: ps' =>
      match PeerConnection.send msg p with
      | (Normal, effs) =>
          match send_each msg ps' with
          | (c, effs') => (c, effs ++ effs')
          end
      | failed => failed
      end
  end.

Definition send (msg : string) (g : t) : completion * list effect :=
  send_each msg (peers g).

End PeerGroup.

(** ** Vocabulary of the graph properties *)

Module GraphSpec.
Import DivergingGraph.

(** [i] is not beaten by [j]: [j] has a smaller distance, or the same
    distance and an arrival order that is not earlier. *)
Definition not_beaten_by (i j : info) : Prop :=
  distance j < distance i \/ (distance j = distance i /\ _t i <= _t j).

(** [furthestNode] is a node of the graph that no node beats. *)
Definition is_furthest (g : t) : Prop :=
  exists fi,
    JsMap.get (furthestNode g) (nodeInfo g) = Some fi /\
    forall k j, JsMap.get k (nodeInfo g) = Some j -> not_beaten_by fi j.

(** Operations that leave the sentinel in place. *)
Definition keeps_root (o : op) : Prop :=
  match o with
  | RemoveNode x => x <> VNull
  | _ => True
  end.

Definition in_range (g : t) : Prop :=
  forall k j, JsMap.get k (nodeInfo g) = Some j ->
    _t j < counter g /\ -1 <= distance j.

Definition has_root (g : t) : Prop :=
  exists r, JsMap.get VNull (nodeInfo g) = Some r.

Definition well_formed (g : t) : Prop :=
  has_root g /\ in_range g /\ is_furthest g.

(** [anchored ni n d]: the chain of sources that starts at [n] reaches the
    sentinel after [d] nodes of the graph. *)
Inductive anchored (ni : JsMap.t info) : value -> nat -> Prop :=
| anchored_root : anchored ni VNull 0
| anchored_step n i d :
    JsMap.get n ni = Some i ->
    anchored ni (source i) d ->
    anchored ni n (S d).

(** A node has an outgoing edge when it is the [source] of some node. *)
Definition has_outgoing (ni : JsMap.t info) (k : value) : bool :=
  existsb (fun e => value_eqb (source (snd e)) k) ni.

(** The heads as the data model defines them: the keys of the graph, the
    sentinel apart, that have no outgoing edge. *)
Definition is_head (g : t) (k : value) : Prop :=
  k <> VNull /\ JsMap.get k (nodeInfo g) <> None /\
  has_outgoing (nodeInfo g) k = false.

Definition heads_exact (g : t) : Prop :=
  forall k, JsSet.has k (heads g) = true <-> is_head g k.

(** Every node other than the sentinel has a [source] that is [null] or a
    key of the graph. *)
Definition sources_closed (ni : JsMap.t info) : Prop :=
  forall k j, k <> VNull -> JsMap.get k ni = Some j ->
    source j = VNull \/ JsMap.get (source j) ni <> None.

End GraphSpec.

(** ** Sample keys and graphs *)

Definition A_ : value := VStr "A".
Definition B_ : value := VStr "B".
Definition C_ : value := VStr "C".
Definition D_ : value := VStr "D".
Definition X_ : value := VStr "X".
Definition Z_ : value := VStr "Z".

(** The graph after [addEdge('A', 'B')]. *)
Definition graph_AB : DivergingGraph.t :=
  snd (DivergingGraph.run 0
         [DivergingGraph.AddEdge A_ B_ VUndefined] DivergingGraph.new).

(** The graph after [addEdge('A', 'B'); removeNode('B')]. *)
Definition graph_AB_minus_B : DivergingGraph.t :=
  snd (DivergingGraph.run 0
         [DivergingGraph.AddEdge A_ B_ VUndefined;
          DivergingGraph.RemoveNode B_] DivergingGraph.new).

Definition E_ : value := VStr "E".
Definition F_ : value := VStr "F".
Definition G_ : value := VStr "G".

(** The run of the repository's [test()] up to the re-added edge
    [D -> G]. *)
Definition test_ops : list DivergingGraph.op :=
  [DivergingGraph.AddEdge C_ D_ VUndefined;
   DivergingGraph.AddEdge E_ F_ VUndefined;
   DivergingGraph.AddEdge F_ G_ VUndefined;
   DivergingGraph.AddEdge A_ B_ VUndefined;
   DivergingGraph.AddEdge B_ C_ VUndefined;
   DivergingGraph.AddEdge B_ E_ VUndefined;
   DivergingGraph.RemoveNode E_;
   DivergingGraph.RemoveNode G_;
   DivergingGraph.AddEdge D_ G_ VUndefined].

(** A run that removes the sentinel: [addEdge('A', 'A')],
    [removeNode(null)], [removeNode('A')], [addEdge(null, null)]. *)
Definition root_removal_ops : list DivergingGraph.op :=
  [DivergingGraph.AddEdge A_ A_ VUndefined;
   DivergingGraph.RemoveNode VNull;
   DivergingGraph.RemoveNode A_;
   DivergingGraph.AddEdge VNull VNull VUndefined].

(** ** Sample peers *)

Definition id_local : string := "55555555-5555-4555-8555-555555555555".
Definition id_a : string := "aaaaaaaa-aaaa-4aaa-8aaa-aaaaaaaaaaaa".
Definition id_b : string := "bbbbbbbb-bbbb-4bbb-8bbb-bbbbbbbbbbbb".

(** A link to [id_a] whose data channel is still connecting, and a link
    to [id_b] whose channel is open. *)
Definition peer_pending : PeerConnection.t :=
  PeerConnection.mk id_local id_a false false false true
    (Some PeerConnection.CHANNEL_CONNECTING).

Definition peer_open : PeerConnection.t :=
  PeerConnection.mk id_local id_b false false false true
    (Some PeerConnection.CHANNEL_OPEN).

Definition group_joining : PeerGroup.t :=
  PeerGroup.mk id_local [peer_pending; peer_open].

Definition group_alone : PeerGroup.t := PeerGroup.mk id_local [].

Definition sample_offer : PeerConnection.description :=
  PeerConnection.mkDescription PeerConnection.offer "v=0".

Definition sample_transport : PeerConnection.transport :=
  PeerConnection.mkTransport PeerConnection.have_local_offer true true true
    (PeerConnection.mkDescription PeerConnection.answer "v=0").

(** A broadcast envelope from [id_a] that carries an offer. *)
Definition envelope_from_a : PeerGroup.envelope :=
  PeerGroup.mkEnvelope (VStr id_a) VUndefined None (Some sample_offer).

(** When an offer collides: the link is making its own offer, or its
    connection is there and not in the stable state. *)
Definition offer_collision (p : PeerConnection.t)
    (tr : PeerConnection.transport) : Prop :=
  PeerConnection._makingOffer p = true \/
  (PeerConnection.connection p = true /\
   PeerConnection.is_stable (PeerConnection.tr_signalingState tr) = false).

(** ** PeerGroup: the relay socket and the pool of links *)

Module Mesh.
Import PeerConnection.

Inductive socketState : Type :=
| SOCKET_CONNECTING | SOCKET_OPEN | SOCKET_CLOSING | SOCKET_CLOSED.

(** The whole object: [socket] is the attached [WebSocket] with its
    [readyState], [_outbox] the negotiation messages that wait for the
    timer. *)
Record t : Type := mk {
  group : PeerGroup.t;
  socket : option socketState;
  _outbox : list PeerGroup.envelope
}.

Inductive effect : Type :=
| Link (remoteId : string) (e : PeerConnection.effect)
| SocketSend (batch : list PeerGroup.envelope)
| SetTimeout (ms : Z)
| DispatchPeer (name : string) (remoteId : string)
| AttachSocket
| DetachSocket
| ConsoleError.

Definition with_group (g : PeerGroup.t) (this : t) : t :=
  mk g (socket this) (_outbox this).

Definition with_socket (s : option socketState) (this : t) : t :=
  mk (group this) s (_outbox this).

Definition with_outbox (o : list PeerGroup.envelope) (this : t) : t :=
  mk (group this) (socket this) o.

(** [negotiate(remoteId, params)]: the message joins the outbox; the
    first message of a batch arms the timer. *)
Definition negotiate (remoteId : value) (candidate : option string)
    (desc : option PeerConnection.description) (this : t)
  : t * list effect :=
  let message :=
    PeerGroup.mkEnvelope (VStr (PeerGroup.localId (group this))) remoteId
      candidate desc in
  let this1 := with_outbox (_outbox this ++ [message]) this in
  (this1,
   if (List.length (_outbox this1) =? 1)%nat then [SetTimeout 100] else []).

(** [socket.send(msgJSON)] inside the [try]: no socket is a [TypeError], a
    connecting socket throws, a closing or closed one drops the data. *)
Definition socket_send (batch : list PeerGroup.envelope)
    (s : option socketState) : list effect :=
  match s with
  | Some SOCKET_OPEN => [SocketSend batch]
  | Some SOCKET_CLOSING | Some SOCKET_CLOSED => []
  | Some SOCKET_CONNECTING | None => [ConsoleError]
  end.

(** [_sendOutbox] *)
Definition _sendOutbox (this : t) : t * list effect :=
  let messages := _outbox this in
  (with_outbox [] this, socket_send messages (socket this)).

(** [set socket(null)]: the first half of the setter. *)
Definition detach_socket (this : t) : t * list effect :=
  match socket this with
  | Some _ => (with_socket None this, [DetachSocket])
  | None => (this, [])
  end.

(** [_handleSocketStateChange] *)
Definition _handleSocketStateChange (this : t) : t * list effect :=
  match socket this with
  | Some SOCKET_OPEN => negotiate VUndefined None None this
  | Some SOCKET_CLOSED | Some SOCKET_CLOSING => detach_socket this
  | Some SOCKET_CONNECTING | None => (this, [])
  end.

(** [set socket(value)], also [join(socket)]. *)
Definition set_socket (value : option socketState) (this : t)
  : t * list effect :=
  let (this1, e1) := detach_socket this in
  match value with
  | None => (this1, e1)
  | Some st =>
      let this2 := with_socket (Some st) this1 in
      match st with
      | SOCKET_OPEN =>
          let (this3, e3) := _handleSocketStateChange this2 in
          (this3, e1 ++ AttachSocket :: e3)
      | _ => (this2, e1 ++ [AttachSocket])
      end
  end.

Definition join (s : socketState) (this : t) : t * list effect :=
  set_socket (Some s) this.

(** An ['open'] or ['close'] event of the attached socket, whose
    [readyState] is now [st]. A detached socket has no handler left. *)
Definition socket_event (st : socketState) (this : t) : t * list effect :=
  match socket this with
  | Some _ => _handleSocketStateChange (with_socket (Some st) this)
  | None => (this, [])
  end.

(** [this.peers.filter((p) => p !== peer)] for the link [getPeer] found:
    the first link with that remote id. *)
Fixpoint without_peer (remoteId : string) (ps : list PeerConnection.t)
  : list PeerConnection.t :=
  match ps with
  | [] => []
  | p :: ps' =>
      if String.eqb (PeerConnection.remoteId p) remoteId then ps'
      else p :: without_peer remoteId ps'
  end.

(** [removePeer(remoteId)] *)
Definition removePeer (remoteId : string) (this : t) : t * list effect :=
  match PeerGroup.getPeer remoteId (group this) with
  | Some peer =>
      (with_group
         (PeerGroup.with_peers
            (without_peer remoteId (PeerGroup.peers (group this)))
            (group this)) this,
       map (Link remoteId) (snd (PeerConnection.close peer)))
  | None => (this, [])
  end.

(** [leave()] *)
Definition leave (this : t) : t * list effect :=
  let closing :=
    flat_map (fun p => map (Link (PeerConnection.remoteId p))
                         (snd (PeerConnection.close p)))
      (PeerGroup.peers (group this)) in
  let this1 := with_group (PeerGroup.with_peers [] (group this)) this in
  let (this2, e2) := detach_socket this1 in
  (this2, closing ++ e2).

(** [_handlePeerStateChange({ target: peer, type })] *)
Definition _handlePeerStateChange (peer : PeerConnection.t) (type : string)
    (this : t) : t * list effect :=
  if String.eqb type "open" then
    (this, [DispatchPeer "peerjoin" (PeerConnection.remoteId peer)])
  else if String.eqb type "close" then
    let (this1, e1) := removePeer (PeerConnection.remoteId peer) this in
    (this1, e1 ++ [DispatchPeer "peerleave" (PeerConnection.remoteId peer)])
  else (this, []).

(** [_handlePeerNegotiation({ target: peer, detail: params })] *)
Definition _handlePeerNegotiation (peer : PeerConnection.t)
    (candidate : option string) (desc : option PeerConnection.description)
    (this : t) : t * list effect :=
  negotiate (VStr (PeerConnection.remoteId peer)) candidate desc this.

(** A run of [negotiate] calls. *)
Definition call : Type :=
  (value * option string * option PeerConnection.description)%type.

Definition message_of (localId : string) (c : call) : PeerGroup.envelope :=
  PeerGroup.mkEnvelope (VStr localId) (fst (fst c)) (snd (fst c)) (snd c).

Fixpoint negotiate_each (calls : list call) (this : t) : t * list effect :=
  match calls with
  | [] => (this, [])
  | c :: calls' =>
      let (this1, e1) :=
        negotiate (fst (fst c)) (snd (fst c)) (snd c) this in
      let (this2, e2) := negotiate_each calls' this1 in
      (this2, e1 ++ e2)
  end.

End Mesh.

(** ** Cards *)

Module Cards.

(** A JavaScript string as its UTF-16 code units. *)
Definition jsstring : Type := list Z.

(** ['♠♥♣♦'] *)
Definition suits : jsstring := [9824; 9829; 9827; 9830].

(** ['789TJQKA'] *)
Definition ranks : jsstring := [55; 56; 57; 84; 74; 81; 75; 65].

(** A playing card of the block U+1F0A0: the high surrogate [0xD83C] and a
    low surrogate. *)
Definition glyph (low : Z) : jsstring := [55356; low].

(** The 32 cards: 7 8 9 10 J Q K A of spades, hearts, clubs, diamonds. *)
Definition deck : jsstring :=
  flat_map glyph
    [56487; 56488; 56489; 56490; 56491; 56493; 56494; 56481;
     56503; 56504; 56505; 56506; 56507; 56509; 56510; 56497;
     56535; 56536; 56537; 56538; 56539; 56541; 56542; 56529;
     56519; 56520; 56521; 56522; 56523; 56525; 56526; 56513].

Definition back : jsstring := glyph 56480.

(** [ToInt32] on integers. *)
Definition to_int32 (z : Z) : Z := (z + 2 ^ 31) mod 2 ^ 32 - 2 ^ 31.

(** [a << n] and [a >> n] for a small shift count. *)
Definition shl (a n : Z) : Z := to_int32 (to_int32 a * 2 ^ n).
Definition shr (a n : Z) : Z := Z.shiftr (to_int32 a) n.

(** [s.substring(start, end)] *)
Definition substring (s : jsstring) (start stop : Z) : jsstring :=
  let len := Z.of_nat (List.length s) in
  let intStart := Z.min (Z.max start 0) len in
  let intEnd := Z.min (Z.max stop 0) len in
  let from := Z.min intStart intEnd in
  let to := Z.max intStart intEnd in
  firstn (Z.to_nat (to - from)) (skipn (Z.to_nat from) s).

Fixpoint starts_with (pat s : jsstring) : bool :=
  match pat, s with
  | [], _ => true
  | _ :: _, [] => false
  | p :: pat', c :: s' => (p =? c) && starts_with pat' s'
  end.

Fixpoint index_from (pat s : jsstring) (pos : Z) : Z :=
  if starts_with pat s then pos
  else match s with
       | [] => -1
       | _ :: s' => index_from pat s' (pos + 1)
       end.

(** [s.indexOf(pat)] *)
Definition indexOf (s pat : jsstring) : Z := index_from pat s 0.

(** [s[i]]: [None] is [undefined]. *)
Definition char_at (s : jsstring) (i : Z) : option Z :=
  if i <? 0 then None else nth_error s (Z.to_nat i).

Definition card (index : Z) : jsstring :=
  substring deck (shl index 1) (shl index 1 + 2).

Definition sortedPosition (c : jsstring) : Z := indexOf deck c.

Definition suit (c : jsstring) : option Z :=
  char_at suits (shr (indexOf deck c) 4).

Definition rank (c : jsstring) : option Z :=
  char_at ranks (shr (Z.rem (indexOf deck c) 16) 1).

Section Shuffle.
Variable A : Type.

Fixpoint update (n : nat) (x : A) (l : list A) : list A :=
  match l, n with
  | [], _ => []
  | _ :: t, O => x :: t
  | h :: t, S n' => h :: update n' x t
  end.

(** [[array[i], array[j]] = [array[j], array[i]]] for two indices of the
    array. With an index outside it the assignment would store
    [undefined] and grow the array, which [Math.random()] in [[0, 1)]
    never asks for: that case is [None]. *)
Definition swap (i : nat) (j : Z) (l : list A) : option (list A) :=
  match nth_error l i,
        (if j <? 0 then None else nth_error l (Z.to_nat j)) with
  | Some x, Some y => Some (update (Z.to_nat j) x (update i y l))
  | _, _ => None
  end.

(** [random k] is what the [k]-th call of [Math.random()] returns. *)
Variable random : nat -> Q.

(** [Math.floor(Math.random() * (i + 1))] *)
Definition draw (k i : nat) : Z :=
  Qfloor (Double.mul (random k) (inject_Z (Z.of_nat i + 1))).

(** The loop [for (let i = array.length - 1; i > 0; i--)], entered at
    index [i] with [k] numbers drawn so far. *)
Fixpoint shuffle_loop (i k : nat) (l : list A) : option (list A) :=
  match i with
  | O => Some l
  | S i' =>
      match swap i (draw k i) l with
      | Some l' => shuffle_loop i' (S k) l'
      | None => None
      end
  end.

Definition shuffleArray (l : list A) : option (list A) :=
  shuffle_loop (List.length l - 1) 0 l.
End Shuffle.

(** [hand_ix.sort((a, b) => a - b)] *)
Fixpoint insert_num (x : Z) (l : list Z) : list Z :=
  match l with
  | [] => [x]
  | y :: l' => if x <=? y then x :: l else y :: insert_num x l'
  end.

Definition sort_num (l : list Z) : list Z := fold_right insert_num [] l.

(** [array.slice(from, to)] for [0 <= from <= to]. *)
Definition slice (A : Type) (from to : nat) (l : list A) : list A :=
  firstn (to - from) (skipn from l).

(** [Array(n).fill(0).map((_, i) => i)] *)
Definition iota (n : nat) : list Z := map Z.of_nat (seq 0 n).

Definition deal (random : nat -> Q) : option (list (list jsstring)) :=
  match shuffleArray random (iota 32) with
  | Some cards_ix =>
      Some (map (fun i : nat =>
                   let hand_ix :=
                     sort_num (slice (i * 8) (i * 8 + 8) cards_ix) in
                   map card hand_ix)
              [0; 1; 2; 3]%nat)
  | None => None
  end.

Definition dealByAssignment (random : nat -> Q) : option (list Z) :=
  let eightTimes := fun i : Z => repeat i 8 in
  let ixPlayer := List.concat (map eightTimes [0; 1; 2; 3]) in
  shuffleArray random ixPlayer.

End Cards.

(** ** Vocabulary of the graph invariants *)

Module GraphInv.
Import DivergingGraph.

(** What the tie-break looks at. *)
Definition rank (i : info) : Z * Z := (distance i, _t i).

(** Every state a graph object can be in: any calls, returning or
    throwing. *)
Inductive reachable : t -> Prop :=
| reach_new : reachable new
| reach_step fuel o g c g' evs :
    reachable g ->
    exec fuel o g = (c, g', evs) ->
    reachable g'.

(** The same, for calls that leave the sentinel in place. *)
Inductive reachable_rooted : t -> Prop :=
| rooted_new : reachable_rooted new
| rooted_step fuel o g c g' evs :
    reachable_rooted g ->
    GraphSpec.keeps_root o ->
    exec fuel o g = (c, g', evs) ->
    reachable_rooted g'.

Definition unique_keys (ni : JsMap.t info) : Prop := NoDup (JsMap.keys ni).

Definition arrivals_fresh (g : t) : Prop :=
  forall k j, JsMap.get k (nodeInfo g) = Some j -> _t j < counter g.

Definition arrivals_distinct (ni : JsMap.t info) : Prop :=
  forall k1 k2 j1 j2,
    JsMap.get k1 ni = Some j1 -> JsMap.get k2 ni = Some j2 ->
    _t j1 = _t j2 -> k1 = k2.

Definition distances_bounded (ni : JsMap.t info) : Prop :=
  forall k j, JsMap.get k ni = Some j -> -1 <= distance j.

(** The entries of [ni'] are entries of [ni] with the same arrival order
    and a distance that is not smaller. *)
Definition grown_from (ni ni' : JsMap.t info) : Prop :=
  JsMap.keys ni' = JsMap.keys ni /\
  forall k j', JsMap.get k ni' = Some j' ->
    exists j, JsMap.get k ni = Some j /\ _t j' = _t j /\
              distance j <= distance j'.

(** The bookkeeping of a graph with counter [c]: keys occur once, arrival
    orders are below the counter and pairwise distinct, distances are at
    least that of the sentinel. *)
Definition ok (ni : JsMap.t info) (c : Z) : Prop :=
  unique_keys ni /\
  (forall k j, JsMap.get k ni = Some j -> _t j < c) /\
  arrivals_distinct ni /\
  distances_bounded ni.

Definition graph_ok (g : t) : Prop := ok (nodeInfo g) (counter g).

(** The sentinel is in place, with its distance and arrival order, and
    every other node arrived later. *)
Definition rooted (ni : JsMap.t info) (c : Z) : Prop :=
  (exists r, JsMap.get VNull ni = Some r /\ distance r = -1 /\ _t r = 0) /\
  (forall k j, k <> VNull -> JsMap.get k ni = Some j -> 1 <= _t j) /\
  1 <= c.

End GraphInv.

(** ** The Ably relay wrapper *)

Module Ably.

(** The frames of the protocol: the attach request
    [{ action: 10, channel: 'kraken', flags }], with or without [flags],
    and the message [{ action: 15, channel, msgSerial, count: 1,
    connectionId, messages: [{ name: 'kraken', data }] }] that [send]
    builds. *)
Inductive frame : Type :=
| Attach (flags : option Z)
| Publish (msgSerial : Z) (connectionId : string) (data : string).

Definition FLAG_PUBLISH : Z := Z.shiftl 1 17.
Definition FLAG_SUBSCRIBE : Z := Z.shiftl 1 18.

Definition flags : Z := Z.lor FLAG_PUBLISH FLAG_SUBSCRIBE.

Definition msgJoin : frame := Attach None.
Definition msgFlags : frame := Attach (Some flags).

(** The closure of [connect] and the object [x] it returns. A callback is
    known by its identity. [readyState] is the property [x.readyState];
    [live] tells that [close()] has not yet deleted the properties of [x]
    and unhooked the socket. *)
Record t : Type := mk {
  sentFlags : bool;
  msgSerial : Z;
  connectionId : string;
  handlers : list (string * nat);
  readyState : option Z;
  live : bool
}.

(** What the wrapper does to the outside: [WsSend] and [WsClose] are calls
    on the underlying socket, [Call] is the call of a registered callback
    with the event [{ target: x, type, data }], where [seen] is the
    [readyState] the callback finds on [x]. A callback is taken to return
    without calling the wrapper back. *)
Inductive effect : Type :=
| WsSend (f : frame)
| WsClose
| Call (callback : nat) (type : string) (data : option string)
    (seen : option Z)
| ConsoleLog.

(** [connect(apiKey)]: a new [WebSocket] is connecting. *)
Definition connect : t := mk false 0 "" [] (Some 0) true.

Definition with_readyState (rs : option Z) (this : t) : t :=
  mk (sentFlags this) (msgSerial this) (connectionId this) (handlers this)
     rs (live this).

Definition with_handlers (h : list (string * nat)) (this : t) : t :=
  mk (sentFlags this) (msgSerial this) (connectionId this) h
     (readyState this) (live this).

(** [({ [rs]: rs, 1: sentFlags ? 1 : 0 }[rs])] *)
Definition adjustedReadyState (sentFlags : bool) (rs : Z) : Z :=
  if rs =? 1 then (if sentFlags then 1 else 0) else rs.

(** [for (const [tp, callback] of handlers) if (tp === type)
    callback(evt)]; [seen] is the [readyState] the callback finds on its
    target. *)
Definition dispatch (type : string) (data : option string) (this : t)
  : list effect :=
  map (fun h => Call (snd h) type data (readyState this))
      (filter (fun h => String.eqb (fst h) type) (handlers this)).

(** [stateHandler({ target, type })] with [target.readyState = rs]. *)
Definition stateHandler (type : string) (rs : Z) (this : t)
  : t * list effect :=
  let this1 :=
    with_readyState (Some (adjustedReadyState (sentFlags this) rs)) this in
  (this1, dispatch type None this1).

(** The parsed [data] of a socket message. *)
Record protocol : Type := mkProtocol {
  action : Z;
  p_connectionId : string;
  messages : list string
}.

(** [messageHandler({ target, type, data })] for [data] that parses;
    [type] is ['message']. *)
Definition messageHandler (rs : Z) (p : protocol) (this : t)
  : t * list effect :=
  let this1 :=
    with_readyState (Some (adjustedReadyState (sentFlags this) rs)) this in
  if (action p =? 0) || (action p =? 1) then (this1, [])
  else if action p =? 4 then
    (mk (sentFlags this1) (msgSerial this1) (p_connectionId p)
        (handlers this1) (readyState this1) (live this1),
     [WsSend msgJoin])
  else if action p =? 11 then
    if sentFlags this1 then stateHandler "open" rs this1
    else
      (mk true (msgSerial this1) (connectionId this1) (handlers this1)
          (readyState this1) (live this1),
       [WsSend msgFlags])
  else if action p =? 15 then
    (this1,
     flat_map (fun d => dispatch "message" (Some d) this1) (messages p))
  else (this1, [ConsoleLog]).

(** [handlers.findIndex(...)] followed by [handlers.splice(index, 1)]. *)
Fixpoint remove_first (type : string) (cb : nat) (h : list (string * nat))
  : list (string * nat) :=
  match h with
  | [] => []
  | (tp, c) :: h' =>
      if String.eqb tp type && Nat.eqb c cb then h'
      else (tp, c) :: remove_first type cb h'
  end.

(** What happens to the wrapper: events of the socket, with the
    [readyState] [rs] the socket has at that moment, and calls of the
    client. *)
Inductive event : Type :=
| SocketState (type : string) (rs : Z)
| SocketMessage (rs : Z) (p : protocol)
| AddEventListener (type : string) (cb : nat)
| RemoveEventListener (type : string) (cb : nat)
| Send (msg : string)
| Close.

(** One turn. After [close()] the socket no longer reaches the handlers
    and [x] has no method left: calling one is a [TypeError]. *)
Definition step (e : event) (this : t) : completion * t * list effect :=
  if live this then
    match e with
    | SocketState type rs =>
        let (this1, effs) := stateHandler type rs this in
        (Normal, this1, effs)
    | SocketMessage rs p =>
        let (this1, effs) := messageHandler rs p this in
        (Normal, this1, effs)
    | AddEventListener type cb =>
        (Normal, with_handlers (handlers this ++ [(type, cb)]) this, [])
    | RemoveEventListener type cb =>
        (Normal, with_handlers (remove_first type cb (handlers this)) this,
         [])
    | Send msg =>
        (Normal,
         mk (sentFlags this) (msgSerial this + 1) (connectionId this)
            (handlers this) (readyState this) (live this),
         [ConsoleLog])
    | Close =>
        (Normal, mk false 0 (connectionId this) [] None false, [WsClose])
    end
  else
    match e with
    | SocketState _ _ | SocketMessage _ _ => (Normal, this, [])
    | _ => (Throw TypeError, this, [])
    end.

(** A sequence of turns; a call that throws ends its own turn only. *)
Fixpoint run (evs : list event) (this : t) : t * list effect :=
  match evs with
  | [] => (this, [])
  | e :: evs' =>
      match step e this with
      | (_, this1, e1) =>
          let (this2, e2) := run evs' this1 in (this2, e1 ++ e2)
      end
  end.

(** The server's side of the handshake: the socket opens, the connection
    is acknowledged with its id, the channel is attached twice. *)
Definition handshake (cid : string) : list event :=
  [SocketState "open" 1;
   SocketMessage 1 (mkProtocol 4 cid []);
   SocketMessage 1 (mkProtocol 11 "" []);
   SocketMessage 1 (mkProtocol 11 "" [])].

(** How often [callback] is registered for [type], and how often it is
    called in a list of effects. *)
Definition registrations (type : string) (cb : nat) (this : t) : nat :=
  List.length
    (filter (fun h => String.eqb (fst h) type && Nat.eqb (snd h) cb)
       (handlers this)).

Definition calls_of (cb : nat) (effs : list effect) : nat :=
  List.length
    (filter (fun e => match e with
                      | Call c _ _ _ => Nat.eqb c cb
                      | _ => false
                      end) effs).

(** The frames the wrapper is allowed to write. *)
Definition is_attach (e : effect) : Prop :=
  match e with
  | WsSend f => f = msgJoin \/ f = msgFlags
  | _ => True
  end.

(** The state [close()] leaves behind. *)
Definition closed (this : t) : t :=
  mk false 0 (connectionId this) [] None false.

(** The gate: [readyState] is 1 only once the flags were sent, and the
    flags were sent only by writing them. *)
Definition gate (this : t) (history : list effect) : Prop :=
  (readyState this = Some 1 -> sentFlags this = true) /\
  (sentFlags this = true -> In (WsSend msgFlags) history).

Definition is_client_call (e : event) : bool :=
  match e with
  | SocketState _ _ | SocketMessage _ _ => false
  | _ => true
  end.

End Ably.

(** ** Sample states, transports and meshes *)

Definition state_s0 : NextState.t := NextState.mk (VStr "s0") 3 (1 # 2).

(** A proposal made from [state_s0] with the ticket 3/4. *)
Definition proposal_s1 : NextState.proposal :=
  NextState.propose state_s0 (3 # 4) (VStr "s1").

(** A connection in the stable state that refuses the ICE candidate. *)
Definition stable_transport : PeerConnection.transport :=
  PeerConnection.mkTransport PeerConnection.stable true true false
    (PeerConnection.mkDescription PeerConnection.answer "v=0").

Definition mesh_idle : Mesh.t := Mesh.mk group_joining None [].

Definition mesh_online : Mesh.t :=
  Mesh.mk group_joining (Some Mesh.SOCKET_OPEN) [].

(** One [negotiate] call: an offer for [id_a]. *)
Definition sample_calls : list Mesh.call :=
  [(VStr id_a, None, Some sample_offer)].

(** * Properties *)

(** ** Values *)

Lemma value_eqb_spec (a b : value) : reflect (a = b) (value_eqb a b).
Proof.
  destruct a as [| |s], b as [| |s']; simpl; try (constructor; congruence).
  destruct (String.eqb_spec s s'); constructor; congruence.
Qed.

Lemma value_eqb_refl (a : value) : value_eqb a a = true.
Proof. destruct (value_eqb_spec a a); congruence. Qed.

Lemma value_eqb_eq (a b : value) : value_eqb a b = true <-> a = b.
Proof. destruct (value_eqb_spec a b); split; congruence. Qed.

Lemma value_eqb_neq (a b : value) : value_eqb a b = false <-> a <> b.
Proof. destruct (value_eqb_spec a b); split; congruence. Qed.

Lemma value_eqb_sym (a b : value) : value_eqb a b = value_eqb b a.
Proof.
  destruct (value_eqb_spec a b), (value_eqb_spec b a); congruence.
Qed.

Lemma Qgtb_true_iff (a b : Q) : Qgtb a b = true <-> (b < a)%Q.
Proof.
  unfold Qgtb. rewrite negb_true_iff, <- not_true_iff_false, Qle_bool_iff.
  split; [apply Qnot_le_lt | apply Qlt_not_le].
Qed.

Lemma Qgtb_irrefl (a : Q) : Qgtb a a = false.
Proof.
  destruct (Qgtb a a) eqn:E; [|reflexivity].
  apply Qgtb_true_iff in E. exfalso. exact (Qlt_irrefl a E).
Qed.

(** ** Doubles *)

Section DoubleFacts.
Import Double.

Lemma nearest_even_bound (s : Q) :
  (s - (1 # 2) <= inject_Z (nearest_even s) <= s + (1 # 2))%Q.
Proof.
  unfold nearest_even.
  pose proof (Qfloor_le s) as Hlo. pose proof (Qlt_floor s) as Hhi.
  rewrite inject_Z_plus in Hhi. change (inject_Z 1) with 1%Q in Hhi.
  destruct (Qcompare_spec (s - inject_Z (Qfloor s)) (1 # 2)) as [E|L|G].
  - destruct (Z.even (Qfloor s));
      [|rewrite inject_Z_plus; change (inject_Z 1) with 1%Q]; lra.
  - lra.
  - rewrite inject_Z_plus. change (inject_Z 1) with 1%Q. lra.
Qed.

Lemma nearest_even_nonneg (s : Q) : (0 <= s)%Q -> 0 <= nearest_even s.
Proof.
  intros Hs.
  assert (H0 : 0 <= Qfloor s).
  { change 0 with (Qfloor (inject_Z 0)). rewrite <- (Qfloor_Z 0) at 1.
    rewrite (Qfloor_Z 0). apply Qfloor_resp_le. exact Hs. }
  unfold nearest_even.
  destruct (s - inject_Z (Qfloor s) ?= 1 # 2)%Q; [|lia|lia].
  destruct (Z.even (Qfloor s)); lia.
Qed.

Lemma nearest_even_int (s : Q) (m : Z) :
  (s == inject_Z m)%Q -> nearest_even s = m.
Proof.
  intros E. unfold nearest_even.
  assert (Hf : Qfloor s = m) by (rewrite E; apply Qfloor_Z).
  rewrite Hf.
  destruct (Qcompare_spec (s - inject_Z m) (1 # 2)) as [H|H|H];
    [lra|reflexivity|lra].
Qed.

Lemma two_pow_inject (n : Z) : 0 <= n -> (2 ^ n == inject_Z (2 ^ n))%Q.
Proof. intros Hn. symmetry. now apply (Zpower_Qpower 2 n). Qed.

Lemma ilog2_spec (x : Q) : (0 < x)%Q -> (2 ^ ilog2 x <= x)%Q.
Proof.
  intros Hx. unfold ilog2.
  destruct x as [a b]. simpl Qnum. simpl Qden.
  assert (Ha : 0 < a) by (unfold Qlt in Hx; simpl in Hx; lia).
  set (la := Z.log2 a). set (lb := Z.log2 (Z.pos b)).
  destruct (Qle_bool (2 ^ (la - lb))%Q (a # b)) eqn:E;
    [now apply Qle_bool_iff|].
  clear E.
  destruct (Z.log2_spec a Ha) as [Hla _].
  destruct (Z.log2_spec (Z.pos b) eq_refl) as [_ Hlb].
  fold la in Hla. fold lb in Hlb.
  assert (Hla0 : 0 <= la) by apply Z.log2_nonneg.
  assert (Hlb0 : 0 <= lb) by apply Z.log2_nonneg.
  replace (la - lb - 1) with (la - (lb + 1)) by lia.
  rewrite Qpower_minus by (intros H; discriminate H).
  rewrite (two_pow_inject Hla0), (@two_pow_inject (lb + 1)) by lia.
  rewrite (Qmake_Qdiv a b).
  assert (H1 : (inject_Z (2 ^ la) <= inject_Z a)%Q) by now rewrite <- Zle_Qle.
  assert (H2 : (inject_Z (Z.pos b) <= inject_Z (2 ^ (lb + 1)))%Q).
  { rewrite <- Zle_Qle. rewrite Z.add_1_r. lia. }
  assert (H3 : (0 < inject_Z (Z.pos b))%Q) by (rewrite <- (Zlt_Qlt 0); lia).
  assert (H4 : (0 < inject_Z (2 ^ la))%Q).
  { rewrite <- (Zlt_Qlt 0). apply Z.pow_pos_nonneg; lia. }
  assert (H5 : (0 < inject_Z (2 ^ (lb + 1)))%Q) by lra.
  apply Qle_shift_div_l; [assumption|].
  setoid_replace (inject_Z (2 ^ la) / inject_Z (2 ^ (lb + 1))
                  * inject_Z (Z.pos b))%Q
    with (inject_Z (2 ^ la) * inject_Z (Z.pos b)
          / inject_Z (2 ^ (lb + 1)))%Q
    by (field; lra).
  apply Qle_shift_div_r; [assumption|]. nra.
Qed.

Lemma ulp_pos (x : Q) : (0 < ulp x)%Q.
Proof. unfold ulp. apply Qpower_0_lt. reflexivity. Qed.
(** Known roundings: the double written [0.3333333333333333], the sum
    [0.1 + 0.2 = 0.30000000000000004], the ties to even around [2 ^ 53],
    and the product that reaches 1. *)
Example round_examples :
  (round (1 # 3) == third)%Q /\
  (add (round (1 # 10)) (round (2 # 10))
   == 5404319552844596 # 18014398509481984)%Q /\
  (round (inject_Z (2 ^ 53 + 1)) == inject_Z (2 ^ 53))%Q /\
  (round (inject_Z (2 ^ 53 + 3)) == inject_Z (2 ^ 53 + 4))%Q /\
  (mul third 3 == 1)%Q.
Proof. repeat split; vm_compute; reflexivity. Qed.

Lemma round_nonneg (x : Q) : (0 <= x)%Q -> (0 <= round x)%Q.
Proof.
  intros Hx. unfold round.
  destruct (Qcompare_spec x 0) as [E|L|G]; [lra|lra|].
  pose proof (ulp_pos x) as Hu.
  assert (Hs : (0 <= x / ulp x)%Q) by (apply Qle_shift_div_l; lra).
  apply nearest_even_nonneg in Hs. rewrite (Zle_Qle 0) in Hs.
  change (inject_Z 0) with 0%Q in Hs. nra.
Qed.

(** Rounding moves a positive number by at most half a unit in its last
    place. *)
Lemma round_near (x : Q) :
  (0 < x)%Q -> (round x <= x + ulp x / 2)%Q.
Proof.
  intros Hx. unfold round.
  destruct (Qcompare_spec x 0) as [E|L|G]; [lra|lra|].
  pose proof (ulp_pos x) as Hu.
  destruct (nearest_even_bound (x / ulp x)) as [_ Hhi].
  setoid_replace (x + ulp x / 2)%Q
    with ((x / ulp x + (1 # 2)) * ulp x)%Q by (field; lra).
  apply Qmult_le_compat_r; lra.
Qed.

(** The exponent of a positive number below [n >= 1] is below [n]. *)
Lemma exponent_below (p : Q) (n : Z) :
  (0 < p)%Q -> (p < inject_Z n)%Q -> 1 <= n ->
  (2 ^ Z.max (ilog2 p) (-1022) < inject_Z n)%Q.
Proof.
  intros Hp Hpn Hn.
  destruct (Z.max_spec (ilog2 p) (-1022)) as [[_ ->]|[_ ->]].
  - apply Qlt_le_trans with 1%Q.
    + change 1%Q with (2 ^ 0)%Q. apply Qpower_lt_compat_l; [lia|lra].
    + rewrite (Zle_Qle 1) in Hn. exact Hn.
  - apply Qle_lt_trans with p; [now apply ilog2_spec|assumption].
Qed.

(** [Math.floor(x * n)] for a number [x] that is at most the largest
    double below 1 and an integer [n >= 1]: the rounded product stays
    below [n]. *)
Lemma floor_mul_below (x : Q) (n : Z) :
  (0 <= x <= 1 - (1 # 9007199254740992))%Q -> 1 <= n ->
  0 <= Qfloor (mul x (inject_Z n)) <= n - 1.
Proof.
  intros [Hx0 Hx1] Hn. unfold mul.
  set (p := (x * inject_Z n)%Q).
  assert (Hn1 : (1 <= inject_Z n)%Q) by (rewrite (Zle_Qle 1) in Hn; exact Hn).
  assert (Hp0 : (0 <= p)%Q) by (unfold p; nra).
  assert (Hp1 : (p <= inject_Z n - inject_Z n * (1 # 9007199254740992))%Q)
    by (unfold p; nra).
  split.
  - change 0 with (Qfloor (inject_Z 0)) at 1. rewrite (Qfloor_Z 0) at 1.
    rewrite <- (Qfloor_Z 0). apply Qfloor_resp_le. now apply round_nonneg.
  - assert (Hlt : (round p < inject_Z n)%Q).
    { destruct (Qle_lt_or_eq _ _ Hp0) as [Hpos|Hz].
      - pose proof (round_near Hpos) as Hr.
        assert (Hpn : (p < inject_Z n)%Q) by lra.
        pose proof (exponent_below Hpos Hpn Hn) as He.
        unfold ulp in Hr.
        rewrite Qpower_minus in Hr by (intros H; discriminate H).
        set (t := (2 ^ Z.max (ilog2 p) (-1022))%Q) in *.
        change (2 ^ 52)%Q with (4503599627370496 # 1)%Q in Hr.
        assert (Ht : (t / (4503599627370496 # 1) / 2
                      < inject_Z n * (1 # 9007199254740992))%Q).
        { setoid_replace (t / (4503599627370496 # 1) / 2)%Q
            with (t * (1 # 9007199254740992))%Q by (field; lra).
          apply Qmult_lt_compat_r; [reflexivity|assumption]. }
        lra.
      - assert (E : round p = 0%Q).
        { unfold round.
          destruct (Qcompare_spec p 0) as [_|L|G]; [reflexivity|lra|lra]. }
        rewrite E. lra. }
    pose proof (Qfloor_le (round p)) as Hf.
    assert (H : (inject_Z (Qfloor (round p)) < inject_Z n)%Q) by lra.
    rewrite <- Zlt_Qlt in H. lia.
Qed.

Lemma unit_double_below (x : Q) :
  unit_double x -> (0 <= x <= 1 - (1 # 9007199254740992))%Q.
Proof.
  intros (m & k & [Hm0 Hm] & [Hk0 Hk] & Hmk & E).
  assert (HP : 0 < 2 ^ k) by (apply Z.pow_pos_nonneg; lia).
  set (P := 2 ^ k) in *.
  assert (HPq : (0 < inject_Z P)%Q) by (rewrite <- (Zlt_Qlt 0); exact HP).
  rewrite E. split.
  - apply Qle_shift_div_l; [assumption|].
    rewrite Qmult_0_l. rewrite <- (Zle_Qle 0). exact Hm0.
  - apply Qle_shift_div_r; [assumption|].
    assert (Hz : m * 9007199254740992 <= 9007199254740991 * P).
    { change (2 ^ 53) with 9007199254740992 in Hm.
      destruct (Z_le_gt_dec P 9007199254740992); nia. }
    rewrite Zle_Qle in Hz. rewrite !inject_Z_mult in Hz.
    change (inject_Z 9007199254740992) with (9007199254740992 # 1)%Q in Hz.
    change (inject_Z 9007199254740991) with (9007199254740991 # 1)%Q in Hz.
    lra.
Qed.

(** Integers of magnitude up to [2 ^ 53] are doubles. *)
Lemma round_small_pos (z : Z) :
  0 < z < 2 ^ 53 -> (round (inject_Z z) == inject_Z z)%Q.
Proof.
  intros [Hz0 Hz]. unfold round.
  assert (Hq : (0 < inject_Z z)%Q) by (rewrite <- (Zlt_Qlt 0); exact Hz0).
  destruct (Qcompare_spec (inject_Z z) 0) as [E|L|_]; [lra|lra|].
  destruct (Z.log2_spec z Hz0) as [Hlo Hhi].
  assert (Hl0 : 0 <= Z.log2 z) by apply Z.log2_nonneg.
  assert (Hl : Z.log2 z <= 52).
  { apply Z.log2_lt_pow2 in Hz; lia. }
  assert (Hlog : ilog2 (inject_Z z) = Z.log2 z).
  { assert (H : Qle_bool (2 ^ Z.log2 z)%Q (inject_Z z) = true).
    { apply Qle_bool_iff. rewrite (two_pow_inject Hl0).
      now rewrite <- Zle_Qle. }
    unfold ilog2, inject_Z in *. cbn [Qnum Qden].
    change (Z.log2 (Z.pos 1)) with 0. rewrite Z.sub_0_r. now rewrite H. }
  unfold ulp. rewrite Hlog, Z.max_l by lia.
  set (l := Z.log2 z) in *.
  assert (Hu : (2 ^ (l - 52) == / inject_Z (2 ^ (52 - l)))%Q).
  { replace (l - 52) with (- (52 - l)) by lia.
    rewrite Qpower_opp. now rewrite two_pow_inject by lia. }
  assert (Hpos : (0 < inject_Z (2 ^ (52 - l)))%Q).
  { rewrite <- (Zlt_Qlt 0). apply Z.pow_pos_nonneg; lia. }
  assert (Hs : (inject_Z z / 2 ^ (l - 52)
                == inject_Z (z * 2 ^ (52 - l)))%Q).
  { rewrite Hu, inject_Z_mult. field. lra. }
  rewrite (nearest_even_int Hs), Hu, inject_Z_mult. field. lra.
Qed.

Lemma round_safe (z : Z) :
  - 2 ^ 53 <= z <= 2 ^ 53 -> Qfloor (round (inject_Z z)) = z.
Proof.
  intros Hz.
  assert (Hpos : forall y, 0 < y <= 2 ^ 53 ->
            (round (inject_Z y) == inject_Z y)%Q).
  { intros y Hy. destruct (Z.eq_dec y (2 ^ 53)) as [->|Hne].
    - vm_compute. reflexivity.
    - apply round_small_pos. lia. }
  destruct (Z.lt_trichotomy z 0) as [Hneg|[->|Hp]].
  - assert (E : (round (inject_Z z) == inject_Z z)%Q).
    { unfold round.
      assert (Hq : (inject_Z z < 0)%Q)
        by (change 0%Q with (inject_Z 0); rewrite <- Zlt_Qlt; exact Hneg).
      destruct (Qcompare_spec (inject_Z z) 0) as [E|_|G]; [lra| |lra].
      assert (Hy : 0 < - z <= 2 ^ 53) by lia.
      specialize (Hpos (- z) Hy). unfold round in Hpos.
      assert (Hq' : (0 < inject_Z (- z))%Q)
        by (rewrite <- (Zlt_Qlt 0); lia).
      destruct (Qcompare_spec (inject_Z (- z)) 0) as [E|L|_]; [lra|lra|].
      rewrite inject_Z_opp in Hpos.
      rewrite Hpos. ring. }
    rewrite E. apply Qfloor_Z.
  - reflexivity.
  - rewrite (Hpos z) by lia. apply Qfloor_Z.
Qed.

End DoubleFacts.

(** ** NextState *)

Section NextStateFacts.
Import NextState.

(** On a safe integer, [time + 1] is the successor. *)
Lemma plus_one_safe (clock : Z) :
  Double.is_safe clock -> plus_one clock = clock + 1.
Proof.
  intros [Hlo Hhi]. unfold plus_one, Double.add.
  replace (inject_Z clock + 1)%Q with (inject_Z (clock + 1)).
  - apply round_safe. lia.
  - unfold Qplus, inject_Z. simpl. f_equal. lia.
Qed.




(** C9, as the code has it. A peer that advanced into its own proposal
    for [X] rejects the echo of that proposal; the code is CONFIRM when
    [X] is neither [null] nor [undefined], and ROCK when it is, because
    the constructor stores [''] in place of a nullish state. *)
Theorem echo_own_proposal (S : NextState.t) (draw : Q) (X : value) :
  let p := propose S draw X in
  (X <> VNull -> X <> VUndefined ->
     evaluate (advance S p) p = mkResult false CONFIRM) /\
  (X = VNull \/ X = VUndefined ->
     evaluate (advance S p) p = mkResult false ROCK).
Proof.
  unfold evaluate, advance, propose, new.
  cbn [time state lottery p_time p_next p_state p_lottery].
  destruct (Z.gtb_spec (plus_one (time S)) (plus_one (time S))); [lia|].
  rewrite Z.eqb_refl, Qgtb_irrefl.
  split.
  - intros Hn Hu. destruct X; try congruence. simpl.
    rewrite String.eqb_refl. reflexivity.
  - intros [-> | ->]; reflexivity.
Qed.

Lemma echo_own_proposal_witness :
  let S := NextState.mk (VStr "table") 4 (1 # 3) in
  let p := propose S (2 # 3) (VStr "deal") in
  evaluate (advance S p) p = mkResult false CONFIRM.
Proof.
  intros S p.
  apply (proj1 (echo_own_proposal S (2 # 3) (VStr "deal")));
    discriminate.
Defined.

(** C9 as stated fails for [X = null]: the echo is answered ROCK. *)
Lemma echo_null_is_rock :
  let S := NextState.mk (VStr "table") 4 (1 # 3) in
  let p := propose S (2 # 3) VNull in
  evaluate (advance S p) p = mkResult false ROCK /\
  rcode (evaluate (advance S p) p) <> CONFIRM.
Proof. split; [vm_compute; reflexivity | vm_compute; discriminate]. Qed.

End NextStateFacts.

(** ** Maps and sets *)

Section JsMapFacts.
Variable V : Type.
Implicit Types (m : JsMap.t V) (k : value) (v : V).

Lemma get_set_same k v m : JsMap.get k (JsMap.set k v m) = Some v.
Proof.
  induction m as [|[k' v'] m IH]; simpl.
  - now rewrite value_eqb_refl.
  - destruct (value_eqb k k') eqn:E; simpl; rewrite E; auto.
Qed.

Lemma get_set_other k k' v m :
  k <> k' -> JsMap.get k' (JsMap.set k v m) = JsMap.get k' m.
Proof.
  intros Hne. induction m as [|[k0 v0] m IH]; simpl.
  - destruct (value_eqb_spec k' k); congruence.
  - destruct (value_eqb_spec k k0) as [<-|]; simpl.
    + destruct (value_eqb_spec k' k); congruence.
    + now rewrite IH.
Qed.

Lemma get_set k k' v m :
  JsMap.get k' (JsMap.set k v m)
  = if value_eqb k k' then Some v else JsMap.get k' m.
Proof.
  destruct (value_eqb_spec k k') as [<-|].
  - apply get_set_same.
  - now apply get_set_other.
Qed.

Lemma set_absent k v m :
  JsMap.get k m = None -> JsMap.set k v m = m ++ [(k, v)].
Proof.
  induction m as [|[k' v'] m IH]; simpl; [reflexivity|].
  destruct (value_eqb k k'); [discriminate|].
  intros H. now rewrite IH.
Qed.

Lemma get_delete k k' m :
  JsMap.get k' (JsMap.delete k m)
  = if value_eqb k k' then None else JsMap.get k' m.
Proof.
  unfold JsMap.delete.
  induction m as [|[k0 v0] m IH]; simpl.
  - now destruct (value_eqb k k').
  - destruct (value_eqb_spec k k0) as [<-|]; simpl.
    + rewrite IH. rewrite (value_eqb_sym k' k).
      now destruct (value_eqb k k').
    + rewrite IH. destruct (value_eqb_spec k' k0) as [->|]; [|reflexivity].
      destruct (value_eqb_spec k k0); congruence.
Qed.

Lemma get_In_keys k v m : JsMap.get k m = Some v -> In k (JsMap.keys m).
Proof.
  induction m as [|[k' v'] m IH]; simpl; [discriminate|].
  destruct (value_eqb_spec k k'); auto.
Qed.

Lemma has_true k m : JsMap.has k m = true <-> JsMap.get k m <> None.
Proof. unfold JsMap.has. destruct (JsMap.get k m); split; congruence. Qed.

Lemma has_false k m : JsMap.has k m = false <-> JsMap.get k m = None.
Proof. unfold JsMap.has. destruct (JsMap.get k m); split; congruence. Qed.

End JsMapFacts.

Lemma get_map_values (A B : Type) (f : A -> B) (k : value) (m : JsMap.t A) :
  JsMap.get k (map (fun e => (fst e, f (snd e))) m)
  = option_map f (JsMap.get k m).
Proof.
  induction m as [|[k' a] m IH]; simpl; [reflexivity|].
  now destruct (value_eqb k k').
Qed.

Lemma set_delete_absent (k : value) (s : JsSet.t) :
  JsSet.has k s = false -> JsSet.delete k s = s.
Proof.
  unfold JsSet.has, JsSet.delete.
  induction s as [|x s IH]; simpl; [reflexivity|].
  destruct (value_eqb k x); simpl; [discriminate|].
  intros H. now rewrite IH.
Qed.

(** ** DivergingGraph: rejected edges *)

Section AddEdgeRejects.
Import DivergingGraph GraphSpec.

(** What a rejected [addEdge] touches. When [target] is known and is not
    a zero-distance path start with a falsy [source], [addEdge] throws the
    split-only error, emits no event and leaves [furthestNode] and every
    existing entry alone; but [source] has already been handled: a known
    [source] has left the heads, an unknown one has been appended as a new
    path start and has consumed one tick of the arrival counter. When
    [source] is known and is not a head, nothing has changed. *)
Theorem addEdge_rejects (fuel : nat) (source target data : value) (g : t)
    (cur : info) :
  JsMap.get target (nodeInfo g) = Some cur ->
  truthy (DivergingGraph.source cur) = true \/ distance cur <> 0 ->
  addEdge fuel source target data g
    = (Throw (Thrown split_only), enter_source source g, []) /\
  furthestNode (enter_source source g) = furthestNode g /\
  (forall k j, JsMap.get k (nodeInfo g) = Some j ->
     JsMap.get k (nodeInfo (enter_source source g)) = Some j) /\
  (JsMap.has source (nodeInfo g) = true ->
   enter_source source g = with_heads (JsSet.delete source (heads g)) g) /\
  (JsMap.has source (nodeInfo g) = true ->
   JsSet.has source (heads g) = false ->
   enter_source source g = g) /\
  (JsMap.has source (nodeInfo g) = false ->
   enter_source source g
   = mk (nodeInfo g ++ [(source, mkInfo VNull 0 (counter g) VUndefined)])
        (heads g) (furthestNode g) (counter g + 1)).
Proof.
  intros Hcur Hbad.
  assert (Hthrow : truthy (DivergingGraph.source cur)
                   || negb (distance cur =? 0) = true).
  { destruct Hbad as [->|Hd]; [reflexivity|].
    apply orb_true_iff. right.
    destruct (Z.eqb_spec (distance cur) 0); [contradiction|reflexivity]. }
  unfold addEdge, enter_source.
  destruct (JsMap.has source (nodeInfo g)) eqn:Hs.
  - apply has_true in Hs. simpl.
    destruct (JsMap.get source (nodeInfo g)) as [si|] eqn:Hsi; [|congruence].
    rewrite Hcur, Hthrow.
    repeat split; auto; [|discriminate].
    intros _ Hh. rewrite set_delete_absent by assumption.
    unfold with_heads. now destruct g.
  - apply has_false in Hs. simpl.
    rewrite get_set_same.
    assert (Hne : source <> target) by congruence.
    rewrite get_set_other by assumption.
    rewrite Hcur, Hthrow.
    repeat split; auto; try discriminate.
    + intros k j Hk. rewrite get_set_other; [assumption|congruence].
    + now rewrite set_absent.
Qed.

Lemma addEdge_rejects_witness :
  let g := snd (run 0 [AddEdge C_ D_ VUndefined] new) in
  addEdge 0 C_ D_ VUndefined g
  = (Throw (Thrown split_only), enter_source C_ g, []).
Proof.
  intros g.
  apply (@addEdge_rejects 0 C_ D_ VUndefined g (mkInfo C_ 1 2 VUndefined)).
  - reflexivity.
  - left. reflexivity.
Defined.

(** The two ways in which the rejected call has changed the graph: after
    [C -> D], the rejected [addEdge(X, D)] has entered [X] into [nodeInfo]
    and advanced the arrival counter; after [A -> B] and [C -> D], the
    rejected [addEdge(B, D)] has taken [B] out of the heads. *)
Lemma addEdge_rejects_after_mutating :
  let g := snd (run 0 [AddEdge C_ D_ VUndefined] new) in
  let r := addEdge 0 X_ D_ VUndefined g in
  let g2 := snd (run 0 [AddEdge A_ B_ VUndefined; AddEdge C_ D_ VUndefined]
                   new) in
  let r2 := addEdge 0 B_ D_ VUndefined g2 in
  fst (fst r) = Throw (Thrown split_only) /\
  JsMap.get X_ (nodeInfo g) = None /\
  JsMap.get X_ (nodeInfo (snd (fst r))) = Some (mkInfo VNull 0 3 VUndefined) /\
  counter g = 3 /\ counter (snd (fst r)) = 4 /\
  fst (fst r2) = Throw (Thrown split_only) /\
  heads g2 = [B_; D_] /\ heads (snd (fst r2)) = [D_].
Proof. repeat split. Qed.

(** C2. The rejected call is not free of effects, and the graph is wrong
    afterwards. After [A -> B] and [C -> D], [addEdge('B', 'D')] throws
    the split-only error with [nodeInfo] untouched, but [B], which has no
    outgoing edge, has left the heads. The graft [Z -> A] that follows
    returns normally; it walks the heads that are left, so it raises [A]
    to distance 1 and leaves [B], the node after [A], at distance 1 too,
    and [furthestNode] becomes [A], a node with an outgoing edge. Without
    the rejected call the same graft raises [B] to distance 2 and keeps it
    the furthest node. *)
Theorem addEdge_rejection_corrupts_heads :
  let g :=
    snd (run 5 [AddEdge A_ B_ VUndefined; AddEdge C_ D_ VUndefined] new) in
  let rejected := addEdge 5 B_ D_ VUndefined g in
  let g1 := snd (fst rejected) in
  let after := snd (fst (addEdge 5 Z_ A_ VUndefined g1)) in
  let clean := snd (fst (addEdge 5 Z_ A_ VUndefined g)) in
  fst (fst rejected) = Throw (Thrown split_only) /\
  nodeInfo g1 = nodeInfo g /\
  heads g = [B_; D_] /\ heads g1 = [D_] /\
  has_outgoing (nodeInfo g1) B_ = false /\
  fst (fst (addEdge 5 Z_ A_ VUndefined g1)) = Normal /\
  option_map distance (JsMap.get A_ (nodeInfo after)) = Some 1 /\
  option_map DivergingGraph.source (JsMap.get B_ (nodeInfo after))
  = Some A_ /\
  option_map distance (JsMap.get B_ (nodeInfo after)) = Some 1 /\
  furthestNode after = A_ /\
  has_outgoing (nodeInfo after) A_ = true /\
  option_map distance (JsMap.get B_ (nodeInfo clean)) = Some 2 /\
  furthestNode clean = B_.
Proof. cbv zeta. repeat split. Qed.

End AddEdgeRejects.

(** ** DivergingGraph: prune *)

Section PruneFacts.
Import DivergingGraph GraphSpec.

Lemma prune_state_unchanged (fuel : nat) (maxSize : Z) (g : t) :
  (maxSize <? size g) = false ->
  snd (fst (prune fuel maxSize g)) = g /\ snd (prune fuel maxSize g) = [].
Proof.
  intros Hk. unfold prune.
  destruct (JsMap.get VNull (nodeInfo g)) as [r|]; [|split; reflexivity].
  destruct (score_heads fuel (nodeInfo g) (heads g) _) as [[| |] scores];
    rewrite ?Hk; split; reflexivity.
Qed.

Lemma walk_anchored (V : Type) (ni : JsMap.t info) (seen : JsMap.t V)
    (n : value) (d : nat) :
  anchored ni n d ->
  JsMap.get VNull seen <> None ->
  forall fuel path,
    (d <= fuel)%nat ->
    (forall x, In x path -> JsMap.get x ni <> None) ->
    exists v path',
      walk fuel ni seen n path = Found v path' /\
      (forall x, In x path' -> JsMap.get x ni <> None).
Proof.
  intros Hanc Hroot.
  induction Hanc as [|n i d Hn Hanc IH]; intros fuel path Hfuel Hpath.
  - destruct (JsMap.get VNull seen) as [v|] eqn:E; [|congruence].
    exists v, path. destruct fuel; simpl; rewrite E; auto.
  - destruct fuel as [|fuel]; [lia|]. simpl.
    destruct (JsMap.get n seen) as [v|]; [now exists v, path|].
    rewrite Hn. apply IH; [lia|].
    intros x Hx. apply in_app_or in Hx as [Hx|[<-|[]]]; [auto|congruence].
Qed.

Lemma score_path_normal (ni : JsMap.t info) (path : list value) :
  (forall x, In x path -> JsMap.get x ni <> None) ->
  forall score scores,
    JsMap.get VNull scores <> None ->
    exists scores',
      score_path ni path score scores = (Normal, scores') /\
      JsMap.get VNull scores' <> None.
Proof.
  induction path as [|n path IH]; intros Hpath score scores Hroot; simpl.
  - now exists scores.
  - destruct (JsMap.get n ni) as [i|] eqn:Hn.
    + apply IH; [intros x Hx; apply Hpath; now right|].
      rewrite get_set. destruct (value_eqb n VNull); congruence.
    + exfalso. apply (Hpath n); [now left|assumption].
Qed.

Lemma score_heads_normal (ni : JsMap.t info) (fuel : nat) (hs : list value) :
  (forall h, In h hs -> exists d, anchored ni h d /\ (d <= fuel)%nat) ->
  forall scores,
    JsMap.get VNull scores <> None ->
    exists scores', score_heads fuel ni hs scores = (Normal, scores').
Proof.
  induction hs as [|h hs IH]; intros Hhs scores Hroot; simpl.
  - now exists scores.
  - destruct (Hhs h (or_introl eq_refl)) as (d & Hanc & Hd).
    destruct (@walk_anchored _ ni scores h d Hanc Hroot fuel [] Hd)
      as (v & path' & -> & Hpath'); [intros x []|].
    assert (Hrev : forall x, In x (rev path') -> JsMap.get x ni <> None)
      by (intros x Hx; apply Hpath'; now apply in_rev).
    destruct (@score_path_normal ni (rev path') Hrev v scores Hroot) as (scores' & -> & Hroot').
    apply IH; [intros h' Hh'; apply Hhs; now right|assumption].
Qed.

Lemma anchored_bound (ni : JsMap.t info) (hs : list value) :
  (forall h, In h hs -> exists d, anchored ni h d) ->
  exists fuel,
    forall h, In h hs -> exists d, anchored ni h d /\ (d <= fuel)%nat.
Proof.
  induction hs as [|h hs IH]; intros Hhs.
  - exists O. intros h [].
  - destruct IH as (f & Hf); [intros h' Hh'; apply Hhs; now right|].
    destruct (Hhs h (or_introl eq_refl)) as (d & Hd).
    exists (Nat.max d f). intros h' [<-|Hh'].
    + exists d. split; [assumption|lia].
    + destruct (Hf h' Hh') as (d' & Hd' & Hle).
      exists d'. split; [assumption|lia].
Qed.

(** C10. With [maxSize] at least the size, [prune] changes nothing that
    can be observed: whatever the walk over the heads does, [nodeInfo],
    [heads], [furthestNode] and the counter are the ones before the call
    and no ['advance'] event is emitted. When the sentinel is there and
    the chain of sources of every head reaches it, the call returns
    normally. *)
Theorem prune_noop (maxSize : Z) (g : t) :
  size g <= maxSize ->
  (forall fuel,
     snd (fst (prune fuel maxSize g)) = g /\
     snd (prune fuel maxSize g) = []) /\
  (has_root g ->
   (forall h, In h (heads g) -> exists d, anchored (nodeInfo g) h d) ->
   exists fuel, prune fuel maxSize g = (Normal, g, [])).
Proof.
  intros Hk.
  assert (Hlt : (maxSize <? size g) = false)
    by (destruct (Z.ltb_spec maxSize (size g)); [lia|reflexivity]).
  split.
  - intros fuel. now apply prune_state_unchanged.
  - intros [r Hr] Hheads.
    destruct (anchored_bound _ Hheads) as (fuel & Hfuel).
    exists fuel. unfold prune. rewrite Hr.
    assert (H0 : JsMap.get VNull [(VNull, distance r + _t r)] <> None)
      by discriminate.
    destruct (@score_heads_normal _ _ _ Hfuel _ H0) as (scores' & ->).
    now rewrite Hlt.
Qed.

Lemma prune_noop_witness :
  prune 2 2 graph_AB = (Normal, graph_AB, []) /\
  snd (fst (prune 0 2 graph_AB)) = graph_AB.
Proof.
  split.
  - reflexivity.
  - apply (@prune_noop 2 graph_AB). vm_compute. discriminate.
Defined.

(** With [maxSize] below the size, [prune] never returns normally: the
    assignment to its [const nodeInfo] throws. *)
Lemma prune_below_size_fails (fuel : nat) (maxSize : Z) (g : t) :
  maxSize < size g -> fst (fst (prune fuel maxSize g)) <> Normal.
Proof.
  intros Hk. unfold prune.
  destruct (JsMap.get VNull (nodeInfo g)) as [r|]; [|discriminate].
  destruct (score_heads fuel (nodeInfo g) (heads g) _) as [[| |] scores];
    try discriminate.
  destruct (Z.ltb_spec maxSize (size g)); [discriminate|lia].
Qed.

(** C3 at [addEdge('A', 'B'); prune(1)]. The graph has two nodes; the call
    throws a [TypeError] after it has replaced [nodeInfo] by the sentinel
    and [B], and [B] still names the removed [A] as its [source]. *)
Theorem prune_throws_with_dangling_source :
  size graph_AB = 2 /\
  prune 2 1 graph_AB
  = (Throw TypeError,
     with_nodeInfo [(VNull, root); (B_, mkInfo A_ 1 2 VUndefined)] graph_AB,
     []) /\
  JsMap.get A_ (nodeInfo (snd (fst (prune 2 1 graph_AB)))) = None /\
  ~ sources_closed (nodeInfo (snd (fst (prune 2 1 graph_AB)))).
Proof.
  repeat split.
  intros H.
  destruct (H B_ (mkInfo A_ 1 2 VUndefined)) as [E|E];
    [discriminate|reflexivity|discriminate|apply E; reflexivity].
Qed.

(** C8 at [addEdge('A', 'B'); removeNode('B')]. Both calls return; [heads]
    still holds the removed [B] and misses [A], which is in the graph and
    has no outgoing edge. A [prune] that follows throws on the stale head. *)
Theorem heads_stale_after_removeNode :
  run 0 [AddEdge A_ B_ VUndefined; RemoveNode B_] new
    = (Normal, graph_AB_minus_B) /\
  heads graph_AB_minus_B = [B_] /\
  JsMap.get B_ (nodeInfo graph_AB_minus_B) = None /\
  is_head graph_AB_minus_B A_ /\
  JsSet.has A_ (heads graph_AB_minus_B) = false /\
  ~ heads_exact graph_AB_minus_B /\
  prune 9 9 graph_AB_minus_B = (Throw TypeError, graph_AB_minus_B, []).
Proof.
  assert (HA : is_head graph_AB_minus_B A_)
    by (repeat split; discriminate).
  do 3 (split; [reflexivity|]).
  split; [exact HA|].
  split; [reflexivity|].
  split; [|reflexivity].
  intros H. apply H in HA. discriminate.
Qed.

End PruneFacts.

(** ** DivergingGraph: the furthest node *)

Section FurthestFacts.
Import DivergingGraph GraphSpec.

Lemma not_beaten_refl (i : info) : not_beaten_by i i.
Proof. right. split; [reflexivity|apply Z.le_refl]. Qed.

Lemma not_beaten_trans (a b c : info) :
  not_beaten_by a b -> not_beaten_by b c -> not_beaten_by a c.
Proof. unfold not_beaten_by. lia. Qed.

Lemma not_beaten_same_rank (a a' b b' : info) :
  distance a' = distance a -> _t a' = _t a ->
  distance b' = distance b -> _t b' = _t b ->
  not_beaten_by a b -> not_beaten_by a' b'.
Proof. unfold not_beaten_by. lia. Qed.

Lemma further_spec (ni : JsMap.t info) (a b r : value) :
  further ni a b = Some r ->
  exists ia ib ir,
    JsMap.get a ni = Some ia /\ JsMap.get b ni = Some ib /\
    JsMap.get r ni = Some ir /\
    not_beaten_by ir ia /\ not_beaten_by ir ib.
Proof.
  unfold further.
  destruct (JsMap.get a ni) as [ia|] eqn:Ha; [|discriminate].
  destruct (JsMap.get b ni) as [ib|] eqn:Hb; [|discriminate].
  intros H. exists ia, ib.
  destruct (Z.gtb_spec (distance ia) (distance ib)).
  { injection H as <-. exists ia. unfold not_beaten_by. repeat split; auto; lia. }
  destruct (Z.ltb_spec (distance ia) (distance ib)).
  { injection H as <-. exists ib. unfold not_beaten_by. repeat split; auto; lia. }
  destruct (Z.ltb_spec (_t ia) (_t ib)).
  - injection H as <-. exists ia. unfold not_beaten_by. repeat split; auto; lia.
  - injection H as <-. exists ib. unfold not_beaten_by. repeat split; auto; lia.
Qed.

Lemma reduce_further_spec (ni : JsMap.t info) (l : list value) :
  forall (a r : value) (ia : info),
    reduce_further ni l a = Some r ->
    JsMap.get a ni = Some ia ->
    exists ir,
      JsMap.get r ni = Some ir /\ not_beaten_by ir ia /\
      forall b, In b l ->
        exists ib, JsMap.get b ni = Some ib /\ not_beaten_by ir ib.
Proof.
  induction l as [|b l IH]; intros a r ia Hr Ha; simpl in Hr.
  - injection Hr as <-. exists ia.
    repeat split; [assumption|apply not_beaten_refl|intros b []].
  - destruct (further ni a b) as [acc|] eqn:Hf; [|discriminate].
    apply further_spec in Hf
      as (ia' & ib & iacc & Ha' & Hb & Hacc & Hacc_a & Hacc_b).
    rewrite Ha in Ha'. injection Ha' as <-.
    destruct (IH acc r iacc Hr Hacc) as (ir & Hir & Hir_acc & Hall).
    exists ir. repeat split; [assumption| |].
    + eapply not_beaten_trans; eassumption.
    + intros b' [<-|Hb']; [|now apply Hall].
      exists ib. split; [assumption|].
      eapply not_beaten_trans; eassumption.
Qed.

Lemma reduce_further_start (ni : JsMap.t info) (b : value) (l : list value)
    (a r : value) :
  reduce_further ni (b :: l) a = Some r -> JsMap.get a ni <> None.
Proof.
  simpl. unfold further.
  destruct (JsMap.get a ni); [discriminate|].
  discriminate.
Qed.

Lemma set_furthestNode_state (node : value) (g : t) :
  nodeInfo (fst (set_furthestNode node g)) = nodeInfo g /\
  heads (fst (set_furthestNode node g)) = heads g /\
  counter (fst (set_furthestNode node g)) = counter g /\
  furthestNode (fst (set_furthestNode node g)) = node.
Proof.
  unfold set_furthestNode.
  destruct (value_eqb_spec node (furthestNode g)); simpl; auto.
Qed.

(** How [raise_distances] relates the entries before and after. *)
Lemma raise_distances_spec (d : Z) (ns : list value) :
  0 <= d ->
  forall ni ni',
    raise_distances ns d ni = (Normal, ni') ->
    forall k,
      (JsMap.get k ni = None /\ JsMap.get k ni' = None) \/
      (exists j j',
         JsMap.get k ni = Some j /\ JsMap.get k ni' = Some j' /\
         _t j' = _t j /\
         ((~ In k ns /\ j' = j) \/
          (In k ns /\ distance j + d <= distance j'))).
Proof.
  intros Hd.
  induction ns as [|n ns IH]; intros ni ni' Hr k; simpl in Hr.
  - injection Hr as <-.
    destruct (JsMap.get k ni) as [j|]; [right|left; auto].
    exists j, j. repeat split; auto.
  - destruct (JsMap.get n ni) as [i|] eqn:Hn; [|discriminate].
    specialize (IH _ _ Hr k).
    rewrite get_set in IH.
    destruct (value_eqb_spec n k) as [->|Hne].
    + destruct IH as [[E _]|(j & j' & Ej & Ej' & Ht & Hcase)];
        [discriminate|].
      injection Ej as <-. right. exists i, j'.
      repeat split; auto. right. split; [now left|].
      simpl in Hcase. destruct Hcase as [[_ ->]|[_ H]]; simpl; lia.
    + destruct IH as [[E E']|(j & j' & Ej & Ej' & Ht & Hcase)];
        [left; auto|].
      right. exists j, j'. repeat split; auto.
      destruct Hcase as [[Hnin ->]|[Hin H]].
      * left. split; [|reflexivity]. intros [?|?]; congruence.
      * right. split; [now right|assumption].
Qed.

Lemma walk_fresh (V : Type) (ni : JsMap.t info) (seen : JsMap.t V)
    (fuel : nat) :
  forall node path v path',
    walk fuel ni seen node path = Found v path' ->
    (forall x, In x path -> JsMap.get x seen = None) ->
    forall x, In x path' -> JsMap.get x seen = None.
Proof.
  induction fuel as [|fuel IH]; intros node path v path' Hw Hpath; simpl in Hw.
  - destruct (JsMap.get node seen); [|discriminate].
    now injection Hw as _ <-.
  - destruct (JsMap.get node seen) eqn:Hs.
    { now injection Hw as _ <-. }
    destruct (JsMap.get node ni) as [i|]; [|discriminate].
    apply (IH _ _ _ _ Hw).
    intros x Hx. apply in_app_or in Hx as [Hx|[<-|[]]]; auto.
Qed.

Lemma fold_set_other (V : Type) (v : V) (k : value) (path : list value) :
  ~ In k path ->
  forall m : JsMap.t V,
    JsMap.get k (fold_left (fun m n => JsMap.set n v m) path m)
    = JsMap.get k m.
Proof.
  induction path as [|n path IH]; intros Hk m; simpl; [reflexivity|].
  rewrite IH by (intros H; apply Hk; now right).
  apply get_set_other. intros ->. apply Hk. now left.
Qed.

Lemma mark_paths_keeps (fuel : nat) (ni : JsMap.t info) (k : value)
    (b : bool) (hs : list value) :
  forall follows follows',
    mark_paths fuel ni hs follows = (Normal, follows') ->
    JsMap.get k follows = Some b ->
    JsMap.get k follows' = Some b.
Proof.
  induction hs as [|h hs IH]; intros follows follows' Hm Hk; simpl in Hm.
  - now injection Hm as <-.
  - destruct (walk fuel ni follows h []) as [v path|c] eqn:Hw;
      [|injection Hm as E; subst; discriminate || congruence].
    apply (IH _ _ Hm).
    rewrite fold_set_other; [assumption|].
    intros Hin.
    assert (JsMap.get k follows = None)
      by (eapply walk_fresh; [exact Hw|intros x []|exact Hin]).
    congruence.
Qed.

Lemma marked_is_updated (k : value) (m : JsMap.t bool) :
  JsMap.get k m = Some true -> In k (map fst (filter snd m)).
Proof.
  induction m as [|[k' b] m IH]; simpl; [discriminate|].
  destruct (value_eqb_spec k k') as [<-|].
  - intros H. injection H as ->. simpl. now left.
  - intros H. destruct b; simpl; auto.
Qed.

End FurthestFacts.

(** ** DivergingGraph: the furthest node along a run *)

Section FurthestInvariant.
Import DivergingGraph GraphSpec.

Lemma enter_source_spec (s : value) (g : t) :
  furthestNode (enter_source s g) = furthestNode g /\
  (forall k j, JsMap.get k (nodeInfo g) = Some j ->
     JsMap.get k (nodeInfo (enter_source s g)) = Some j) /\
  (forall k j, JsMap.get k (nodeInfo (enter_source s g)) = Some j ->
     JsMap.get k (nodeInfo g) = Some j \/
     (k = s /\ JsMap.get s (nodeInfo g) = None /\
      distance j = 0 /\ _t j = counter g)) /\
  counter g <= counter (enter_source s g) /\
  (JsMap.get s (nodeInfo g) = None ->
     counter (enter_source s g) = counter g + 1).
Proof.
  unfold enter_source.
  destruct (JsMap.has s (nodeInfo g)) eqn:Hs; simpl.
  - apply has_true in Hs. repeat split; auto; try lia. congruence.
  - apply has_false in Hs. repeat split; auto; try lia.
    + intros k j Hk. rewrite get_set_other; [assumption|congruence].
    + intros k j. rewrite get_set.
      destruct (value_eqb_spec s k) as [<-|]; [|auto].
      intros E. injection E as <-. right. auto.
Qed.

Lemma enter_source_in_range (s : value) (g : t) :
  in_range g -> in_range (enter_source s g).
Proof.
  intros Hr k j Hk.
  destruct (enter_source_spec s g) as (_ & _ & Hnew & Hc & Hc').
  destruct (Hnew k j Hk) as [Hold|(-> & Hnone & Hd & Ht)].
  - destruct (Hr k j Hold). lia.
  - rewrite (Hc' Hnone). lia.
Qed.

Lemma addEdge_well_formed (fuel : nat) (s x d : value) (g g' : t)
    (evs : list event) :
  well_formed g ->
  addEdge fuel s x d g = (Normal, g', evs) ->
  well_formed g'.
Proof.
  intros (Hroot & Hrange & Hfur) H.
  unfold addEdge in H.
  destruct (enter_source_spec s g) as (HF1 & Hold & Hnew & Hc & Hc').
  pose proof (enter_source_in_range s Hrange) as Hrange1.
  set (g1 := enter_source s g) in *.
  destruct (JsMap.get s (nodeInfo g1)) as [si|] eqn:Hsi; [|discriminate].
  assert (Htd : 0 <= distance si + 1) by (apply Hrange1 in Hsi; lia).
  destruct Hfur as (fi & HF & Hbest).
  destruct (JsMap.get x (nodeInfo g1)) as [cur|] eqn:Hcur.
  - destruct (truthy (source cur) || negb (distance cur =? 0)) eqn:Helig;
      [discriminate|].
    apply orb_false_iff in Helig as [_ Hzero].
    apply negb_false_iff, Z.eqb_eq in Hzero.
    destruct (mark_paths fuel (nodeInfo g1) (heads g1) _)
      as [[| |] follows] eqn:Hmark; try discriminate.
    destruct (raise_distances _ _ _) as [[| |] ni2] eqn:Hraise;
      try discriminate.
    destruct (reduce_further _ _ _) as [f|] eqn:Hred; [|discriminate].
    pose proof (set_furthestNode_state f (with_nodeInfo ni2 g1)) as HS.
    destruct (set_furthestNode f (with_nodeInfo ni2 g1)) as [g3 evs3].
    simpl in HS. destruct HS as (Hni3 & _ & Hc3 & Hf3).
    destruct (JsMap.get x (nodeInfo g3)) as [ti|] eqn:Hti; [|discriminate].
    injection H as <- _.
    rewrite Hni3 in *.
    pose proof (@raise_distances_spec _ _ Htd _ _ Hraise) as Hrel.
    assert (HF1' : JsMap.get (furthestNode g1) (nodeInfo g1) = Some fi)
      by (rewrite HF1; auto).
    destruct (Hrel (furthestNode g1))
      as [[E _]|(fj & fi2 & E1 & E2 & Ft & Fcase)]; [congruence|].
    rewrite HF1' in E1. injection E1 as <-.
    assert (Hfi2 : not_beaten_by fi2 fi)
      by (unfold not_beaten_by; destruct Fcase as [[_ ->]|[_ ?]]; lia).
    destruct (@reduce_further_spec _ _ _ _ _ Hred E2) as (ir & Hir & Hir_F & Hir_all).
    assert (Hrange2 : forall k j2, JsMap.get k ni2 = Some j2 ->
                        _t j2 < counter g1 /\ -1 <= distance j2).
    { intros k j2 Hk.
      destruct (Hrel k) as [[_ E]|(j1 & j2' & K1 & K2 & Kt & Kcase)];
        [congruence|].
      rewrite Hk in K2. injection K2 as <-.
      destruct (Hrange1 _ _ K1).
      destruct Kcase as [[_ ->]|[_ ?]]; lia. }
    assert (Hdom2 : forall k j2, JsMap.get k ni2 = Some j2 ->
                      not_beaten_by ir j2).
    { intros k j2 Hk.
      destruct (Hrel k) as [[_ E]|(j1 & j2' & K1 & K2 & Kt & Kcase)];
        [congruence|].
      rewrite Hk in K2. injection K2 as <-.
      destruct Kcase as [[Hnin ->]|[Hin _]].
      - destruct (Hnew k j1 K1) as [Hk_old|(-> & Hnone & Hd0 & Ht0)].
        + eapply not_beaten_trans; [exact Hir_F|].
          eapply not_beaten_trans; [exact Hfi2|]. now apply (Hbest k).
        + destruct (Hnew x cur Hcur) as [Hx_old|(-> & _)].
          * pose proof (Hbest x cur Hx_old) as Hb.
            destruct (Hrange _ _ HF) as [Ht _].
            eapply not_beaten_trans; [exact Hir_F|].
            eapply not_beaten_trans; [exact Hfi2|].
            unfold not_beaten_by in *. lia.
          * exfalso. apply Hnin. apply marked_is_updated.
            eapply mark_paths_keeps; [exact Hmark|].
            assert (s <> VNull)
              by (intros ->; destruct Hroot as [r Hr]; congruence).
            unfold JsMap.of_entries. simpl.
            destruct s as [| |str]; [reflexivity|congruence|].
            simpl. now rewrite String.eqb_refl.
      - destruct (Hir_all k Hin) as (ib & Hib & Hb).
        rewrite Hk in Hib. injection Hib as <-. exact Hb. }
    split; [|split].
    + destruct Hroot as [r Hr]. unfold has_root. simpl. rewrite get_set.
      destruct (value_eqb x VNull); [eauto|].
      apply Hold in Hr.
      destruct (Hrel VNull) as [[E _]|(j & j' & _ & E & _)]; [congruence|eauto].
    + intros k j. simpl. rewrite get_set, Hc3.
      destruct (value_eqb_spec x k) as [<-|].
      * intros E. injection E as <-. simpl. now apply (Hrange2 x).
      * apply Hrange2.
    + unfold is_furthest. simpl. rewrite Hf3.
      exists (if value_eqb x f then mkInfo s (distance ti) (_t ti) d else ir).
      split.
      * rewrite get_set. destruct (value_eqb x f); auto.
      * intros k j. rewrite get_set.
        assert (Hrank : forall j2, JsMap.get k ni2 = Some j2 ->
                  not_beaten_by
                    (if value_eqb x f
                     then mkInfo s (distance ti) (_t ti) d else ir) j2).
        { intros j2 Hj2. apply Hdom2 in Hj2.
          destruct (value_eqb_spec x f) as [->|]; [|assumption].
          rewrite Hir in Hti. injection Hti as <-.
          revert Hj2. apply not_beaten_same_rank; reflexivity. }
        destruct (value_eqb_spec x k) as [<-|].
        -- intros E. injection E as <-.
           generalize (Hrank ti Hti).
           apply not_beaten_same_rank; reflexivity.
        -- apply Hrank.
  - simpl in H.
    assert (HF1' : JsMap.get (furthestNode g1) (nodeInfo g1) = Some fi)
      by (rewrite HF1; auto).
    assert (HFx : x <> furthestNode g1) by congruence.
    rewrite get_set_other, HF1' in H by assumption.
    assert (Hent : forall k j,
              JsMap.get k (nodeInfo g1) = Some j ->
              JsMap.get k (nodeInfo g) = Some j \/ distance j < distance si + 1).
    { intros k j Hk. destruct (Hnew k j Hk) as [?|(-> & _)]; [now left|].
      right. rewrite Hsi in Hk. injection Hk as <-. lia. }
    assert (Hroot' : exists r,
              JsMap.get VNull
                (JsMap.set x (mkInfo s (distance si + 1) (counter g1) d)
                   (nodeInfo g1)) = Some r).
    { destruct Hroot as [r Hr]. rewrite get_set.
      destruct (value_eqb x VNull); eauto. }
    assert (Hrange' : forall k j,
              JsMap.get k
                (JsMap.set x (mkInfo s (distance si + 1) (counter g1) d)
                   (nodeInfo g1)) = Some j ->
              _t j < counter g1 + 1 /\ -1 <= distance j).
    { intros k j. rewrite get_set.
      destruct (value_eqb x k).
      - intros E. injection E as <-. simpl. lia.
      - intros E. destruct (Hrange1 _ _ E). lia. }
    destruct (Hrange _ _ HF) as [HtF _].
    destruct (Z.gtb_spec (distance si + 1) (distance fi)) as [Hgt|Hle].
    + match type of H with
      | context [set_furthestNode x ?g2] =>
          pose proof (set_furthestNode_state x g2) as HS;
          destruct (set_furthestNode x g2) as [g3 evs3]
      end.
      simpl in HS. destruct HS as (Hni3 & _ & Hc3 & Hf3).
      injection H as <- _.
      split; [|split].
      * unfold has_root. now rewrite Hni3.
      * intros k j. rewrite Hni3, Hc3. apply Hrange'.
      * unfold is_furthest. rewrite Hni3, Hf3.
        exists (mkInfo s (distance si + 1) (counter g1) d).
        split; [apply get_set_same|].
        intros k j. rewrite get_set.
        destruct (value_eqb x k).
        -- intros E. injection E as <-. apply not_beaten_refl.
        -- intros E. left. simpl.
           destruct (Hent k j E) as [Hk|Hk]; [|assumption].
           apply Hbest in Hk. unfold not_beaten_by in Hk. lia.
    + injection H as <- _.
      split; [|split].
      * exact Hroot'.
      * exact Hrange'.
      * unfold is_furthest. simpl. exists fi.
        split; [rewrite get_set_other; assumption|].
        intros k j. rewrite get_set.
        destruct (value_eqb x k).
        -- intros E. injection E as <-. unfold not_beaten_by. simpl. lia.
        -- intros E. destruct (Hent k j E) as [Hk|Hk].
           ++ now apply (Hbest k).
           ++ left. lia.
Qed.

Lemma removeNode_well_formed (x : value) (g g' : t) (evs : list event) :
  x <> VNull ->
  well_formed g ->
  removeNode x g = (Normal, g', evs) ->
  well_formed g'.
Proof.
  intros Hx (Hroot & Hrange & (fi & HF & Hbest)) H.
  unfold removeNode in H.
  set (ni := map _ (JsMap.delete x (nodeInfo g))) in *.
  pose (clear := fun i : info =>
                   if value_eqb (source i) x then with_source VNull i else i).
  assert (Hrank : forall i, distance (clear i) = distance i /\
                            _t (clear i) = _t i)
    by (intros i; unfold clear; destruct (value_eqb (source i) x); auto).
  assert (Hget : forall k,
            JsMap.get k ni
            = if value_eqb x k then None
              else option_map clear (JsMap.get k (nodeInfo g))).
  { intros k.
    change (JsMap.get k ni)
      with (JsMap.get k (map (fun e => (fst e, clear (snd e)))
                           (JsMap.delete x (nodeInfo g)))).
    rewrite get_map_values, get_delete.
    now destruct (value_eqb x k). }
  assert (Hroot1 : exists r, JsMap.get VNull ni = Some r).
  { destruct Hroot as [r Hr]. rewrite Hget, Hr.
    destruct (value_eqb_spec x VNull); [contradiction|]. simpl. eauto. }
  assert (Hback : forall k j',
            JsMap.get k ni = Some j' ->
            exists j, JsMap.get k (nodeInfo g) = Some j /\
                      distance j' = distance j /\ _t j' = _t j).
  { intros k j'. rewrite Hget.
    destruct (value_eqb x k); [discriminate|].
    destruct (JsMap.get k (nodeInfo g)) as [j|]; [|discriminate].
    simpl. intros E. injection E as <-. exists j.
    destruct (Hrank j). auto. }
  assert (Hrange1 : forall k j,
            JsMap.get k ni = Some j -> _t j < counter g /\ -1 <= distance j).
  { intros k j Hk. destruct (Hback k j Hk) as (j0 & Hj0 & Hd & Ht).
    destruct (Hrange _ _ Hj0). lia. }
  simpl in H.
  destruct (value_eqb_spec x (furthestNode g)) as [HxF|HxF].
  - destruct (reduce_further ni (JsMap.keys ni) _) as [f|] eqn:Hred;
      [|discriminate].
    pose proof (set_furthestNode_state f (with_nodeInfo ni g)) as HS.
    destruct (set_furthestNode f (with_nodeInfo ni g)) as [g2 evs2].
    simpl in HS. destruct HS as (Hni2 & _ & Hc2 & Hf2).
    injection H as <- _.
    split; [|split].
    + unfold has_root. now rewrite Hni2.
    + intros k j. rewrite Hni2, Hc2. apply Hrange1.
    + destruct Hroot1 as [r Hr].
      assert (Hkeys : In VNull (JsMap.keys ni)) by (eapply get_In_keys; eauto).
      destruct (JsMap.keys ni) as [|b l] eqn:Ekeys; [destruct Hkeys|].
      pose proof (reduce_further_start _ _ _ _ Hred) as Hinit.
      destruct (JsMap.get _ ni) as [ia|] eqn:Hia in Hinit; [|congruence].
      destruct (@reduce_further_spec _ _ _ _ _ Hred Hia)
        as (ir & Hir & _ & Hall).
      exists ir. rewrite Hni2, Hf2. split; [assumption|].
      intros k j Hk.
      assert (Hin : In k (b :: l))
        by (rewrite <- Ekeys; eapply get_In_keys; eauto).
      destruct (Hall k Hin) as (ib & Hib & Hb). congruence.
  - injection H as <- _.
    split; [|split]; [exact Hroot1|exact Hrange1|].
    exists (clear fi). simpl. split.
    + rewrite Hget, HF. destruct (value_eqb_spec x (furthestNode g));
        [contradiction|reflexivity].
    + intros k j Hk. destruct (Hback k j Hk) as (j0 & Hj0 & Hd & Ht).
      destruct (Hrank fi) as [Hd' Ht'].
      generalize (Hbest k j0 Hj0).
      apply not_beaten_same_rank; auto.
Qed.

Lemma prune_normal_state (fuel : nat) (k : Z) (g g' : t) (evs : list event) :
  prune fuel k g = (Normal, g', evs) -> g' = g.
Proof.
  unfold prune.
  destruct (JsMap.get VNull (nodeInfo g)); [|discriminate].
  destruct (score_heads fuel (nodeInfo g) (heads g) _) as [[| |] scores];
    try discriminate.
  destruct (k <? size g); [discriminate|].
  intros E. now injection E as <- _.
Qed.

Lemma exec_well_formed (fuel : nat) (o : op) (g g' : t) (evs : list event) :
  keeps_root o ->
  well_formed g ->
  exec fuel o g = (Normal, g', evs) ->
  well_formed g'.
Proof.
  destruct o as [s x d|x|k]; simpl; intros Hk Hwf H.
  - eapply addEdge_well_formed; eassumption.
  - eapply removeNode_well_formed; eassumption.
  - apply prune_normal_state in H. now subst.
Qed.

Lemma run_well_formed (fuel : nat) (ops : list op) :
  forall g g',
    Forall keeps_root ops ->
    well_formed g ->
    run fuel ops g = (Normal, g') ->
    well_formed g'.
Proof.
  induction ops as [|o ops IH]; intros g g' Hops Hwf H; simpl in H.
  - now injection H as <-.
  - inversion Hops as [|? ? Ho Hops']; subst.
    destruct (exec fuel o g) as [[c g1] evs] eqn:He.
    destruct c; try discriminate.
    eapply IH; [eassumption| |eassumption].
    eapply exec_well_formed; eassumption.
Qed.

Lemma new_well_formed : well_formed new.
Proof.
  split; [|split].
  - now exists root.
  - intros k j. unfold new. simpl.
    destruct (value_eqb k VNull); [|discriminate].
    intros E. injection E as <-. simpl. lia.
  - exists root. split; [reflexivity|].
    intros k j. unfold new. simpl.
    destruct (value_eqb k VNull); [|discriminate].
    intros E. injection E as <-. apply not_beaten_refl.
Qed.



(** [removeNode] has no guard for the sentinel. Outside the data model,
    when [removeNode(null)] is called, the four calls of
    [root_removal_ops] all return, and leave a graph whose only node is
    keyed [null] while [furthestNode] is still ['A'], a key that is not in
    the graph. *)
Lemma furthest_lost_without_root :
  fst (run 0 root_removal_ops new) = Normal /\
  nodeInfo (snd (run 0 root_removal_ops new))
    = [(VNull, mkInfo VNull 0 2 VUndefined)] /\
  furthestNode (snd (run 0 root_removal_ops new)) = A_ /\
  ~ is_furthest (snd (run 0 root_removal_ops new)).
Proof.
  do 3 (split; [reflexivity|]).
  intros (fi & HF & _). discriminate.
Qed.

(** The worked example of [test()]: the six edges make [G] the furthest
    node, removing [E] and [G] hands the title to [D], the re-added edge
    [D -> G] returns it to [G], and [addEdge('D', 'F')] is rejected. *)
Example test_scenario :
  furthestNode (snd (run 9 (firstn 6 test_ops) new)) = G_ /\
  furthestNode (snd (run 9 (firstn 7 test_ops) new)) = G_ /\
  furthestNode (snd (run 9 (firstn 8 test_ops) new)) = D_ /\
  furthestNode (snd (run 9 test_ops new)) = G_ /\
  fst (fst (addEdge 9 D_ F_ VUndefined (snd (run 9 test_ops new))))
    = Throw (Thrown split_only).
Proof. repeat split. Qed.

End FurthestInvariant.

(** ** PeerGroup: broadcast *)

Section SendFacts.
Import PeerConnection PeerGroup.

Lemma send_each_all_open (msg : string) (ps : list PeerConnection.t) :
  Forall (fun p => channel p = Some CHANNEL_OPEN) ps ->
  send_each msg ps
  = (Normal, map (fun p => ChannelSend (PeerConnection.remoteId p) msg) ps).
Proof.
  induction 1 as [|p ps Hp _ IH]; simpl; [reflexivity|].
  unfold PeerConnection.send. now rewrite Hp, IH.
Qed.

(** A peer whose channel is missing or not open makes [send] throw; the
    peers behind it are not served. *)
Lemma send_each_stops (msg : string) (p : PeerConnection.t)
    (ps : list PeerConnection.t) :
  channel p <> Some CHANNEL_OPEN ->
  fst (send_each msg (p :: ps)) <> Normal /\
  snd (send_each msg (p :: ps)) = [].
Proof.
  intros Hp. simpl. unfold PeerConnection.send.
  destruct (channel p) as [[| | |]|]; try congruence;
    split; simpl; congruence.
Qed.

(** C5 at a group that links a peer whose channel is still connecting and,
    behind it, a peer whose channel is open: [send] throws the channel's
    [InvalidStateError] to its caller and the open peer receives
    nothing. *)
Theorem send_throws_on_pending_peer :
  PeerGroup.send "hello" group_joining = (Throw InvalidStateError, []) /\
  PeerConnection.send "hello" peer_open
  = (Normal, [ChannelSend id_b "hello"]).
Proof. split; reflexivity. Qed.

End SendFacts.

(** ** PeerGroup: relay batches *)

Section RelayFacts.
Import PeerConnection PeerGroup.

Example isValidId_examples :
  isValidId (VStr id_a) = true /\
  isValidId (VStr "AAAAAAAA-AAAA-4AAA-8AAA-AAAAAAAAAAAA") = false /\
  isValidId (VStr "aaaaaaaa-aaaa-4aaa-8aaa-aaaaaaaaaaaa0") = false /\
  isValidId (VStr "aaaaaaaaaaaaa4aaa8aaaaaaaaaaaaaaa") = false /\
  isValidId VNull = false.
Proof. repeat split. Qed.

(** An envelope is processed exactly when [to] is nullish or the local id
    and [from] is a string of the identifier syntax. *)
Lemma accepts_iff (g : PeerGroup.t) (e : envelope) :
  accepts g e = true <->
  (to e = VUndefined \/ to e = VNull \/ to e = VStr (PeerGroup.localId g)) /\
  isValidId (from e) = true.
Proof.
  unfold accepts. rewrite andb_true_iff, value_eqb_eq.
  split; intros [Hto Hfrom]; split; auto.
  - destruct (to e); simpl in Hto; auto.
  - destruct Hto as [-> | [-> | ->]]; reflexivity.
Qed.

(** A processed envelope from a linked sender goes to that link's
    [negotiate]. *)
Lemma handleMessage_known (tr : string -> transport) (g : PeerGroup.t)
    (e : envelope) (remoteId : string) (peer : PeerConnection.t) :
  accepts g e = true ->
  from e = VStr remoteId ->
  getPeer remoteId g = Some peer ->
  handleMessage tr e g
  = (Normal,
     with_peers
       (update_peer remoteId
          (fun p => fst (PeerConnection.negotiate (candidate e)
                           (description e) (tr remoteId) p))
          (peers g)) g,
     snd (PeerConnection.negotiate (candidate e) (description e)
            (tr remoteId) peer)).
Proof.
  intros Ha Hf Hp. unfold handleMessage, _handlePeer.
  now rewrite Ha, Hf, Hp.
Qed.

(** A processed envelope from an unknown sender reaches [addPeer], which
    throws on the missing [findPeer]: no link is created and the group is
    as it was. *)
Lemma handleMessage_unknown (tr : string -> transport) (g : PeerGroup.t)
    (e : envelope) (remoteId : string) :
  accepts g e = true ->
  from e = VStr remoteId ->
  getPeer remoteId g = None ->
  handleMessage tr e g = (Throw TypeError, g, []).
Proof.
  intros Ha Hf Hp. unfold handleMessage, _handlePeer, addPeer.
  now rewrite Ha, Hf, Hp.
Qed.

(** C6 at a group without links that receives the batch with one broadcast
    envelope from [id_a]: the envelope is accepted, the handler throws a
    [TypeError], and no link for [id_a] exists afterwards. *)
Theorem unknown_sender_is_not_linked :
  accepts group_alone envelope_from_a = true /\
  _handleSocketMessage (fun _ => sample_transport) [envelope_from_a]
    group_alone
  = (Throw TypeError, group_alone, []) /\
  getPeer id_a group_alone = None.
Proof. repeat split. Qed.

End RelayFacts.

(** ** PeerConnection: politeness *)

Section PolitenessFacts.
Import PeerConnection.

Lemma negotiate_polite (c : option string) (d : option description)
    (tr : transport) (p : PeerConnection.t) :
  _polite (fst (negotiate c d tr p)) = _polite p.
Proof.
  unfold negotiate.
  destruct p as [l r ignoring making polite conn ch]. simpl.
  destruct d as [d|].
  - destruct (is_offer d), making, conn, polite,
      (is_stable (tr_signalingState tr)), (tr_setRemoteDescription tr),
      (tr_setLocalDescription tr); reflexivity.
  - destruct c as [c|]; [|reflexivity].
    destruct conn, ignoring, (tr_addIceCandidate tr); reflexivity.
Qed.

Lemma close_polite (p : PeerConnection.t) :
  _polite (fst (close p)) = _polite p.
Proof.
  unfold close, closeDataChannel, closeConnection.
  destruct p as [l r ignoring making polite conn ch]. simpl.
  destruct ch, conn; reflexivity.
Qed.

Lemma step_polite (a : action) (p : PeerConnection.t) :
  _polite (fst (step a p)) = _polite p.
Proof.
  destruct a as [c d tr| |tr|st|st|ty|msg|]; simpl.
  - apply negotiate_polite.
  - unfold negotiationNeeded_begin. simpl. now destruct (connection p).
  - reflexivity.
  - unfold _handleDataChannel. now destruct (channel p).
  - now destruct (channel p).
  - unfold _handleDataChannelStateChange.
    destruct (String.eqb ty "closing").
    + pose proof (close_polite p) as H. now destruct (close p).
    + now destruct (String.eqb ty "open").
  - reflexivity.
  - apply close_polite.
Qed.

Lemma steps_polite (l : list action) :
  forall p, _polite (steps l p) = _polite p.
Proof.
  induction l as [|a l IH]; intros p; simpl; [reflexivity|].
  now rewrite IH, step_polite.
Qed.

Lemma string_gtb_antisym (a b : string) :
  a <> b -> string_gtb b a = negb (string_gtb a b).
Proof.
  intros Hne. unfold string_gtb.
  rewrite (String.compare_antisym a b).
  destruct (String.compare b a) eqn:E; simpl; try reflexivity.
  apply String.compare_eq_iff in E. congruence.
Qed.

(** C7. A link is polite exactly when its local id compares greater than
    its remote id, so of the two ends of a link between distinct ids one
    is polite and the other is not; nothing that happens to the link
    afterwards changes the flag. When an offer collides, the impolite
    side sets its ignore flag and returns without touching the
    connection; the polite side clears the flag and applies the remote
    description, and answers with its local description once the
    connection has accepted both. *)
Theorem politeness (localId remoteId : string) (desc : option description)
    (tr0 : transport) :
  localId <> remoteId ->
  let link := fst (new localId remoteId desc tr0) in
  (_polite link = true <-> String.compare localId remoteId = Gt) /\
  _polite (fst (new remoteId localId desc tr0)) = negb (_polite link) /\
  (forall acts, _polite (steps acts link) = _polite link) /\
  (forall (p : PeerConnection.t) (c : option string) (d : description)
          (tr : transport),
     is_offer d = true ->
     offer_collision p tr ->
     (_polite p = false ->
        negotiate c (Some d) tr p = (with_ignoreOffer true p, [])) /\
     (_polite p = true -> connection p = true ->
        exists rest,
          negotiate c (Some d) tr p
          = (with_ignoreOffer false p, SetRemoteDescription d :: rest) /\
          (tr_setRemoteDescription tr = true ->
           tr_setLocalDescription tr = true ->
           rest = [SetLocalDescription;
                   SendOutOfBand None (Some (tr_localDescription tr))]))).
Proof.
  intros Hne link.
  assert (Hnew : forall l r, _polite (fst (new l r desc tr0)) = string_gtb l r).
  { intros l r. unfold new. destruct desc as [d|].
    - now rewrite negotiate_polite.
    - reflexivity. }
  split; [|split; [|split]].
  - unfold link. rewrite Hnew. unfold string_gtb.
    destruct (String.compare localId remoteId); split; congruence.
  - unfold link. rewrite !Hnew. now apply string_gtb_antisym.
  - intros acts. apply steps_polite.
  - intros p c d tr Hoffer Hcol. unfold negotiate. rewrite Hoffer.
    assert (Hc : (if _makingOffer p then Some true
                  else if connection p
                       then Some (negb (is_stable (tr_signalingState tr)))
                       else None) = Some true).
    { destruct Hcol as [->|[-> ->]]; [reflexivity|].
      now destruct (_makingOffer p). }
    rewrite Hc. split.
    + intros Hp. simpl. now rewrite Hp.
    + intros Hp Hconn. simpl. rewrite Hp, Hconn. simpl.
      destruct (tr_setRemoteDescription tr), (tr_setLocalDescription tr);
        simpl; eexists; (split; [reflexivity|]); intros; congruence.
Qed.

Lemma politeness_witness :
  _polite (fst (new id_b id_a None sample_transport)) = true /\
  _polite (fst (new id_a id_b None sample_transport)) = false /\
  negotiate None (Some sample_offer) sample_transport
    (fst (new id_a id_b None sample_transport))
  = (with_ignoreOffer true (fst (new id_a id_b None sample_transport)), []).
Proof.
  assert (Hne : id_a <> id_b) by discriminate.
  destruct (@politeness id_a id_b None sample_transport Hne)
    as (_ & Hother & _ & Hcollide).
  split; [|split].
  - rewrite Hother. reflexivity.
  - reflexivity.
  - apply (Hcollide (fst (new id_a id_b None sample_transport)) None
             sample_offer sample_transport); [reflexivity| |reflexivity].
    right. split; reflexivity.
Defined.

End PolitenessFacts.

(** ** NextState: two peers *)

Section NextStateMore.
Import NextState.

(** X1. Two peers that each adopted a proposal never both accept the other's:
    the one that is ahead rejects, and at equal times at most one ticket
    is the larger. The peers cannot swap states. *)
Theorem never_both_accept (S1 S2 : NextState.t) (p1 p2 : proposal) :
  ~ (accept (evaluate (advance S1 p1) p2) = true /\
     accept (evaluate (advance S2 p2) p1) = true).
Proof.
  unfold advance, new, evaluate. simpl. intros [H1 H2].
  destruct (Z.gtb_spec (p_time p2) (p_time p1)) as [Hgt|Hle].
  - destruct (Z.gtb_spec (p_time p1) (p_time p2)); [lia|].
    destruct (Z.eqb_spec (p_time p1) (p_time p2)); [lia|].
    destruct (p_time p1 <? p_time p2); discriminate.
  - destruct (Z.eqb_spec (p_time p2) (p_time p1)) as [E|Hne].
    + rewrite E in H2.
      destruct (Z.gtb_spec (p_time p1) (p_time p1)); [lia|].
      rewrite Z.eqb_refl in H2.
      destruct (value_eqb (p_next p2) _); [discriminate|].
      destruct (value_eqb (p_next p1) _); [discriminate|].
      destruct (Qgtb (p_lottery p2) (p_lottery p1)) eqn:E1; [|discriminate].
      destruct (Qgtb (p_lottery p1) (p_lottery p2)) eqn:E2; [|discriminate].
      apply Qgtb_true_iff in E1, E2.
      exact (Qlt_irrefl _ (Qlt_trans _ _ _ E1 E2)).
    + destruct (p_time p2 <? p_time p1); discriminate.
Qed.

(** X2. Time never runs backwards: a proposal that is accepted leads to a
    state whose time is not earlier than the local one, and it keeps the
    local time only by winning the lottery with a strictly larger
    ticket. *)
Theorem accepted_never_older (local : NextState.t) (p : proposal) :
  accept (evaluate local p) = true ->
  time local <= time (advance local p) /\
  (time (advance local p) = time local ->
   rcode (evaluate local p) = LOTTERY_LOST /\
   (lottery local < lottery (advance local p))%Q).
Proof.
  unfold evaluate, advance, new. simpl.
  destruct (Z.gtb_spec (p_time p) (time local)).
  - intros _. split; [lia|]. intros. lia.
  - destruct (Z.eqb_spec (p_time p) (time local)).
    + destruct (value_eqb (p_next p) (state local)); [discriminate|].
      destruct (Qgtb (p_lottery p) (lottery local)) eqn:E; [|discriminate].
      intros _. split; [lia|]. intros _. split; [reflexivity|].
      now apply Qgtb_true_iff.
    + destruct (p_time p <? time local); discriminate.
Qed.

Lemma accepted_never_older_witness :
  time state_s0 <= time (advance state_s0 proposal_s1).
Proof.
  exact (proj1 (@accepted_never_older state_s0 proposal_s1 eq_refl)).
Defined.

(** X3. While the time is a safe integer, a proposal made by a peer at
    the same time is always accepted, as ADVANCE when the two states agree
    and as ADVANCE_SHIFT when they do not, whatever the tickets, and
    adopting it moves the time on by exactly one step. *)
Theorem proposal_from_same_time (S S' : NextState.t) (draw : Q) (X : value) :
  Double.is_safe (time S) ->
  time S' = time S ->
  evaluate S (propose S' draw X)
  = mkResult true
      (if value_eqb (state S') (state S) then ADVANCE else ADVANCE_SHIFT) /\
  time (advance S (propose S' draw X)) = time S + 1.
Proof.
  intros Hsafe Ht. unfold evaluate, propose, advance, new.
  cbn [time state lottery p_time p_next p_state p_lottery].
  rewrite Ht, (plus_one_safe Hsafe).
  destruct (Z.gtb_spec (time S + 1) (time S)); [|lia].
  destruct (Z.gtb_spec (time S + 1) (time S + 1)); [lia|].
  split; [|reflexivity].
  now destruct (value_eqb (state S') (state S)).
Qed.

Lemma proposal_from_same_time_witness :
  evaluate state_s0 proposal_s1 = mkResult true ADVANCE.
Proof.
  refine (proj1 (@proposal_from_same_time state_s0 state_s0 (3 # 4)
                   (VStr "s1") _ eq_refl)).
  unfold Double.is_safe. simpl. lia.
Defined.

(** At the time [2 ^ 53] the clock stops: [time + 1] is [time], a
    proposal made there carries the local time and is no longer an
    ADVANCE. *)
Example clock_stops_at_two_pow_53 :
  let S := NextState.mk (VStr "s") (2 ^ 53) (1 # 2) in
  p_time (propose S (3 # 4) (VStr "n")) = 2 ^ 53 /\
  evaluate S (propose S (3 # 4) (VStr "n")) = mkResult true LOTTERY_LOST.
Proof. split; vm_compute; reflexivity. Qed.

End NextStateMore.

(** ** PeerConnection: closing and the offer window *)

Section LinkMore.
Import PeerConnection.

(** X10. [close] lets go of the data channel and the connection; closing
    again does nothing, and a [send] on the closed link throws a
    [TypeError]. *)
Theorem close_idempotent (p : PeerConnection.t) (msg : string) :
  channel (fst (close p)) = None /\
  connection (fst (close p)) = false /\
  close (fst (close p)) = (fst (close p), []) /\
  send msg (fst (close p)) = (Throw TypeError, []).
Proof.
  destruct p as [l r ignoring making polite conn ch].
  unfold close, closeDataChannel, closeConnection, send.
  destruct ch, conn; simpl; repeat split.
Qed.

(** X11. A candidate that the connection refuses right after a description
    was handled is logged, unless that description was an offer the link
    ignored: then the failure is swallowed. *)
Theorem candidate_failure_after_description (p : PeerConnection.t)
    (d : description) (c : string) (tr tr' : transport) :
  connection p = true ->
  tr_addIceCandidate tr' = false ->
  negotiate (Some c) None tr' (fst (negotiate None (Some d) tr p))
  = (fst (negotiate None (Some d) tr p),
     AddIceCandidate c ::
     (if negb (_polite p) && is_offer d
         && (_makingOffer p || negb (is_stable (tr_signalingState tr)))
      then [] else [ConsoleError])).
Proof.
  destruct p as [l r ignoring making polite conn ch]. simpl.
  intros -> Hfail. unfold negotiate. simpl. rewrite Hfail.
  destruct (is_offer d), making, polite,
    (is_stable (tr_signalingState tr)), (tr_setRemoteDescription tr),
    (tr_setLocalDescription tr); reflexivity.
Qed.

Lemma candidate_failure_after_description_witness :
  snd (negotiate (Some "candidate"%string) None stable_transport
         (fst (negotiate None (Some sample_offer) sample_transport
                 peer_pending)))
  = [AddIceCandidate "candidate"%string].
Proof.
  exact (f_equal snd
           (@candidate_failure_after_description peer_pending sample_offer
              "candidate"%string sample_transport stable_transport
              eq_refl eq_refl)).
Defined.

(** X12. The offer window of an impolite link: between the start and the end
    of its own [negotiationneeded] handler an incoming offer is ignored,
    with no call on the connection, even when the connection reports the
    stable state; once the handler has ended, the same offer is applied. *)
Theorem making_offer_window (p : PeerConnection.t) (d : description)
    (tr tr_end : transport) :
  connection p = true ->
  is_offer d = true ->
  _polite p = false ->
  tr_signalingState tr = stable ->
  let during := fst (negotiationNeeded_begin p) in
  let after := fst (negotiationNeeded_end tr_end during) in
  negotiate None (Some d) tr during = (with_ignoreOffer true during, []) /\
  _makingOffer after = false /\
  exists rest,
    negotiate None (Some d) tr after
    = (with_ignoreOffer false after, SetRemoteDescription d :: rest).
Proof.
  destruct p as [l r ignoring making polite conn ch]. simpl.
  intros -> Hoffer -> Hst.
  unfold negotiationNeeded_begin, negotiationNeeded_end, negotiate. simpl.
  rewrite Hoffer, Hst. simpl.
  split; [reflexivity|]. split; [reflexivity|].
  destruct (tr_setRemoteDescription tr), (tr_setLocalDescription tr);
    simpl; eexists; reflexivity.
Qed.

Lemma making_offer_window_witness :
  negotiate None (Some sample_offer) stable_transport
    (fst (negotiationNeeded_begin peer_pending))
  = (with_ignoreOffer true (fst (negotiationNeeded_begin peer_pending)), []).
Proof.
  exact (proj1 (@making_offer_window peer_pending sample_offer
                  stable_transport stable_transport
                  eq_refl eq_refl eq_refl eq_refl)).
Defined.

End LinkMore.

(** ** PeerGroup: the relay socket and the pool *)

Section MeshFacts.
Import PeerConnection Mesh.

Lemma negotiate_each_outbox (calls : list call) :
  forall this,
    _outbox (fst (negotiate_each calls this))
    = _outbox this
      ++ map (message_of (PeerGroup.localId (group this))) calls /\
    group (fst (negotiate_each calls this)) = group this /\
    socket (fst (negotiate_each calls this)) = socket this.
Proof.
  induction calls as [|c calls IH]; intros this; simpl.
  - now rewrite app_nil_r.
  - destruct (negotiate_each calls _) as [this2 e2] eqn:E.
    specialize (IH (with_outbox
                      (_outbox this ++
                       [PeerGroup.mkEnvelope
                          (VStr (PeerGroup.localId (group this)))
                          (fst (fst c)) (snd (fst c)) (snd c)]) this)).
    rewrite E in IH. simpl in *. destruct IH as (-> & -> & ->).
    rewrite <- app_assoc. auto.
Qed.

Lemma negotiate_each_timers (calls : list call) :
  forall this,
    snd (negotiate_each calls this)
    = match _outbox this, calls with
      | [], _ :: _ => [SetTimeout 100]
      | _, _ => []
      end.
Proof.
  induction calls as [|c calls IH]; intros this; simpl.
  - now destruct (_outbox this).
  - destruct (negotiate_each calls _) as [this2 e2] eqn:E.
    specialize (IH (with_outbox
                      (_outbox this ++
                       [PeerGroup.mkEnvelope
                          (VStr (PeerGroup.localId (group this)))
                          (fst (fst c)) (snd (fst c)) (snd c)]) this)).
    rewrite E in IH. simpl in *. subst e2.
    destruct (_outbox this) as [|m [|m' o]]; simpl.
    + now destruct calls.
    + now destruct calls.
    + now destruct calls.
Qed.

(** X13. Batching: from an empty outbox, any number of [negotiate] calls arms
    one timer; the flush hands the socket one batch with the messages in
    call order, each stamped with the local id, and empties the outbox. On
    a socket that is not open the batch is gone all the same. *)
Theorem outbox_is_flushed_as_one_batch (calls : list call) (this : t) :
  _outbox this = [] ->
  calls <> [] ->
  let queued := fst (negotiate_each calls this) in
  let batch := map (message_of (PeerGroup.localId (group this))) calls in
  snd (negotiate_each calls this) = [SetTimeout 100] /\
  _outbox queued = batch /\
  fst (_sendOutbox queued) = with_outbox [] queued /\
  snd (_sendOutbox queued)
  = match socket this with
    | Some SOCKET_OPEN => [SocketSend batch]
    | Some SOCKET_CLOSING | Some SOCKET_CLOSED => []
    | Some SOCKET_CONNECTING | None => [ConsoleError]
    end.
Proof.
  intros Hempty Hcalls queued batch.
  destruct (negotiate_each_outbox calls this) as (Ho & _ & Hs).
  rewrite Hempty in Ho. simpl in Ho.
  split; [|split; [exact Ho|split; [reflexivity|]]].
  - rewrite negotiate_each_timers, Hempty. destruct calls; congruence.
  - subst queued batch. unfold _sendOutbox, socket_send. simpl.
    now rewrite Ho, Hs.
Qed.

Lemma outbox_is_flushed_as_one_batch_witness :
  snd (_sendOutbox (fst (negotiate_each sample_calls mesh_online)))
  = [SocketSend [message_of id_local (VStr id_a, None, Some sample_offer)]].
Proof.
  refine (proj2 (proj2 (proj2
            (@outbox_is_flushed_as_one_batch sample_calls mesh_online
               _ _)))).
  - reflexivity.
  - discriminate.
Defined.


(** X14. Joining announces the peer once the socket is open: at once on an open
    socket, on the ['open'] event on a connecting one, and not at all on a
    socket that is closing or closed. The announcement is one broadcast
    envelope in the outbox, with the timer armed. *)
Theorem join_announces_when_open (st : socketState) (this : t) :
  socket this = None ->
  _outbox this = [] ->
  let hello :=
    PeerGroup.mkEnvelope (VStr (PeerGroup.localId (group this))) VUndefined
      None None in
  join st this
  = match st with
    | SOCKET_OPEN =>
        (mk (group this) (Some SOCKET_OPEN) [hello],
         [AttachSocket; SetTimeout 100])
    | _ => (mk (group this) (Some st) [], [AttachSocket])
    end /\
  socket_event SOCKET_OPEN (fst (join SOCKET_CONNECTING this))
  = (mk (group this) (Some SOCKET_OPEN) [hello], [SetTimeout 100]).
Proof.
  destruct this as [g s o]. simpl. intros -> ->.
  split; [destruct st; reflexivity|reflexivity].
Qed.

Lemma join_announces_when_open_witness :
  snd (join SOCKET_OPEN mesh_idle) = [AttachSocket; SetTimeout 100].
Proof.
  exact (f_equal snd
           (proj1 (@join_announces_when_open SOCKET_OPEN mesh_idle
                     eq_refl eq_refl))).
Defined.

(** X15. When the attached socket closes, the group lets go of it and keeps
    its links and its outbox; later socket events find no handler, and the
    flush of what is queued fails with a logged error and an empty
    outbox. *)
Theorem socket_close_detaches (st : socketState) (s0 : socketState)
    (this : t) :
  socket this = Some s0 ->
  st = SOCKET_CLOSING \/ st = SOCKET_CLOSED ->
  let after := fst (socket_event st this) in
  socket_event st this = (with_socket None this, [DetachSocket]) /\
  (forall st', socket_event st' after = (after, [])) /\
  _sendOutbox after = (with_outbox [] after, [ConsoleError]).
Proof.
  destruct this as [g s o]. simpl. intros -> Hst.
  destruct Hst as [-> | ->]; repeat split.
Qed.

Lemma socket_close_detaches_witness :
  socket_event SOCKET_CLOSED mesh_online
  = (with_socket None mesh_online, [DetachSocket]).
Proof.
  exact (proj1 (@socket_close_detaches SOCKET_CLOSED SOCKET_OPEN
                  mesh_online eq_refl (or_intror eq_refl))).
Defined.

Lemma getPeer_without_other (remoteId other : string)
    (ps : list PeerConnection.t) (l : string) :
  other <> remoteId ->
  PeerGroup.getPeer other (PeerGroup.mk l (without_peer remoteId ps))
  = PeerGroup.getPeer other (PeerGroup.mk l ps).
Proof.
  intros Hne. unfold PeerGroup.getPeer. simpl.
  induction ps as [|p ps IH]; simpl; [reflexivity|].
  destruct (String.eqb_spec (PeerConnection.remoteId p) remoteId) as [E|E].
  - destruct (String.eqb_spec (PeerConnection.remoteId p) other);
      [congruence|reflexivity].
  - simpl. now rewrite IH.
Qed.

Lemma getPeer_without_same (remoteId : string)
    (ps : list PeerConnection.t) (l : string) :
  NoDup (map PeerConnection.remoteId ps) ->
  PeerGroup.getPeer remoteId (PeerGroup.mk l (without_peer remoteId ps))
  = None.
Proof.
  unfold PeerGroup.getPeer. simpl.
  induction ps as [|p ps IH]; simpl; [reflexivity|].
  intros Hnd. inversion Hnd as [|? ? Hnin Hnd']; subst.
  destruct (String.eqb_spec (PeerConnection.remoteId p) remoteId) as [E|E].
  - destruct (find _ ps) as [q|] eqn:Hq; [|reflexivity].
    apply find_some in Hq as [Hin Heq].
    apply String.eqb_eq in Heq.
    exfalso. apply Hnin. rewrite E, <- Heq. now apply in_map.
  - simpl. destruct (String.eqb_spec (PeerConnection.remoteId p) remoteId);
      [contradiction|]. now apply IH.
Qed.

Lemma length_without_peer (remoteId : string) (ps : list PeerConnection.t)
    (l : string) (peer : PeerConnection.t) :
  PeerGroup.getPeer remoteId (PeerGroup.mk l ps) = Some peer ->
  S (List.length (without_peer remoteId ps)) = List.length ps.
Proof.
  unfold PeerGroup.getPeer. simpl.
  induction ps as [|p ps IH]; simpl; [discriminate|].
  destruct (String.eqb (PeerConnection.remoteId p) remoteId);
    [reflexivity|].
  intros H. simpl. now rewrite IH.
Qed.

(** X16. [removePeer] of an unknown id does nothing. Of a known id it closes the
    link [getPeer] finds and takes that one link out of the pool: every
    other id resolves as before, the socket and the outbox are untouched,
    and when remote ids are unique the removed id no longer resolves. *)
Theorem removePeer_removes_one (remoteId : string) (this : t) :
  let after := fst (removePeer remoteId this) in
  socket after = socket this /\
  _outbox after = _outbox this /\
  (forall other, other <> remoteId ->
     PeerGroup.getPeer other (group after)
     = PeerGroup.getPeer other (group this)) /\
  (PeerGroup.getPeer remoteId (group this) = None ->
     removePeer remoteId this = (this, [])) /\
  (forall peer,
     PeerGroup.getPeer remoteId (group this) = Some peer ->
     snd (removePeer remoteId this)
     = map (Link remoteId) (snd (PeerConnection.close peer)) /\
     S (List.length (PeerGroup.peers (group after)))
     = List.length (PeerGroup.peers (group this)) /\
     (NoDup (map PeerConnection.remoteId (PeerGroup.peers (group this))) ->
      PeerGroup.getPeer remoteId (group after) = None)).
Proof.
  destruct this as [[l ps] s o]. unfold removePeer. simpl.
  destruct (PeerGroup.getPeer remoteId (PeerGroup.mk l ps)) as [peer|] eqn:E;
    simpl.
  - split; [reflexivity|]. split; [reflexivity|].
    split; [intros other Hne; now apply getPeer_without_other|].
    split; [discriminate|].
    intros peer' E'. injection E' as <-.
    split; [reflexivity|]. split.
    + eapply length_without_peer; eassumption.
    + apply getPeer_without_same.
  - split; [reflexivity|]. split; [reflexivity|].
    split; [reflexivity|]. split; [reflexivity|discriminate].
Qed.

Lemma leave_effects (this : t) :
  snd (leave this)
  = flat_map (fun p => map (Link (PeerConnection.remoteId p))
                         (snd (PeerConnection.close p)))
      (PeerGroup.peers (group this))
    ++ match socket this with Some _ => [DetachSocket] | None => [] end.
Proof.
  destruct this as [[l ps] s o]. unfold leave, detach_socket. simpl.
  destruct s; reflexivity.
Qed.

(** X17. [leave] closes every link: the effects are, link by link in
    pool order, what [close] does to that link, followed by the detaching
    of the socket when there is one; so every link that has a data channel
    gets it closed and every link that has a connection gets it closed.
    [leave] empties the pool and lets go of the socket but keeps the
    outbox: a flush that is still pending afterwards fails with a logged
    error. Leaving twice is leaving once. *)
Theorem leave_is_idempotent (this : t) :
  let after := fst (leave this) in
  snd (leave this)
  = flat_map (fun p => map (Link (PeerConnection.remoteId p))
                         (snd (PeerConnection.close p)))
      (PeerGroup.peers (group this))
    ++ match socket this with Some _ => [DetachSocket] | None => [] end /\
  (forall p, In p (PeerGroup.peers (group this)) ->
     (channel p <> None ->
      In (Link (PeerConnection.remoteId p) ChannelClose)
         (snd (leave this))) /\
     (connection p = true ->
      In (Link (PeerConnection.remoteId p) ConnectionClose)
         (snd (leave this)))) /\
  PeerGroup.peers (group after) = [] /\
  socket after = None /\
  _outbox after = _outbox this /\
  leave after = (after, []) /\
  _sendOutbox after = (with_outbox [] after, [ConsoleError]).
Proof.
  split; [apply leave_effects|]. split.
  - intros p Hp. rewrite leave_effects.
    assert (Hin : forall e, In e (snd (PeerConnection.close p)) ->
              In (Link (PeerConnection.remoteId p) e)
                 (flat_map
                    (fun q => map (Link (PeerConnection.remoteId q))
                                (snd (PeerConnection.close q)))
                    (PeerGroup.peers (group this))
                  ++ match socket this with
                     | Some _ => [DetachSocket]
                     | None => []
                     end)).
    { intros e He. apply in_or_app. left. apply in_flat_map.
      exists p. split; [assumption|]. now apply in_map. }
    destruct p as [pl pr ignoring making polite conn ch].
    unfold PeerConnection.close, closeDataChannel, closeConnection in Hin.
    simpl in *. split.
    + intros Hch. apply Hin. destruct ch; [|congruence].
      destruct conn; simpl; auto.
    + intros ->. apply Hin. destruct ch; simpl; auto.
  - destruct this as [[l ps] s o]. unfold leave, detach_socket. simpl.
    destruct s; simpl; repeat split.
Qed.

Lemma negotiate_remoteId (c : option string) (d : option description)
    (tr : transport) (p : PeerConnection.t) :
  PeerConnection.remoteId (fst (PeerConnection.negotiate c d tr p))
  = PeerConnection.remoteId p.
Proof.
  unfold PeerConnection.negotiate.
  destruct p as [l r ignoring making polite conn ch]. simpl.
  destruct d as [d|].
  - destruct (is_offer d), making, conn, polite,
      (is_stable (tr_signalingState tr)), (tr_setRemoteDescription tr),
      (tr_setLocalDescription tr); reflexivity.
  - destruct c as [c|]; [|reflexivity].
    destruct conn, ignoring, (tr_addIceCandidate tr); reflexivity.
Qed.

Lemma update_peer_ids (remoteId : string)
    (f : PeerConnection.t -> PeerConnection.t)
    (ps : list PeerConnection.t) :
  (forall p, PeerConnection.remoteId (f p) = PeerConnection.remoteId p) ->
  map PeerConnection.remoteId (PeerGroup.update_peer remoteId f ps)
  = map PeerConnection.remoteId ps.
Proof.
  intros Hf. induction ps as [|p ps IH]; simpl; [reflexivity|].
  destruct (String.eqb (PeerConnection.remoteId p) remoteId); simpl.
  - now rewrite Hf.
  - now rewrite IH.
Qed.

Lemma handleMessage_ids (tr : string -> transport) (e : PeerGroup.envelope)
    (g : PeerGroup.t) :
  map PeerConnection.remoteId
    (PeerGroup.peers (snd (fst (PeerGroup.handleMessage tr e g))))
  = map PeerConnection.remoteId (PeerGroup.peers g).
Proof.
  unfold PeerGroup.handleMessage.
  destruct (PeerGroup.accepts g e); [|reflexivity].
  destruct (PeerGroup.from e) as [| |r]; try reflexivity.
  unfold PeerGroup._handlePeer.
  destruct (PeerGroup.getPeer r g); [|reflexivity].
  simpl. apply update_peer_ids. intros p. apply negotiate_remoteId.
Qed.

Lemma handle_each_ids (tr : string -> transport)
    (batch : list PeerGroup.envelope) :
  forall g,
    map PeerConnection.remoteId
      (PeerGroup.peers (snd (fst (fst (PeerGroup.handle_each tr batch g)))))
    = map PeerConnection.remoteId (PeerGroup.peers g) /\
    PeerGroup.localId (snd (fst (fst (PeerGroup.handle_each tr batch g))))
    = PeerGroup.localId g.
Proof.
  induction batch as [|e batch IH]; intros g; simpl; [auto|].
  pose proof (handleMessage_ids tr e g) as He.
  assert (Hl : PeerGroup.localId
                 (snd (fst (PeerGroup.handleMessage tr e g)))
               = PeerGroup.localId g).
  { unfold PeerGroup.handleMessage.
    destruct (PeerGroup.accepts g e); [|reflexivity].
    destruct (PeerGroup.from e) as [| |r]; try reflexivity.
    unfold PeerGroup._handlePeer.
    destruct (PeerGroup.getPeer r g); reflexivity. }
  destruct (PeerGroup.handleMessage tr e g) as [[c g1] effs].
  simpl in He, Hl.
  destruct c; simpl; auto.
  destruct (IH g1) as [H1 H2].
  destruct (PeerGroup.handle_each tr batch g1) as [[[c' g2] now] later].
  simpl in *. split; congruence.
Qed.

(** X18. Whatever batch the relay delivers, and whether the handler returns or
    throws, the pool holds links to the same remote ids, in the same
    order, as before: a relay message never adds and never removes a
    link. *)
Theorem relay_never_changes_the_pool (tr : string -> transport)
    (batch : list PeerGroup.envelope) :
  forall g,
    map PeerConnection.remoteId
      (PeerGroup.peers (snd (fst (PeerGroup._handleSocketMessage tr batch g))))
    = map PeerConnection.remoteId (PeerGroup.peers g) /\
    PeerGroup.localId (snd (fst (PeerGroup._handleSocketMessage tr batch g)))
    = PeerGroup.localId g.
Proof.
  intros g. pose proof (handle_each_ids tr batch g) as H.
  unfold PeerGroup._handleSocketMessage.
  destruct (PeerGroup.handle_each tr batch g) as [[[c g'] now] later].
  exact H.
Qed.

(** X19. Messages that [negotiate] addressed to one peer are skipped by every
    group with another local id: the batch leaves such a group as it was
    and nothing is thrown. *)
Theorem relay_skips_other_addressees (tr : string -> transport)
    (sender addressee : string) (calls : list call) (g : PeerGroup.t) :
  (forall c, In c calls -> fst (fst c) = VStr addressee) ->
  PeerGroup.localId g <> addressee ->
  PeerGroup._handleSocketMessage tr (map (message_of sender) calls) g
  = (Normal, g, []).
Proof.
  intros Hto Hne.
  assert (H : PeerGroup.handle_each tr (map (message_of sender) calls) g
              = (Normal, g, [], [])).
  { induction calls as [|c calls IH]; simpl; [reflexivity|].
    unfold PeerGroup.handleMessage, PeerGroup.accepts. simpl.
    rewrite (Hto c (or_introl eq_refl)). simpl.
    destruct (String.eqb_spec addressee (PeerGroup.localId g));
      [congruence|].
    simpl. rewrite IH; [reflexivity|].
    intros c' Hin. apply Hto. now right. }
  unfold PeerGroup._handleSocketMessage. now rewrite H.
Qed.

Lemma relay_skips_other_addressees_witness :
  PeerGroup._handleSocketMessage (fun _ => sample_transport)
    (map (message_of id_b) sample_calls) group_joining
  = (Normal, group_joining, []).
Proof.
  apply (@relay_skips_other_addressees (fun _ => sample_transport) id_b
           id_a sample_calls group_joining).
  - intros c [E|[]]. subst c. reflexivity.
  - discriminate.
Defined.

End MeshFacts.

(** ** Cards *)

Section CardFacts.
Import Cards.

Lemma iota_forall (f : Z -> bool) (n : nat) :
  forallb f (iota n) = true ->
  forall i, 0 <= i < Z.of_nat n -> f i = true.
Proof.
  intros H i Hi. rewrite forallb_forall in H. apply H.
  unfold iota. apply in_map_iff. exists (Z.to_nat i).
  split; [lia|]. apply in_seq. lia.
Qed.

Lemma to_int32_small (z : Z) :
  - 2 ^ 31 <= z < 2 ^ 31 -> to_int32 z = z.
Proof.
  intros H. unfold to_int32. rewrite Z.mod_small; lia.
Qed.

Lemma sortedPosition_card (i : Z) :
  0 <= i < 32 -> sortedPosition (card i) = 2 * i.
Proof.
  intros Hi. apply Z.eqb_eq. revert i Hi.
  apply (iota_forall _ 32). vm_compute. reflexivity.
Qed.

(** X20. The deck is a table in both directions: for an index within the
    deck, [card] is a string of two code units, [sortedPosition] of that
    card is twice the index (the offset in code units, not the index),
    halving it gives the card back, and no other index gives the same
    card. *)
Theorem card_round_trip (i : Z) :
  0 <= i < 32 ->
  List.length (card i) = 2%nat /\
  sortedPosition (card i) = 2 * i /\
  card (shr (sortedPosition (card i)) 1) = card i /\
  (forall j, 0 <= j < 32 -> card j = card i -> j = i).
Proof.
  intros Hi.
  assert (H : (Nat.eqb (List.length (card i)) 2
               && (if list_eq_dec Z.eq_dec
                        (card (shr (sortedPosition (card i)) 1)) (card i)
                   then true else false))%bool = true).
  { revert i Hi. apply (iota_forall _ 32). vm_compute. reflexivity. }
  apply andb_true_iff in H as [H1 H3].
  apply Nat.eqb_eq in H1.
  destruct (list_eq_dec Z.eq_dec _ _) as [E|]; [|discriminate].
  repeat split; try assumption; [now apply sortedPosition_card|].
  intros j Hj Hc.
  pose proof (sortedPosition_card Hj) as Hj2.
  rewrite Hc, (sortedPosition_card Hi) in Hj2. lia.
Qed.

Lemma card_round_trip_witness : sortedPosition (card 9) = 18.
Proof. apply (@card_round_trip 9). lia. Defined.

(** X21. Suit and rank follow the layout of the deck: the card at index [i]
    has the suit number [i / 8] of ['♠♥♣♦'] and the rank number [i mod 8]
    of ['789TJQKA'], and both are defined. *)
Theorem card_suit_and_rank (i : Z) :
  0 <= i < 32 ->
  suit (card i) = char_at suits (i / 8) /\
  rank (card i) = char_at ranks (i mod 8) /\
  suit (card i) <> None /\ rank (card i) <> None.
Proof.
  intros Hi.
  assert (H : (match suit (card i), char_at suits (i / 8) with
               | Some x, Some y => x =? y
               | _, _ => false
               end
               && match rank (card i), char_at ranks (i mod 8) with
                  | Some x, Some y => x =? y
                  | _, _ => false
                  end)%bool = true).
  { revert i Hi. apply (iota_forall _ 32). vm_compute. reflexivity. }
  apply andb_true_iff in H as [H1 H2].
  destruct (suit (card i)) as [x|], (char_at suits (i / 8)) as [y|];
    try discriminate.
  destruct (rank (card i)) as [x'|], (char_at ranks (i mod 8)) as [y'|];
    try discriminate.
  apply Z.eqb_eq in H1, H2. subst. repeat split; discriminate.
Qed.

Lemma card_suit_and_rank_witness :
  suit (card 17) = Some 9827 /\ rank (card 17) = Some 56.
Proof.
  destruct (@card_suit_and_rank 17) as (Hs & Hr & _); [lia|].
  split; [exact Hs|exact Hr].
Defined.

Lemma shl_1_small (i : Z) : - 2 ^ 30 <= i < 2 ^ 30 -> shl i 1 = 2 * i.
Proof.
  intros H. unfold shl. rewrite (@to_int32_small i) by lia.
  rewrite to_int32_small; lia.
Qed.

(** X22. Outside the deck there is no card: for an index below 0 or from 32 on
    (short of the 32-bit wrap of [<<]) [card] is the empty string, and the
    empty string is found at offset 0 of the deck, so [suit] and [rank]
    read it as the seven of spades. A string that is not in the deck, like
    the card back, has no suit and no rank. *)
Theorem card_out_of_range (i : Z) :
  - 2 ^ 30 <= i < 2 ^ 30 ->
  i < 0 \/ 32 <= i ->
  card i = [] /\
  suit (card i) = Some 9824 /\ rank (card i) = Some 55 /\
  suit back = None /\ rank back = None.
Proof.
  intros Hr Hi.
  assert (Hc : card i = []).
  { unfold card, substring. rewrite shl_1_small by assumption.
    change (Z.of_nat (List.length deck)) with 64.
    destruct Hi as [Hi|Hi].
    - replace (Z.max (Z.min (Z.max (2 * i) 0) 64)
                 (Z.min (Z.max (2 * i + 2) 0) 64)
               - Z.min (Z.min (Z.max (2 * i) 0) 64)
                   (Z.min (Z.max (2 * i + 2) 0) 64)) with 0 by lia.
      reflexivity.
    - replace (Z.max (Z.min (Z.max (2 * i) 0) 64)
                 (Z.min (Z.max (2 * i + 2) 0) 64)
               - Z.min (Z.min (Z.max (2 * i) 0) 64)
                   (Z.min (Z.max (2 * i + 2) 0) 64)) with 0 by lia.
      reflexivity. }
  rewrite Hc. repeat split.
Qed.

Lemma card_out_of_range_witness : card 32 = [] /\ card (-1) = [].
Proof.
  split.
  - apply (@card_out_of_range 32); lia.
  - apply (@card_out_of_range (-1)); lia.
Defined.


Lemma update_length (A : Type) (x : A) (l : list A) :
  forall n, List.length (update n x l) = List.length l.
Proof.
  induction l as [|h t IH]; intros [|n]; simpl; auto.
Qed.

Lemma nth_error_update (A : Type) (y : A) (l : list A) :
  forall i j,
    nth_error (update i y l) j
    = if Nat.eqb i j
      then match nth_error l i with Some _ => Some y | None => None end
      else nth_error l j.
Proof.
  induction l as [|h t IH]; intros [|i] [|j]; simpl; auto.
  now destruct (Nat.eqb i j).
Qed.

Lemma update_permutes (A : Type) (x y : A) (l : list A) :
  forall i,
    nth_error l i = Some x ->
    Permutation (x :: update i y l) (y :: l).
Proof.
  induction l as [|h t IH]; intros [|i] H; simpl in *; try discriminate.
  - injection H as ->. apply perm_swap.
  - eapply perm_trans; [apply perm_swap|].
    eapply perm_trans; [apply perm_skip, IH, H|]. apply perm_swap.
Qed.

Lemma swap_permutes (A : Type) (i : nat) (j : Z) (l l' : list A) :
  swap i j l = Some l' -> Permutation l' l.
Proof.
  unfold swap.
  destruct (nth_error l i) as [x|] eqn:Hi; [|discriminate].
  destruct (j <? 0); [discriminate|].
  destruct (nth_error l (Z.to_nat j)) as [y|] eqn:Hj; [|discriminate].
  intros E. injection E as <-.
  apply Permutation_cons_inv with (a := y).
  eapply perm_trans; [|apply (update_permutes y l i Hi)].
  apply update_permutes.
  rewrite nth_error_update, Hi.
  destruct (Nat.eqb_spec i (Z.to_nat j)); [reflexivity|assumption].
Qed.

Lemma draw_in_range (random : nat -> Q) (k i : nat) :
  Double.unit_double (random k) -> 0 <= draw random k i <= Z.of_nat i.
Proof.
  intros Hr. unfold draw.
  pose proof (@floor_mul_below (random k) (Z.of_nat i + 1)
                (unit_double_below Hr)).
  lia.
Qed.

(** The rounding is seen: with the double nearest to [1 / 3] the product
    by 3 rounds up to 1, and the index drawn for [i = 2] is 1; the exact
    product is below 1. *)
Example draw_of_a_third :
  Double.unit_double Double.third /\
  draw (fun _ => Double.third) 0 2 = 1 /\
  Qfloor (Double.third * 3) = 0.
Proof.
  split; [|split; vm_compute; reflexivity].
  exists 6004799503160661, 54. repeat split; try reflexivity; discriminate.
Qed.

Lemma swap_in_range (A : Type) (i : nat) (j : Z) (l : list A) :
  (i < List.length l)%nat -> 0 <= j <= Z.of_nat i ->
  exists l', swap i j l = Some l'.
Proof.
  intros Hi Hj. unfold swap.
  destruct (nth_error l i) as [x|] eqn:Ex;
    [|apply nth_error_None in Ex; lia].
  destruct (Z.ltb_spec j 0); [lia|].
  destruct (nth_error l (Z.to_nat j)) as [y|] eqn:Ey;
    [|apply nth_error_None in Ey; lia].
  eauto.
Qed.

Lemma shuffle_loop_permutes (A : Type) (random : nat -> Q) :
  (forall k, Double.unit_double (random k)) ->
  forall i k (l : list A),
    (i <= List.length l - 1)%nat ->
    exists s, shuffle_loop random i k l = Some s /\ Permutation s l.
Proof.
  intros Hr. induction i as [|i IH]; intros k l Hi; simpl.
  - exists l. split; reflexivity.
  - destruct (@swap_in_range A (S i) (draw random k (S i)) l) as (l' & E);
      [lia|apply draw_in_range, Hr|].
    rewrite E. pose proof (swap_permutes _ _ _ E) as Hp.
    destruct (IH (S k) l') as (s & Es & Hs).
    + rewrite (Permutation_length Hp). lia.
    + exists s. split; [exact Es|]. eapply perm_trans; eassumption.
Qed.

(** X23. [shuffleArray] only rearranges: when every random number is a
    double in [[0, 1)], every index it draws, with the product rounded as
    the code rounds it, lies between 0 and the cell it is paired with,
    every swap exchanges two cells of the array, and the result has the
    elements of the input, each as often as the input has it. *)
Theorem shuffleArray_permutes (A : Type) (random : nat -> Q) (l : list A) :
  (forall k, Double.unit_double (random k)) ->
  (forall k i, 0 <= draw random k i <= Z.of_nat i) /\
  exists s,
    shuffleArray random l = Some s /\
    Permutation s l /\ List.length s = List.length l.
Proof.
  intros Hr. split; [intros k i; apply draw_in_range, Hr|].
  destruct (@shuffle_loop_permutes A random Hr (List.length l - 1) 0 l)
    as (s & Es & Hp); [lia|].
  exists s. split; [exact Es|]. split; [exact Hp|].
  now apply Permutation_length.
Qed.

Lemma shuffleArray_permutes_witness :
  exists s,
    shuffleArray (fun _ => Double.third) [1; 2; 3] = Some s /\
    Permutation s [1; 2; 3] /\ List.length s = 3%nat.
Proof.
  refine (proj2 (@shuffleArray_permutes Z (fun _ => Double.third)
                   [1; 2; 3] _)).
  intros k. exists 6004799503160661, 54.
  repeat split; try reflexivity; discriminate.
Defined.


Lemma insert_num_permutes (x : Z) (l : list Z) :
  Permutation (insert_num x l) (x :: l).
Proof.
  induction l as [|y l IH]; simpl; [reflexivity|].
  destruct (x <=? y); [reflexivity|].
  eapply perm_trans; [apply perm_skip, IH|apply perm_swap].
Qed.

Lemma sort_num_permutes (l : list Z) : Permutation (sort_num l) l.
Proof.
  induction l as [|x l IH]; simpl; [reflexivity|].
  eapply perm_trans; [apply insert_num_permutes|now apply perm_skip].
Qed.

Lemma insert_num_sorted (x : Z) (l : list Z) :
  Sorted Z.le l -> Sorted Z.le (insert_num x l).
Proof.
  induction 1 as [|y l Hs IH Hhd]; simpl.
  - repeat constructor.
  - destruct (Z.leb_spec x y).
    + repeat constructor; assumption.
    + constructor; [assumption|].
      destruct l as [|z l]; simpl in *.
      * constructor. lia.
      * destruct (Z.leb_spec x z); constructor; try lia.
        now inversion Hhd.
Qed.

Lemma sort_num_sorted (l : list Z) : Sorted Z.le (sort_num l).
Proof.
  induction l as [|x l IH]; simpl; [constructor|].
  now apply insert_num_sorted.
Qed.

Lemma slices_of_32 (A : Type) (l : list A) :
  List.length l = 32%nat ->
  slice 0 8 l ++ slice 8 16 l ++ slice 16 24 l ++ slice 24 32 l = l /\
  List.length (slice 0 8 l) = 8%nat /\
  List.length (slice 8 16 l) = 8%nat /\
  List.length (slice 16 24 l) = 8%nat /\
  List.length (slice 24 32 l) = 8%nat.
Proof.
  intros H. unfold slice. simpl Nat.sub.
  repeat split;
    try (rewrite length_firstn, length_skipn, H; reflexivity).
  assert (E3 : firstn 8 (skipn 24 l) = skipn 24 l)
    by (apply firstn_all2; rewrite length_skipn, H; reflexivity).
  assert (E2 : firstn 8 (skipn 16 l) ++ skipn 24 l = skipn 16 l).
  { change (skipn 24 l) with (skipn (8 + 16) l).
    rewrite <- skipn_skipn. apply firstn_skipn. }
  assert (E1 : firstn 8 (skipn 8 l) ++ skipn 16 l = skipn 8 l).
  { change (skipn 16 l) with (skipn (8 + 8) l).
    rewrite <- skipn_skipn. apply firstn_skipn. }
  change (skipn 0 l) with l.
  rewrite E3, E2, E1. apply firstn_skipn.
Qed.

Lemma in_slice (A : Type) (x : A) (from to : nat) (l : list A) :
  In x (slice from to l) -> In x l.
Proof.
  unfold slice. intros H.
  rewrite <- (firstn_skipn from l). apply in_or_app. right.
  rewrite <- (firstn_skipn (to - from) (skipn from l)).
  apply in_or_app. now left.
Qed.

Lemma sorted_positions (l : list Z) :
  Forall (fun i => 0 <= i < 32) l ->
  Sorted Z.le l ->
  Sorted Z.le (map sortedPosition (map card l)).
Proof.
  intros Hr Hs. induction Hs as [|x l Hs IH Hhd]; simpl; [constructor|].
  inversion Hr as [|? ? Hx Hl]; subst.
  constructor; [now apply IH|].
  destruct l as [|y l]; simpl; constructor.
  inversion Hl as [|? ? Hy _]; subst. inversion Hhd; subst.
  rewrite (sortedPosition_card Hx), (sortedPosition_card Hy). lia.
Qed.

(** X24. [deal] hands out the whole deck: four hands of eight cards that
    together hold each of the 32 cards once, every hand in deck order. *)
Theorem deal_hands_out_the_deck (random : nat -> Q) :
  (forall k, Double.unit_double (random k)) ->
  exists hands,
    deal random = Some hands /\
    List.length hands = 4%nat /\
    Forall (fun hand => List.length hand = 8%nat) hands /\
    Permutation (List.concat hands) (map card (iota 32)) /\
    Forall (fun hand => Sorted Z.le (map sortedPosition hand)) hands.
Proof.
  intros Hr. unfold deal.
  destruct (@shuffle_loop_permutes Z random Hr
              (List.length (iota 32) - 1) 0 (iota 32))
    as (s & Es & Hp); [lia|].
  fold (shuffleArray random (iota 32)) in Es. rewrite Es.
  assert (Hlen : List.length s = 32%nat)
    by (rewrite (Permutation_length Hp); reflexivity).
  destruct (@slices_of_32 Z _ Hlen) as (Hcat & H0 & H1 & H2 & H3).
  eexists. split; [reflexivity|].
  cbn [map Nat.mul Nat.add].
  split; [reflexivity|]. split; [|split].
  - repeat constructor; rewrite length_map;
      rewrite (Permutation_length (sort_num_permutes _)); assumption.
  - cbn [List.concat]. rewrite app_nil_r, <- !map_app.
    apply Permutation_map.
    eapply perm_trans; [|exact Hp]. rewrite <- Hcat at 5.
    repeat apply Permutation_app; apply sort_num_permutes.
  - assert (Hin : forall a b,
              Forall (fun i => 0 <= i < 32) (sort_num (slice a b s))).
    { intros a b. apply Forall_forall. intros x Hx.
      assert (Hs : In x s).
      { apply (Permutation_in _ (sort_num_permutes _)) in Hx.
        now apply in_slice in Hx. }
      apply (Permutation_in _ Hp) in Hs.
      unfold iota in Hs. apply in_map_iff in Hs as (n & <- & Hn).
      apply in_seq in Hn. lia. }
    repeat constructor; apply sorted_positions;
      auto using sort_num_sorted.
Qed.

Lemma deal_hands_out_the_deck_witness :
  exists hands,
    deal (fun _ => Double.third) = Some hands /\
    List.length hands = 4%nat.
Proof.
  destruct (@deal_hands_out_the_deck (fun _ => Double.third))
    as (h & E & H4 & _).
  - intros k. exists 6004799503160661, 54.
    repeat split; try reflexivity; discriminate.
  - exists h. split; [exact E|exact H4].
Defined.

(** X25. [dealByAssignment] gives every player eight cards: the 32 entries of
    the result name each of the players 0 to 3 exactly eight times. *)
Theorem dealByAssignment_is_fair (random : nat -> Q) :
  (forall k, Double.unit_double (random k)) ->
  exists seats,
    dealByAssignment random = Some seats /\
    List.length seats = 32%nat /\
    forall player,
      In player [0; 1; 2; 3] ->
      count_occ Z.eq_dec seats player = 8%nat.
Proof.
  intros Hr.
  set (l := List.concat (map (fun i : Z => repeat i 8) [0; 1; 2; 3])).
  change (dealByAssignment random) with (shuffleArray random l).
  destruct (@shuffle_loop_permutes Z random Hr (List.length l - 1) 0 l)
    as (s & Es & Hp); [lia|].
  exists s. split; [exact Es|].
  split; [rewrite (Permutation_length Hp); reflexivity|].
  intros player Hin.
  rewrite (proj1 (Permutation_count_occ Z.eq_dec _ _) Hp).
  simpl in Hin. destruct Hin as [<-|[<-|[<-|[<-|[]]]]]; reflexivity.
Qed.

Lemma dealByAssignment_is_fair_witness :
  exists seats,
    dealByAssignment (fun _ => 1 # 2) = Some seats /\
    List.length seats = 32%nat.
Proof.
  destruct (@dealByAssignment_is_fair (fun _ => 1 # 2)) as (s & E & H & _).
  - intros k. exists 1, 1. repeat split; try reflexivity; discriminate.
  - exists s. split; [exact E|exact H].
Defined.

End CardFacts.

(** ** DivergingGraph: events and removal *)

Section GraphEvents.
Import DivergingGraph GraphSpec GraphInv.

Lemma set_furthestNode_event (node : value) (g : t) :
  (fst (set_furthestNode node g) = g /\ snd (set_furthestNode node g) = [] /\
   node = furthestNode g) \/
  (node <> furthestNode g /\
   snd (set_furthestNode node g)
   = [advance node (JsMap.get node (nodeInfo g))]).
Proof.
  unfold set_furthestNode.
  destruct (value_eqb_spec node (furthestNode g)); [left|right]; auto.
Qed.

Ltac quiet := simpl; left; split; [assumption || reflexivity|reflexivity].

(** X4. An ['advance'] event is dispatched exactly when a call changes
    [furthestNode]: a call that leaves it alone emits nothing, and a call
    that changes it emits one event, which names the new furthest node and
    carries the distance and arrival order that node has afterwards. This
    holds for calls that return and for calls that throw. *)
Theorem advance_exactly_on_change (fuel : nat) (o : op) (g : t) :
  let g' := snd (fst (exec fuel o g)) in
  let evs := snd (exec fuel o g) in
  (furthestNode g' = furthestNode g /\ evs = []) \/
  (furthestNode g' <> furthestNode g /\
   exists i,
     evs = [advance (furthestNode g') i] /\
     option_map rank i
     = option_map rank (JsMap.get (furthestNode g') (nodeInfo g'))).
Proof.
  destruct o as [s x d|x|k]; simpl; cbv zeta.
  - unfold addEdge.
    assert (HF1 : furthestNode (enter_source s g) = furthestNode g)
      by (unfold enter_source; destruct (JsMap.has s (nodeInfo g));
          reflexivity).
    set (g1 := enter_source s g) in *.
    destruct (JsMap.get s (nodeInfo g1)) as [si|]; [|quiet].
    destruct (JsMap.get x (nodeInfo g1)) as [cur|] eqn:Hcur.
    + destruct (truthy (source cur) || negb (distance cur =? 0));
        [quiet|].
      destruct (mark_paths fuel (nodeInfo g1) (heads g1) _)
        as [[| |] follows]; try quiet.
      destruct (raise_distances _ _ _) as [[| |] ni2]; try quiet.
      destruct (reduce_further _ _ _) as [f|]; [|quiet].
      pose proof (set_furthestNode_state f (with_nodeInfo ni2 g1)) as HS.
      pose proof (set_furthestNode_event f (with_nodeInfo ni2 g1)) as HE.
      destruct (set_furthestNode f (with_nodeInfo ni2 g1)) as [g3 evs3].
      simpl in HS, HE. destruct HS as (Hni3 & _ & _ & Hf3).
      rewrite Hni3.
      destruct HE as [(-> & -> & ->)|(Hne & ->)].
      * left. destruct (JsMap.get x ni2); simpl; auto.
      * right. rewrite <- HF1.
        destruct (JsMap.get x ni2) as [ti|] eqn:Hti; simpl; rewrite Hf3.
        -- split; [assumption|]. eexists. split; [reflexivity|].
           rewrite get_set.
           destruct (value_eqb_spec x f) as [->|]; [|reflexivity].
           now rewrite Hti.
        -- split; [assumption|]. eexists. split; [reflexivity|].
           now rewrite Hni3.
    + simpl.
      destruct (JsMap.get (furthestNode g1) _) as [fi|]; [|quiet].
      destruct (distance si + 1 >? distance fi); [|quiet].
      match goal with
      | |- context [set_furthestNode x ?g2] =>
          pose proof (set_furthestNode_state x g2) as HS;
          pose proof (set_furthestNode_event x g2) as HE;
          destruct (set_furthestNode x g2) as [g3 evs3]
      end.
      simpl in HS, HE. destruct HS as (Hni3 & _ & _ & Hf3).
      destruct HE as [(-> & -> & Hx)|(Hne & ->)]; simpl.
      * left. auto.
      * right. rewrite <- HF1, Hf3. split; [assumption|].
        eexists. split; [reflexivity|]. now rewrite Hni3.
  - unfold removeNode. simpl.
    destruct (value_eqb x (furthestNode g)); [|quiet].
    destruct (reduce_further _ _ _) as [f|]; [|quiet].
    match goal with
    | |- context [set_furthestNode f ?g1] =>
        pose proof (set_furthestNode_state f g1) as HS;
        pose proof (set_furthestNode_event f g1) as HE;
        destruct (set_furthestNode f g1) as [g2 evs2]
    end.
    simpl in HS, HE. destruct HS as (Hni2 & _ & _ & Hf2).
    destruct HE as [(-> & -> & Hx)|(Hne & ->)]; simpl.
    + left. auto.
    + right. rewrite Hf2. split; [assumption|].
      eexists. split; [reflexivity|]. now rewrite Hni2.
  - unfold prune.
    destruct (JsMap.get VNull (nodeInfo g)); [|quiet].
    destruct (score_heads fuel (nodeInfo g) (heads g) _) as [[| |] scores];
      try quiet.
    destruct (k <? size g); quiet.
Qed.

Lemma removeNode_state (target : value) (g : t) :
  let g' := snd (fst (removeNode target g)) in
  JsMap.get target (nodeInfo g') = None /\
  (forall k, k <> target ->
     JsMap.get k (nodeInfo g')
     = option_map
         (fun j => if value_eqb (source j) target
                   then with_source VNull j else j)
         (JsMap.get k (nodeInfo g))) /\
  (forall k j, JsMap.get k (nodeInfo g') = Some j ->
     source j = target -> target = VNull) /\
  heads g' = heads g /\ counter g' = counter g.
Proof.
  pose (clear := fun j : info =>
                   if value_eqb (source j) target
                   then with_source VNull j else j).
  assert (Hni : nodeInfo (snd (fst (removeNode target g)))
                = map (fun e => (fst e, clear (snd e)))
                    (JsMap.delete target (nodeInfo g)) /\
                heads (snd (fst (removeNode target g))) = heads g /\
                counter (snd (fst (removeNode target g))) = counter g).
  { unfold removeNode. simpl.
    destruct (value_eqb target (furthestNode g)); [|auto].
    destruct (reduce_further _ _ _) as [f|]; [|auto].
    match goal with
    | |- context [set_furthestNode f ?g1] =>
        pose proof (set_furthestNode_state f g1) as HS;
        destruct (set_furthestNode f g1) as [g2 evs2]
    end.
    simpl in *. destruct HS as (-> & -> & -> & _). auto. }
  destruct Hni as (Hni & Hh & Hc). cbv zeta.
  rewrite Hni, Hh, Hc.
  assert (Hget : forall k,
            JsMap.get k
              (map (fun e => (fst e, clear (snd e)))
                 (JsMap.delete target (nodeInfo g)))
            = if value_eqb target k then None
              else option_map clear (JsMap.get k (nodeInfo g))).
  { intros k. rewrite get_map_values, get_delete.
    now destruct (value_eqb target k). }
  split; [|split; [|split; [|auto]]].
  - rewrite Hget. now rewrite value_eqb_refl.
  - intros k Hk. rewrite Hget.
    destruct (value_eqb_spec target k); [congruence|reflexivity].
  - intros k j. rewrite Hget.
    destruct (value_eqb target k); [discriminate|].
    destruct (JsMap.get k (nodeInfo g)) as [j0|]; [|discriminate].
    simpl. intros E. injection E as <-. unfold clear.
    destruct (value_eqb_spec (source j0) target); simpl; congruence.
Qed.

(** X5. After [removeNode(target)], whether it returned or threw, [target] is
    not in the graph and is no node's source unless it is [null]; every
    other node is still there with its distance, arrival order and data,
    and with its source, or [null] where the source was [target]. Heads
    and counter are as before. *)
Theorem removeNode_leaves_the_rest (target : value) (g : t) :
  let g' := snd (fst (removeNode target g)) in
  JsMap.get target (nodeInfo g') = None /\
  (forall k, k <> target ->
     JsMap.get k (nodeInfo g')
     = option_map
         (fun j => if value_eqb (source j) target
                   then with_source VNull j else j)
         (JsMap.get k (nodeInfo g))) /\
  (forall k j, JsMap.get k (nodeInfo g') = Some j ->
     source j = target -> target = VNull) /\
  heads g' = heads g /\ counter g' = counter g.
Proof.
  destruct (removeNode_state target g) as (Hgone & Hother & Hsrc & Hh & Hc).
  cbv zeta in *. repeat split; assumption.
Qed.

End GraphEvents.

(** ** DivergingGraph: bookkeeping invariants *)

Section GraphBookkeeping.
Import DivergingGraph GraphSpec GraphInv.

Lemma get_None_keys (V : Type) (k : value) (m : JsMap.t V) :
  JsMap.get k m = None <-> ~ In k (JsMap.keys m).
Proof.
  induction m as [|[k' v] m IH]; simpl; [tauto|].
  destruct (value_eqb_spec k k') as [->|Hne].
  - split; [discriminate|]. intros H. exfalso. apply H. now left.
  - rewrite IH. split; [intros H [E|E]; congruence || auto|tauto].
Qed.

Lemma get_In (V : Type) (k : value) (v : V) (m : JsMap.t V) :
  JsMap.get k m = Some v -> In (k, v) m.
Proof.
  induction m as [|[k' v'] m IH]; simpl; [discriminate|].
  destruct (value_eqb_spec k k') as [->|]; [|auto].
  intros E. injection E as ->. now left.
Qed.

Lemma In_get (V : Type) (k : value) (v : V) (m : JsMap.t V) :
  NoDup (JsMap.keys m) -> In (k, v) m -> JsMap.get k m = Some v.
Proof.
  induction m as [|[k' v'] m IH]; simpl; [tauto|].
  intros Hnd [E|Hin].
  - injection E as -> ->. now rewrite value_eqb_refl.
  - inversion Hnd as [|? ? Hnin Hnd']; subst.
    destruct (value_eqb_spec k k') as [->|]; [|auto].
    exfalso. apply Hnin. change k' with (fst (k', v)).
    now apply in_map.
Qed.

Lemma keys_set_present (V : Type) (k : value) (v : V) (m : JsMap.t V) :
  JsMap.get k m <> None -> JsMap.keys (JsMap.set k v m) = JsMap.keys m.
Proof.
  induction m as [|[k' v'] m IH]; simpl; [congruence|].
  destruct (value_eqb k k'); simpl; [reflexivity|].
  intros H. now rewrite IH.
Qed.

Lemma keys_set_absent (V : Type) (k : value) (v : V) (m : JsMap.t V) :
  JsMap.get k m = None -> JsMap.keys (JsMap.set k v m) = JsMap.keys m ++ [k].
Proof.
  intros H. rewrite set_absent by assumption.
  unfold JsMap.keys. now rewrite map_app.
Qed.

Lemma of_entries_unique (V : Type) (l : list (value * V)) :
  NoDup (map fst l) -> JsMap.of_entries l = l.
Proof.
  unfold JsMap.of_entries.
  assert (H : forall acc,
            NoDup (map fst (acc ++ l)) ->
            fold_left (fun m e => JsMap.set (fst e) (snd e) m) l acc
            = acc ++ l).
  { induction l as [|[k v] l IH]; intros acc Hnd; simpl.
    - now rewrite app_nil_r.
    - rewrite set_absent.
      + rewrite IH; rewrite <- app_assoc; [reflexivity|exact Hnd].
      + apply get_None_keys. unfold JsMap.keys.
        rewrite map_app in Hnd. simpl in Hnd.
        apply NoDup_remove_2 in Hnd. intros Hin. apply Hnd.
        apply in_or_app. now left. }
  intros Hnd. now apply (H []).
Qed.

Lemma splice_unique (A : Type) (a : nat) :
  forall (b : nat) (l : list A),
    (a <= b)%nat -> NoDup l -> NoDup (firstn a l ++ skipn b l).
Proof.
  induction a as [|a IH]; intros b l Hab Hnd.
  - simpl. rewrite <- (firstn_skipn b l) in Hnd.
    now apply NoDup_app_remove_l in Hnd.
  - destruct l as [|x l]; [now rewrite skipn_nil|].
    destruct b as [|b]; [lia|]. simpl.
    inversion Hnd as [|? ? Hnin Hnd']; subst.
    constructor; [|apply IH; [lia|assumption]].
    intros Hin. apply Hnin. apply in_app_or in Hin as [Hin|Hin].
    + rewrite <- (firstn_skipn a l). apply in_or_app. now left.
    + rewrite <- (firstn_skipn b l). apply in_or_app. now right.
Qed.

Lemma splice_incl (A : Type) (x : A) (a b : nat) (l : list A) :
  In x (firstn a l ++ skipn b l) -> In x l.
Proof.
  intros Hin. apply in_app_or in Hin as [Hin|Hin].
  - rewrite <- (firstn_skipn a l). apply in_or_app. now left.
  - rewrite <- (firstn_skipn b l). apply in_or_app. now right.
Qed.

Lemma insert_by_t_permutes (e : value * info) (l : list (value * info)) :
  Permutation (insert_by_t e l) (e :: l).
Proof.
  induction l as [|e' l IH]; simpl; [reflexivity|].
  destruct (_t (snd e) <=? _t (snd e')); [reflexivity|].
  eapply perm_trans; [apply perm_skip, IH|apply perm_swap].
Qed.

Lemma sort_by_t_permutes (l : list (value * info)) :
  Permutation (sort_by_t l) l.
Proof.
  induction l as [|e l IH]; simpl; [reflexivity|].
  eapply perm_trans; [apply insert_by_t_permutes|now apply perm_skip].
Qed.

(** Entries that come from [ni], with their arrival orders and with
    distances that did not shrink, under keys that occur once, keep the
    bookkeeping. *)
Lemma ok_from (ni ni' : JsMap.t info) (c c' : Z) :
  ok ni c ->
  c <= c' ->
  unique_keys ni' ->
  (forall k j', JsMap.get k ni' = Some j' ->
     exists j, JsMap.get k ni = Some j /\ _t j' = _t j /\
               distance j <= distance j') ->
  ok ni' c'.
Proof.
  intros (Hu & Hf & Hd & Hb) Hc Hu' Hfrom.
  split; [assumption|]. split; [|split].
  - intros k j' Hk. destruct (Hfrom k j' Hk) as (j & Hj & Ht & _).
    apply Hf in Hj. lia.
  - intros k1 k2 j1 j2 H1 H2 Ht.
    destruct (Hfrom _ _ H1) as (i1 & Hi1 & Ht1 & _).
    destruct (Hfrom _ _ H2) as (i2 & Hi2 & Ht2 & _).
    apply (Hd k1 k2 i1 i2); congruence.
  - intros k j' Hk. destruct (Hfrom k j' Hk) as (j & Hj & _ & Hle).
    apply Hb in Hj. lia.
Qed.

Lemma grown_from_refl (ni : JsMap.t info) : grown_from ni ni.
Proof.
  split; [reflexivity|]. intros k j H. exists j. repeat split; auto; lia.
Qed.

Lemma grown_from_trans (a b c : JsMap.t info) :
  grown_from a b -> grown_from b c -> grown_from a c.
Proof.
  intros [Hk1 H1] [Hk2 H2]. split; [congruence|].
  intros k j Hj. destruct (H2 k j Hj) as (j2 & Hj2 & Ht2 & Hd2).
  destruct (H1 k j2 Hj2) as (j1 & Hj1 & Ht1 & Hd1).
  exists j1. repeat split; [assumption|congruence|lia].
Qed.

Lemma grown_from_set (ni : JsMap.t info) (k : value) (i i' : info) :
  JsMap.get k ni = Some i ->
  _t i' = _t i -> distance i <= distance i' ->
  grown_from ni (JsMap.set k i' ni).
Proof.
  intros Hk Ht Hd. split.
  - apply keys_set_present. congruence.
  - intros k' j'. rewrite get_set.
    destruct (value_eqb_spec k k') as [<-|].
    + intros E. injection E as <-. exists i. auto.
    + intros E. exists j'. repeat split; auto; lia.
Qed.

Lemma ok_grown (ni ni' : JsMap.t info) (c c' : Z) :
  ok ni c -> c <= c' -> grown_from ni ni' -> ok ni' c'.
Proof.
  intros Hok Hc [Hkeys Hfrom].
  apply (ok_from Hok Hc); [|assumption].
  unfold unique_keys. rewrite Hkeys. apply Hok.
Qed.

Lemma raise_distances_grows (d : Z) (ns : list value) :
  0 <= d ->
  forall ni, grown_from ni (snd (raise_distances ns d ni)).
Proof.
  intros Hd. induction ns as [|n ns IH]; intros ni; simpl.
  - apply grown_from_refl.
  - destruct (JsMap.get n ni) as [i|] eqn:Hn; [|apply grown_from_refl].
    eapply grown_from_trans; [|apply IH].
    eapply grown_from_set; [exact Hn|reflexivity|simpl; lia].
Qed.

(** A fresh key that arrives under the counter keeps the bookkeeping. *)
Lemma ok_insert (ni : JsMap.t info) (c : Z) (k : value) (i : info) :
  ok ni c ->
  JsMap.get k ni = None ->
  _t i = c -> -1 <= distance i ->
  ok (JsMap.set k i ni) (c + 1).
Proof.
  intros (Hu & Hf & Hd & Hb) Hk Ht Hdist.
  split; [|split; [|split]].
  - unfold unique_keys. rewrite keys_set_absent by assumption.
    apply NoDup_app; [assumption|repeat constructor; intros []|].
    intros a Ha [E|[]]. subst a.
    apply (proj1 (get_None_keys k ni)) in Hk. contradiction.
  - intros k' j. rewrite get_set. destruct (value_eqb k k').
    + intros E. injection E as <-. lia.
    + intros E. apply Hf in E. lia.
  - intros k1 k2 j1 j2. rewrite !get_set.
    destruct (value_eqb_spec k k1) as [<-|], (value_eqb_spec k k2) as [<-|];
      intros E1 E2 Heq; auto.
    + injection E1 as <-. apply Hf in E2. lia.
    + injection E2 as <-. apply Hf in E1. lia.
    + now apply (Hd k1 k2 j1 j2).
  - intros k' j. rewrite get_set. destruct (value_eqb k k').
    + intros E. now injection E as <-.
    + apply Hb.
Qed.

Lemma enter_source_ok (s : value) (g : t) :
  graph_ok g -> graph_ok (enter_source s g).
Proof.
  intros Hok. unfold enter_source, graph_ok.
  destruct (JsMap.has s (nodeInfo g)) eqn:Hs; simpl; [exact Hok|].
  apply has_false in Hs. apply ok_insert; simpl; auto; lia.
Qed.

Lemma addEdge_ok (fuel : nat) (s x d : value) (g : t) :
  graph_ok g -> graph_ok (snd (fst (addEdge fuel s x d g))).
Proof.
  intros Hok0. apply (enter_source_ok s) in Hok0. unfold addEdge.
  set (g1 := enter_source s g) in *.
  destruct (JsMap.get s (nodeInfo g1)) as [si|] eqn:Hsi; [|exact Hok0].
  assert (Htd : 0 <= distance si + 1).
  { destruct Hok0 as (_ & _ & _ & Hb). apply Hb in Hsi. lia. }
  destruct (JsMap.get x (nodeInfo g1)) as [cur|] eqn:Hcur.
  - destruct (truthy (source cur) || negb (distance cur =? 0));
      [exact Hok0|].
    destruct (mark_paths fuel (nodeInfo g1) (heads g1) _)
      as [c follows].
    assert (Hraise := raise_distances_grows
                        (map fst (filter snd follows)) Htd (nodeInfo g1)).
    destruct c; try exact Hok0.
    destruct (raise_distances _ _ _) as [c ni2]. simpl in Hraise.
    assert (Hok2 : ok ni2 (counter g1))
      by (eapply ok_grown; [exact Hok0|lia|exact Hraise]).
    destruct c; try exact Hok2.
    destruct (reduce_further _ _ _) as [f|]; [|exact Hok2].
    pose proof (set_furthestNode_state f (with_nodeInfo ni2 g1)) as HS.
    destruct (set_furthestNode f (with_nodeInfo ni2 g1)) as [g3 evs3].
    simpl in HS. destruct HS as (Hni3 & _ & Hc3 & _).
    destruct (JsMap.get x (nodeInfo g3)) as [ti|] eqn:Hti; simpl.
    + unfold graph_ok. simpl. rewrite Hc3, Hni3 in *.
      eapply ok_grown; [exact Hok2|lia|].
      eapply grown_from_set; [exact Hti|reflexivity|simpl; lia].
    + unfold graph_ok. now rewrite Hc3, Hni3.
  - assert (Hok2 : ok (JsMap.set x
                          (mkInfo s (distance si + 1) (counter g1) d)
                          (nodeInfo g1)) (counter g1 + 1))
      by (apply ok_insert; simpl; auto; lia).
    simpl.
    destruct (JsMap.get (furthestNode g1) _) as [fi|]; [|exact Hok2].
    destruct (distance si + 1 >? distance fi); [|exact Hok2].
    match goal with
    | |- context [set_furthestNode x ?g2] =>
        pose proof (set_furthestNode_state x g2) as HS;
        destruct (set_furthestNode x g2) as [g3 evs3]
    end.
    simpl in HS. destruct HS as (Hni3 & _ & Hc3 & _).
    unfold graph_ok. simpl. now rewrite Hni3, Hc3.
Qed.

Lemma removeNode_ok (x : value) (g : t) :
  graph_ok g -> graph_ok (snd (fst (removeNode x g))).
Proof.
  intros Hok.
  destruct (removeNode_state x g) as (Hx & Hother & _ & _ & Hc).
  cbv zeta in *.
  unfold graph_ok. rewrite Hc.
  apply (ok_from Hok (Z.le_refl _)).
  - assert (Hkeys : JsMap.keys (nodeInfo (snd (fst (removeNode x g))))
                    = filter (fun k => negb (value_eqb x k))
                        (JsMap.keys (nodeInfo g))).
    { unfold removeNode. simpl.
      assert (E : forall (f : info -> info) (m : JsMap.t info),
                JsMap.keys (map (fun e => (fst e, f (snd e)))
                              (JsMap.delete x m))
                = filter (fun k => negb (value_eqb x k)) (JsMap.keys m)).
      { intros f m. unfold JsMap.keys, JsMap.delete.
        rewrite map_map. simpl.
        induction m as [|[k v] m IH]; simpl; [reflexivity|].
        destruct (value_eqb x k); simpl; now rewrite IH. }
      destruct (value_eqb x (furthestNode g)).
      - destruct (reduce_further _ _ _) as [f|].
        + match goal with
          | |- context [set_furthestNode f ?g1] =>
              pose proof (set_furthestNode_state f g1) as HS;
              destruct (set_furthestNode f g1) as [g2 evs2]
          end.
          simpl in *. destruct HS as (-> & _).
          apply (E (fun i => if value_eqb (source i) x
                             then with_source VNull i else i)).
        + apply (E (fun i => if value_eqb (source i) x
                             then with_source VNull i else i)).
      - apply (E (fun i => if value_eqb (source i) x
                           then with_source VNull i else i)). }
    unfold unique_keys. rewrite Hkeys. apply NoDup_filter. apply Hok.
  - intros k j' Hk.
    destruct (value_eqb_spec k x) as [->|Hne]; [congruence|].
    rewrite (Hother k Hne) in Hk.
    destruct (JsMap.get k (nodeInfo g)) as [j|] eqn:Hj; [|discriminate].
    simpl in Hk. injection Hk as <-. exists j.
    destruct (value_eqb (source j) x); unfold with_source; simpl;
      repeat split; auto; lia.
Qed.

Lemma prune_ok (fuel : nat) (k : Z) (g : t) :
  graph_ok g -> graph_ok (snd (fst (prune fuel k g))).
Proof.
  intros Hok. unfold prune.
  destruct (JsMap.get VNull (nodeInfo g)); [|exact Hok].
  destruct (score_heads fuel (nodeInfo g) (heads g) _) as [[| |] scores];
    try exact Hok.
  destruct (k <? size g); [|exact Hok].
  simpl. unfold graph_ok. simpl.
  assert (Hu : NoDup (map fst (toSpliced 1 (size g - k)
                                 (sort_by_t (nodeInfo g))))).
  { unfold toSpliced. cbv zeta. change (1 <? 0) with false. cbv iota.
    rewrite map_app, <- firstn_map, <- skipn_map.
    apply splice_unique; [lia|].
    apply (Permutation_NoDup
             (Permutation_sym (Permutation_map fst
                                 (sort_by_t_permutes (nodeInfo g))))).
    apply Hok. }
  rewrite of_entries_unique by assumption.
  apply (ok_from Hok (Z.le_refl _)); [exact Hu|].
  intros k' j' Hk'. exists j'. repeat split; try lia.
  apply In_get; [apply Hok|].
  apply get_In in Hk'. unfold toSpliced in Hk'. cbv zeta in Hk'.
  apply splice_incl in Hk'.
  now apply (Permutation_in _ (sort_by_t_permutes (nodeInfo g))).
Qed.

Lemma new_ok : graph_ok new.
Proof.
  split; [|split; [|split]].
  - repeat constructor. intros [].
  - intros k j. unfold new. simpl.
    destruct (value_eqb k VNull); [|discriminate].
    intros E. injection E as <-. simpl. lia.
  - intros k1 k2 j1 j2. unfold new. simpl.
    destruct (value_eqb_spec k1 VNull), (value_eqb_spec k2 VNull);
      try discriminate. congruence.
  - intros k j. unfold new. simpl.
    destruct (value_eqb k VNull); [|discriminate].
    intros E. injection E as <-. simpl. lia.
Qed.

Lemma exec_ok (fuel : nat) (o : op) (g : t) :
  graph_ok g -> graph_ok (snd (fst (exec fuel o g))).
Proof.
  destruct o as [s x d|x|k]; simpl.
  - apply addEdge_ok.
  - apply removeNode_ok.
  - apply prune_ok.
Qed.

Lemma reachable_ok (g : t) : reachable g -> graph_ok g.
Proof.
  induction 1 as [|fuel o g c g' evs _ IH He]; [apply new_ok|].
  replace g' with (snd (fst (exec fuel o g))) by now rewrite He.
  now apply exec_ok.
Qed.

(** X6. In every state a graph can reach, through calls that return and calls
    that throw, the arrival orders of the nodes are pairwise distinct and
    below the counter, and no distance is below the sentinel's -1: the
    tie-break of the furthest node never meets two equal arrival
    orders. *)
Theorem arrival_orders_are_distinct (g : t) :
  reachable g ->
  arrivals_distinct (nodeInfo g) /\ arrivals_fresh g /\
  distances_bounded (nodeInfo g) /\ unique_keys (nodeInfo g).
Proof.
  intros Hr. destruct (reachable_ok Hr) as (Hu & Hf & Hd & Hb). auto.
Qed.


Lemma arrival_orders_are_distinct_witness :
  arrivals_distinct (nodeInfo graph_AB).
Proof.
  refine (proj1 (@arrival_orders_are_distinct graph_AB _)).
  apply (@reach_step 0 (AddEdge A_ B_ VUndefined) new Normal graph_AB
           [advance B_ (Some (mkInfo A_ 1 2 VUndefined))] reach_new).
  reflexivity.
Defined.

Lemma run_reachable (fuel : nat) (ops : list op) :
  forall g0 c g, reachable g0 -> run fuel ops g0 = (c, g) -> reachable g.
Proof.
  induction ops as [|o ops IH]; intros g0 c g Hr H; simpl in H.
  - now injection H as _ <-.
  - destruct (exec fuel o g0) as [[c1 g1] evs] eqn:He.
    assert (Hr1 : reachable g1) by (eapply reach_step; eassumption).
    destruct c1; [eapply IH; eassumption| |];
      injection H as _ <-; exact Hr1.
Qed.

(** X7. After every run of calls that all return and keep the sentinel, the
    furthest node is the only maximum: every other node of the graph has
    a smaller distance, or the same distance and a strictly later arrival
    order. *)
Theorem furthest_is_the_only_maximum (fuel : nat) (ops : list op) (g : t) :
  Forall keeps_root ops ->
  run fuel ops new = (Normal, g) ->
  exists fi,
    JsMap.get (furthestNode g) (nodeInfo g) = Some fi /\
    forall k j,
      k <> furthestNode g ->
      JsMap.get k (nodeInfo g) = Some j ->
      distance j < distance fi \/
      (distance j = distance fi /\ _t fi < _t j).
Proof.
  intros Hops Hrun.
  destruct (run_well_formed _ Hops new_well_formed Hrun)
    as (_ & _ & fi & HF & Hbest).
  destruct (reachable_ok (run_reachable _ _ reach_new Hrun))
    as (_ & _ & Hd & _).
  exists fi. split; [assumption|].
  intros k j Hk Hj.
  destruct (Hbest k j Hj) as [Hlt|[Heq Hle]]; [now left|].
  right. split; [assumption|].
  assert (_t fi <> _t j); [|lia].
  intros Ht. apply Hk. symmetry.
  exact (Hd _ _ _ _ HF Hj Ht).
Qed.

Lemma furthest_is_the_only_maximum_witness :
  exists fi,
    JsMap.get (furthestNode (snd (run 9 test_ops new)))
      (nodeInfo (snd (run 9 test_ops new))) = Some fi /\
    forall k j,
      k <> furthestNode (snd (run 9 test_ops new)) ->
      JsMap.get k (nodeInfo (snd (run 9 test_ops new))) = Some j ->
      distance j < distance fi \/
      (distance j = distance fi /\ _t fi < _t j).
Proof.
  apply (@furthest_is_the_only_maximum 9 test_ops).
  - repeat constructor; discriminate.
  - reflexivity.
Defined.


Lemma insert_by_t_sorted (e : value * info) (l : list (value * info)) :
  Sorted (fun a b => _t (snd a) <= _t (snd b)) l ->
  Sorted (fun a b => _t (snd a) <= _t (snd b)) (insert_by_t e l).
Proof.
  induction 1 as [|e' l Hs IH Hhd]; simpl.
  - repeat constructor.
  - destruct (Z.leb_spec (_t (snd e)) (_t (snd e'))).
    + repeat constructor; assumption.
    + constructor; [assumption|].
      destruct l as [|e2 l]; simpl in *.
      * constructor. lia.
      * destruct (Z.leb_spec (_t (snd e)) (_t (snd e2)));
          constructor; try lia.
        now inversion Hhd.
Qed.

Lemma sort_by_t_sorted (l : list (value * info)) :
  Sorted (fun a b => _t (snd a) <= _t (snd b)) (sort_by_t l).
Proof.
  induction l as [|e l IH]; simpl; [constructor|].
  now apply insert_by_t_sorted.
Qed.

Lemma toSpliced_oldest (A : Type) (l : list A) (size maxSize : Z) :
  size = Z.of_nat (List.length l) - 1 ->
  0 <= maxSize < size ->
  toSpliced 1 (size - maxSize) l
  = firstn 1 l ++ skipn (List.length l - Z.to_nat maxSize) l.
Proof.
  intros Hs Hk. unfold toSpliced. cbv zeta.
  change (1 <? 0) with false. cbv iota.
  replace (Z.to_nat (Z.min 1 (Z.of_nat (List.length l)))) with 1%nat by lia.
  replace (Z.to_nat
             (Z.min 1 (Z.of_nat (List.length l)) +
              Z.min (Z.max (size - maxSize) 0)
                (Z.of_nat (List.length l) -
                 Z.min 1 (Z.of_nat (List.length l)))))
    with (List.length l - Z.to_nat maxSize)%nat by lia.
  reflexivity.
Qed.

Lemma prune_kept (maxSize : Z) (g : t) :
  unique_keys (nodeInfo g) ->
  0 <= maxSize < size g ->
  JsMap.of_entries
    (toSpliced 1 (size g - maxSize) (sort_by_t (nodeInfo g)))
  = firstn 1 (sort_by_t (nodeInfo g))
    ++ skipn (List.length (sort_by_t (nodeInfo g)) - Z.to_nat maxSize)
         (sort_by_t (nodeInfo g)).
Proof.
  intros Hu Hk.
  assert (Hperm := sort_by_t_permutes (nodeInfo g)).
  assert (Hlen := Permutation_length Hperm).
  rewrite (@toSpliced_oldest _ _ (size g) maxSize);
    [|unfold size; now rewrite Hlen|assumption].
  apply of_entries_unique.
  rewrite map_app, <- firstn_map, <- skipn_map.
  unfold size in Hk.
  apply splice_unique; [lia|].
  apply (Permutation_NoDup
           (Permutation_sym (Permutation_map fst Hperm))). exact Hu.
Qed.

Lemma prune_state (fuel : nat) (maxSize : Z) (g : t) :
  unique_keys (nodeInfo g) ->
  0 <= maxSize < size g ->
  snd (fst (prune fuel maxSize g)) = g \/
  snd (fst (prune fuel maxSize g))
  = with_nodeInfo
      (firstn 1 (sort_by_t (nodeInfo g))
       ++ skipn (List.length (sort_by_t (nodeInfo g)) - Z.to_nat maxSize)
            (sort_by_t (nodeInfo g))) g.
Proof.
  intros Hu Hk. unfold prune.
  destruct (JsMap.get VNull (nodeInfo g)); [|now left].
  destruct (score_heads fuel (nodeInfo g) (heads g) _)
    as [[| |] scores]; try (now left).
  destruct (Z.ltb_spec maxSize (size g)); [|lia].
  simpl. right. now rewrite prune_kept.
Qed.

(** X8. What [prune] leaves behind when [maxSize] is below the size. The call
    never returns normally, and never touches [heads], [furthestNode] or
    the counter. Either the walk over the heads fails and [nodeInfo] is as
    before, or [nodeInfo] has been replaced by the entry of least arrival
    order followed by the [maxSize] entries of greatest arrival order, in
    arrival order. The second case is what happens, with enough fuel, when
    the sentinel is there and the chain of sources of every head reaches
    it. *)
Theorem prune_keeps_the_newest (fuel : nat) (maxSize : Z) (g : t) :
  unique_keys (nodeInfo g) ->
  0 <= maxSize < size g ->
  let sorted := sort_by_t (nodeInfo g) in
  let kept :=
    firstn 1 sorted ++ skipn (List.length sorted - Z.to_nat maxSize) sorted in
  let g' := snd (fst (prune fuel maxSize g)) in
  Permutation sorted (nodeInfo g) /\
  Sorted (fun a b => _t (snd a) <= _t (snd b)) sorted /\
  Z.of_nat (List.length kept) - 1 = maxSize /\
  fst (fst (prune fuel maxSize g)) <> Normal /\
  (g' = g \/ g' = with_nodeInfo kept g) /\
  (has_root g ->
   (forall h, In h (heads g) -> exists d, anchored (nodeInfo g) h d) ->
   exists fuel',
     prune fuel' maxSize g = (Throw TypeError, with_nodeInfo kept g, [])).
Proof.
  intros Hu Hk sorted kept g'.
  assert (Hperm : Permutation sorted (nodeInfo g))
    by apply sort_by_t_permutes.
  assert (Hlen : List.length sorted = List.length (nodeInfo g))
    by now apply Permutation_length.
  assert (Hlt : (maxSize <? size g) = true)
    by (apply Z.ltb_lt; lia).
  split; [exact Hperm|]. split; [apply sort_by_t_sorted|].
  split.
  { unfold kept. unfold size in Hk.
    rewrite length_app, length_firstn, length_skipn. lia. }
  split; [apply prune_below_size_fails; lia|].
  split; [now apply prune_state|].
  intros [r Hr] Hheads.
  destruct (anchored_bound _ Hheads) as (fuel' & Hfuel).
  exists fuel'. unfold prune. rewrite Hr.
  assert (H0 : JsMap.get VNull [(VNull, distance r + _t r)] <> None)
    by discriminate.
  destruct (@score_heads_normal _ _ _ Hfuel _ H0) as (scores' & ->).
  rewrite Hlt. simpl. now rewrite prune_kept.
Qed.

Lemma prune_keeps_the_newest_witness :
  snd (fst (prune 2 1 graph_AB))
  = with_nodeInfo [(VNull, root); (B_, mkInfo A_ 1 2 VUndefined)] graph_AB.
Proof.
  destruct (@prune_keeps_the_newest 2 1 graph_AB)
    as (_ & _ & _ & _ & [H|H] & _).
  - repeat constructor; simpl; intuition discriminate.
  - vm_compute. split; [discriminate|reflexivity].
  - reflexivity.
  - exact H.
Defined.


Lemma set_unique (V : Type) (k : value) (v : V) (m : JsMap.t V) :
  NoDup (JsMap.keys m) -> NoDup (JsMap.keys (JsMap.set k v m)).
Proof.
  intros Hnd. destruct (JsMap.get k m) eqn:E.
  - rewrite keys_set_present by congruence. exact Hnd.
  - rewrite keys_set_absent by assumption.
    apply NoDup_app; [assumption|repeat constructor; intros []|].
    intros a Ha [Ea|[]]. subst a.
    apply (proj1 (get_None_keys k m)) in E. contradiction.
Qed.

Lemma mark_paths_unique (fuel : nat) (ni : JsMap.t info) (hs : list value) :
  forall follows,
    NoDup (JsMap.keys follows) ->
    NoDup (JsMap.keys (snd (mark_paths fuel ni hs follows))).
Proof.
  induction hs as [|h hs IH]; intros follows Hnd; simpl; [assumption|].
  destruct (walk fuel ni follows h []) as [v path|c]; [|assumption].
  apply IH. clear IH. revert follows Hnd.
  induction path as [|n path IHp]; intros follows Hnd; simpl;
    [assumption|].
  apply IHp. now apply set_unique.
Qed.

Lemma unmarked_not_updated (k : value) (m : JsMap.t bool) :
  NoDup (JsMap.keys m) ->
  JsMap.get k m = Some false ->
  ~ In k (map fst (filter snd m)).
Proof.
  intros Hnd Hk Hin. apply in_map_iff in Hin as ([k' b] & Ek & Hin).
  simpl in Ek. subst k'. apply filter_In in Hin as [Hin Hb].
  simpl in Hb. subst b. apply (In_get _ _ _ Hnd) in Hin. congruence.
Qed.

Lemma initial_follows (x : value) :
  x <> VNull ->
  NoDup (JsMap.keys (JsMap.of_entries [(x, true); (VNull, false)])) /\
  JsMap.get VNull (JsMap.of_entries [(x, true); (VNull, false)])
  = Some false.
Proof.
  intros Hx. unfold JsMap.of_entries.
  destruct x as [| |str]; [|congruence|]; simpl; (split; [|reflexivity]);
    repeat constructor; simpl; intuition discriminate.
Qed.

Lemma raise_distances_other (d : Z) (k : value) (ns : list value) :
  ~ In k ns ->
  forall ni,
    JsMap.get k (snd (raise_distances ns d ni)) = JsMap.get k ni.
Proof.
  induction ns as [|n ns IH]; intros Hk ni; simpl; [reflexivity|].
  destruct (JsMap.get n ni) as [i|]; [|reflexivity].
  rewrite IH by (intros H; apply Hk; now right).
  apply get_set_other. intros ->. apply Hk. now left.
Qed.

Lemma sorted_head (r : info) (l : list (value * info)) :
  _t r = 0 ->
  In (VNull, r) l ->
  (forall e, In e l -> e = (VNull, r) \/ 1 <= _t (snd e)) ->
  exists rest, sort_by_t l = (VNull, r) :: rest.
Proof.
  intros Hr. induction l as [|e l IH]; intros Hin Hall; [destruct Hin|].
  simpl.
  assert (Hhd : forall e', In e' (sort_by_t l) -> In e' l) by
    (intros e'; apply (Permutation_in _ (sort_by_t_permutes l))).
  destruct (Hall e (or_introl eq_refl)) as [->|He].
  - destruct (sort_by_t l) as [|e' s'] eqn:Es; simpl; [eauto|].
    assert (Hin' : In e' l) by (apply Hhd; now left).
    cbn [snd]. destruct (_t r <=? _t (snd e')) eqn:Hle; [eauto|].
    apply Z.leb_gt in Hle. simpl in Hle.
    destruct (Hall e' (or_intror Hin')) as [->|He'];
      [simpl in Hle|]; lia.
  - destruct Hin as [->|Hin]; [simpl in He; lia|].
    destruct (IH Hin (fun e' H => Hall e' (or_intror H))) as (rest & ->).
    simpl. rewrite Hr.
    destruct (Z.leb_spec (_t (snd e)) 0); [lia|eauto].
Qed.

(** Entries that come from [ni] with their arrival orders, around an
    untouched sentinel, keep the sentinel in place. *)
Lemma rooted_from (ni ni' : JsMap.t info) (c c' : Z) :
  rooted ni c ->
  c <= c' ->
  (forall r, JsMap.get VNull ni = Some r ->
     exists r', JsMap.get VNull ni' = Some r' /\
                distance r' = distance r /\ _t r' = _t r) ->
  (forall k j', JsMap.get k ni' = Some j' ->
     exists j, JsMap.get k ni = Some j /\ _t j' = _t j) ->
  rooted ni' c'.
Proof.
  intros ((r & Hr & Hd & Ht) & Hrest & Hc) Hle Hroot Hfrom.
  split; [|split; [|lia]].
  - destruct (Hroot r Hr) as (r' & Hr' & Hd' & Ht').
    exists r'. repeat split; congruence.
  - intros k j' Hk Hj'. destruct (Hfrom k j' Hj') as (j & Hj & Htj).
    rewrite Htj. now apply (Hrest k).
Qed.

Lemma rooted_insert (ni : JsMap.t info) (c : Z) (k : value) (i : info) :
  rooted ni c ->
  JsMap.get k ni = None ->
  _t i = c ->
  rooted (JsMap.set k i ni) (c + 1).
Proof.
  intros ((r & Hr & Hd & Ht) & Hrest & Hc) Hk Hi.
  assert (Hne : k <> VNull) by congruence.
  split; [|split; [|lia]].
  - exists r. rewrite get_set_other by assumption. auto.
  - intros k' j Hk'. rewrite get_set.
    destruct (value_eqb k k').
    + intros E. injection E as <-. lia.
    + now apply Hrest.
Qed.

Lemma enter_source_rooted (s : value) (g : t) :
  rooted (nodeInfo g) (counter g) ->
  rooted (nodeInfo (enter_source s g)) (counter (enter_source s g)).
Proof.
  intros Hr. unfold enter_source.
  destruct (JsMap.has s (nodeInfo g)) eqn:Hs; simpl; [exact Hr|].
  apply has_false in Hs. now apply rooted_insert.
Qed.

Lemma rooted_grown (ni ni' : JsMap.t info) (c : Z) :
  rooted ni c ->
  grown_from ni ni' ->
  JsMap.get VNull ni' = JsMap.get VNull ni ->
  rooted ni' c.
Proof.
  intros Hr [_ Hfrom] Hroot.
  apply (@rooted_from _ _ _ _ Hr (Z.le_refl _)).
  - intros r E. exists r. rewrite Hroot. auto.
  - intros k j' Hj'. destruct (Hfrom k j' Hj') as (j & Hj & Htj & _).
    eauto.
Qed.

Lemma addEdge_rooted (fuel : nat) (s x d : value) (g : t) :
  rooted (nodeInfo g) (counter g) ->
  rooted (nodeInfo (snd (fst (addEdge fuel s x d g))))
         (counter (snd (fst (addEdge fuel s x d g)))).
Proof.
  intros Hr0. apply (enter_source_rooted s) in Hr0. unfold addEdge.
  set (g1 := enter_source s g) in *.
  destruct (JsMap.get s (nodeInfo g1)) as [si|] eqn:Hsi; [|exact Hr0].
  destruct (JsMap.get x (nodeInfo g1)) as [cur|] eqn:Hcur.
  - destruct (truthy (source cur) || negb (distance cur =? 0)) eqn:Hel;
      [exact Hr0|].
    apply orb_false_iff in Hel as [_ Hzero].
    apply negb_false_iff, Z.eqb_eq in Hzero.
    assert (Hx : x <> VNull).
    { intros ->. destruct Hr0 as ((r & Hr & Hd & _) & _).
      rewrite Hr in Hcur. injection Hcur as <-. lia. }
    destruct (initial_follows Hx) as [Hnd0 Hnull0].
    pose proof (@mark_paths_unique fuel (nodeInfo g1) (heads g1) _ Hnd0)
      as Hnd.
    pose proof (@mark_paths_keeps fuel (nodeInfo g1) VNull false
                  (heads g1)
                  (JsMap.of_entries [(x, true); (VNull, false)])) as Hkeep.
    destruct (mark_paths fuel (nodeInfo g1) (heads g1) _)
      as [c follows].
    destruct c; try exact Hr0.
    simpl in Hnd. specialize (Hkeep follows eq_refl Hnull0).
    pose proof (@unmarked_not_updated _ _ Hnd Hkeep) as Hnot.
    pose proof (@raise_distances_other (distance si + 1) VNull _ Hnot
                  (nodeInfo g1)) as Hsame.
    assert (Hsub : forall k j',
              JsMap.get k
                (snd (raise_distances (map fst (filter snd follows))
                        (distance si + 1) (nodeInfo g1))) = Some j' ->
              exists j, JsMap.get k (nodeInfo g1) = Some j /\
                        _t j' = _t j).
    { generalize (map fst (filter snd follows)) as ns.
      generalize (nodeInfo g1) as m.
      intros m ns. revert m.
      induction ns as [|n ns IH]; intros m k j'; simpl; [eauto|].
      destruct (JsMap.get n m) as [i|] eqn:Hn; [|simpl; eauto].
      intros Hj'. apply IH in Hj' as (j & Hj & Htj).
      rewrite get_set in Hj.
      destruct (value_eqb_spec n k) as [<-|]; [|eauto].
      injection Hj as <-. exists i. auto. }
    destruct (raise_distances _ _ _) as [c ni2]. simpl in Hsame, Hsub.
    assert (Hr2 : rooted ni2 (counter g1)).
    { apply (@rooted_from _ _ _ _ Hr0 (Z.le_refl _)); [|exact Hsub].
      intros r E. exists r. rewrite Hsame. auto. }
    destruct c; try exact Hr2.
    destruct (reduce_further _ _ _) as [f|]; [|exact Hr2].
    pose proof (set_furthestNode_state f (with_nodeInfo ni2 g1)) as HS.
    destruct (set_furthestNode f (with_nodeInfo ni2 g1)) as [g3 evs3].
    simpl in HS. destruct HS as (Hni3 & _ & Hc3 & _).
    destruct (JsMap.get x (nodeInfo g3)) as [ti|] eqn:Hti; simpl.
    + rewrite Hc3, Hni3 in *.
      apply (@rooted_from _ _ _ _ Hr2 (Z.le_refl _)).
      * intros r E. exists r. rewrite get_set_other by assumption. auto.
      * intros k j'. rewrite get_set.
        destruct (value_eqb_spec x k) as [<-|]; [|eauto].
        intros E. injection E as <-. exists ti. auto.
    + now rewrite Hc3, Hni3.
  - simpl.
    assert (Hr2 : rooted (JsMap.set x
                          (mkInfo s (distance si + 1) (counter g1) d)
                          (nodeInfo g1)) (counter g1 + 1))
      by (apply rooted_insert; simpl; auto).
    destruct (JsMap.get (furthestNode g1) _) as [fi|]; [|exact Hr2].
    destruct (distance si + 1 >? distance fi); [|exact Hr2].
    match goal with
    | |- context [set_furthestNode x ?g2] =>
        pose proof (set_furthestNode_state x g2) as HS;
        destruct (set_furthestNode x g2) as [g3 evs3]
    end.
    simpl in HS. destruct HS as (Hni3 & _ & Hc3 & _).
    simpl. now rewrite Hni3, Hc3.
Qed.

Lemma removeNode_rooted (x : value) (g : t) :
  x <> VNull ->
  rooted (nodeInfo g) (counter g) ->
  rooted (nodeInfo (snd (fst (removeNode x g))))
         (counter (snd (fst (removeNode x g)))).
Proof.
  intros Hx Hr.
  destruct (removeNode_state x g) as (Hgone & Hother & _ & _ & Hc).
  cbv zeta in *. rewrite Hc.
  apply (@rooted_from _ _ _ _ Hr (Z.le_refl _)).
  - intros r E. rewrite Hother, E by congruence. simpl.
    eexists. split; [reflexivity|].
    destruct (value_eqb (source r) x); auto.
  - intros k j' Hj'.
    destruct (value_eqb_spec k x) as [->|Hk]; [congruence|].
    rewrite Hother in Hj' by assumption.
    destruct (JsMap.get k (nodeInfo g)) as [j|]; [|discriminate].
    exists j. split; [reflexivity|].
    simpl in Hj'. injection Hj' as <-.
    destruct (value_eqb (source j) x); reflexivity.
Qed.

Lemma prune_rooted (fuel : nat) (k : Z) (g : t) :
  unique_keys (nodeInfo g) ->
  rooted (nodeInfo g) (counter g) ->
  rooted (nodeInfo (snd (fst (prune fuel k g))))
         (counter (snd (fst (prune fuel k g)))).
Proof.
  intros Hu Hr. unfold prune.
  destruct (JsMap.get VNull (nodeInfo g)) as [r|] eqn:Hroot; [|exact Hr].
  destruct (score_heads fuel (nodeInfo g) (heads g) _) as [[| |] scores];
    try exact Hr.
  destruct (k <? size g); [|exact Hr].
  simpl.
  assert (Hperm := sort_by_t_permutes (nodeInfo g)).
  assert (Hu' : NoDup (map fst (toSpliced 1 (size g - k)
                                 (sort_by_t (nodeInfo g))))).
  { unfold toSpliced. cbv zeta. change (1 <? 0) with false. cbv iota.
    rewrite map_app, <- firstn_map, <- skipn_map.
    apply splice_unique; [lia|].
    apply (Permutation_NoDup
             (Permutation_sym (Permutation_map fst Hperm))).
    exact Hu. }
  rewrite of_entries_unique by assumption.
  assert (Hr' := Hr).
  destruct Hr' as ((r0 & Hr0 & Hd & Ht) & Hrest & Hc).
  rewrite Hroot in Hr0. injection Hr0 as <-.
  destruct (@sorted_head r (nodeInfo g) Ht (get_In _ _ Hroot))
    as (rest & Hsorted).
  { intros [k' j'] Hin. apply (In_get _ _ _ Hu) in Hin.
    destruct (value_eqb_spec k' VNull) as [->|Hk'].
    - left. congruence.
    - right. now apply (Hrest k'). }
  apply (@rooted_from _ _ _ _ Hr (Z.le_refl _)).
  - intros r1 E. rewrite Hroot in E. injection E as <-.
    exists r. split; [|auto].
    rewrite Hsorted. unfold toSpliced. cbv zeta.
    change (1 <? 0) with false. cbv iota.
    replace (Z.to_nat (Z.min 1 (Z.of_nat (List.length ((VNull, r) :: rest)))))
      with 1%nat by (simpl List.length; lia).
    simpl. reflexivity.
  - intros k' j' Hk'. exists j'. split; [|reflexivity].
    apply In_get; [exact Hu|].
    apply get_In in Hk'. unfold toSpliced in Hk'. cbv zeta in Hk'.
    apply splice_incl in Hk'.
    now apply (Permutation_in _ Hperm).
Qed.

Lemma exec_rooted (fuel : nat) (o : op) (g : t) :
  GraphSpec.keeps_root o ->
  graph_ok g ->
  rooted (nodeInfo g) (counter g) ->
  rooted (nodeInfo (snd (fst (exec fuel o g))))
         (counter (snd (fst (exec fuel o g)))).
Proof.
  destruct o as [s x d|x|k]; simpl; intros Hk Hok Hr.
  - now apply addEdge_rooted.
  - now apply removeNode_rooted.
  - apply prune_rooted; [apply Hok|assumption].
Qed.

Lemma rooted_reachable (g : t) : reachable_rooted g -> reachable g.
Proof.
  induction 1 as [|fuel o g c g' evs _ IH _ He]; [constructor|].
  exact (reach_step fuel o IH He).
Qed.

Lemma reachable_rooted_inv (g : t) :
  reachable_rooted g -> rooted (nodeInfo g) (counter g).
Proof.
  induction 1 as [|fuel o g c g' evs Hg IH Hk He].
  - split; [|split; [|simpl; lia]].
    + exists root. repeat split.
    + intros k j Hk. unfold new. simpl.
      destruct (value_eqb_spec k VNull); [contradiction|discriminate].
  - replace g' with (snd (fst (exec fuel o g))) by now rewrite He.
    apply exec_rooted; [assumption| |assumption].
    apply reachable_ok. now apply rooted_reachable.
Qed.

(** X9. In every state a graph reaches through calls that never name the
    sentinel in [removeNode] (returning or throwing, [prune] included),
    the sentinel is still there with distance -1 and arrival order 0, and
    it cannot become the target of an edge: [addEdge(source, null)]
    throws the split-only error for every source, with no event, after
    the source has been entered. *)
Theorem sentinel_is_never_a_target (g : t) :
  reachable_rooted g ->
  (exists r, JsMap.get VNull (nodeInfo g) = Some r /\
             distance r = -1 /\ _t r = 0) /\
  forall fuel s d,
    addEdge fuel s VNull d g
    = (Throw (Thrown split_only), enter_source s g, []).
Proof.
  intros Hg. pose proof (reachable_rooted_inv Hg) as Hr.
  split; [apply Hr|].
  intros fuel s d. apply (enter_source_rooted s) in Hr.
  destruct Hr as ((r & Hroot & Hd & _) & _).
  unfold addEdge.
  assert (Hs : JsMap.get s (nodeInfo (enter_source s g)) <> None).
  { unfold enter_source.
    destruct (JsMap.has s (nodeInfo g)) eqn:Hhas; simpl.
    - now apply has_true.
    - rewrite get_set_same. discriminate. }
  destruct (JsMap.get s (nodeInfo (enter_source s g))); [|congruence].
  rewrite Hroot, Hd. simpl. now rewrite orb_true_r.
Qed.

Lemma sentinel_is_never_a_target_witness :
  addEdge 5 B_ VNull VUndefined graph_AB
  = (Throw (Thrown split_only), enter_source B_ graph_AB, []).
Proof.
  refine (proj2 (@sentinel_is_never_a_target graph_AB _) 5%nat B_ VUndefined).
  apply (@rooted_step 0 (AddEdge A_ B_ VUndefined) new Normal graph_AB
           [advance B_ (JsMap.get B_ (nodeInfo graph_AB))]);
    [constructor|exact I|reflexivity].
Defined.

End GraphBookkeeping.

(** ** The Ably relay wrapper *)

Section AblyFacts.
Import Ably.

Lemma dispatch_seen (type : string) (data : option string) (this : t)
    (e : effect) :
  In e (dispatch type data this) ->
  exists cb, e = Call cb type data (readyState this).
Proof.
  unfold dispatch. intros H. apply in_map_iff in H as (h & <- & _). eauto.
Qed.

Lemma adjusted_open (sf : bool) (rs : Z) :
  adjustedReadyState sf rs = 1 -> sf = true /\ rs = 1.
Proof.
  unfold adjustedReadyState.
  destruct (Z.eqb_spec rs 1); [destruct sf|]; intros; try lia; auto.
Qed.

Lemma step_frames (e : event) (this : t) :
  Forall is_attach (snd (step e this)).
Proof.
  assert (Hd : forall ty d s, Forall is_attach (dispatch ty d s)).
  { intros ty d s. apply Forall_forall. intros x Hx.
    apply dispatch_seen in Hx as (cb & ->). exact I. }
  unfold step. destruct (live this); [|destruct e; constructor].
  destruct e as [ty rs|rs p|ty cb|ty cb|msg|]; simpl;
    try (repeat constructor; fail).
  - apply Hd.
  - unfold messageHandler.
    destruct ((action p =? 0) || (action p =? 1)); [constructor|].
    destruct (action p =? 4);
      [simpl; constructor; [now left|constructor]|].
    destruct (action p =? 11).
    + simpl. destruct (sentFlags this); simpl.
      * apply Hd.
      * constructor; [now right|constructor].
    + destruct (action p =? 15); simpl.
      * apply Forall_forall. intros x Hx.
        apply in_flat_map in Hx as (d & _ & Hx).
        apply dispatch_seen in Hx as (cb & ->). exact I.
      * repeat constructor.
Qed.

(** X26. [send] writes nothing on the socket: it counts the message, logs it
    and returns. Whatever the socket delivers and the client calls, from
    any state, the only frames the wrapper ever writes are the two attach
    requests. *)
Theorem send_never_reaches_the_socket (evs : list event) (this : t) :
  Forall is_attach (snd (run evs this)) /\
  forall msg,
    step (Send msg) this
    = if live this
      then (Normal,
            mk (sentFlags this) (msgSerial this + 1) (connectionId this)
               (handlers this) (readyState this) (live this),
            [ConsoleLog])
      else (Throw TypeError, this, []).
Proof.
  split; [|intros msg; unfold step; now destruct (live this)].
  revert this. induction evs as [|e evs IH]; intros this; simpl;
    [constructor|].
  pose proof (step_frames e this) as Hs.
  destruct (step e this) as [[c this1] e1]. simpl in Hs.
  specialize (IH this1). destruct (run evs this1) as [this2 e2].
  simpl in *. apply Forall_app. auto.
Qed.

Lemma step_open_call (e : event) (this : t) (cb : nat) (ty : string)
    (d : option string) :
  In (Call cb ty d (Some 1)) (snd (step e this)) -> sentFlags this = true.
Proof.
  assert (Hd : forall ty' d' rs,
            In (Call cb ty d (Some 1))
               (dispatch ty' d'
                  (with_readyState
                     (Some (adjustedReadyState (sentFlags this) rs)) this)) ->
            sentFlags this = true).
  { intros ty' d' rs H. apply dispatch_seen in H as (cb' & E).
    simpl in E. injection E as _ _ _ E. symmetry in E.
    now apply adjusted_open in E. }
  unfold step. destruct (live this); [|destruct e; intros []].
  destruct e as [ty' rs|rs p|ty' cb'|ty' cb'|msg|]; simpl;
    try (intros []; discriminate || contradiction).
  - apply Hd.
  - unfold messageHandler.
    destruct ((action p =? 0) || (action p =? 1)); [intros []|].
    destruct (action p =? 4);
      [simpl; intros [H|[]]; discriminate|].
    destruct (action p =? 11).
    + simpl. destruct (sentFlags this) eqn:Hsf; simpl; [reflexivity|].
      intros [H|[]]; discriminate.
    + destruct (action p =? 15); simpl.
      * intros H. apply in_flat_map in H as (d' & _ & H).
        now apply Hd in H.
      * intros [H|[]]; discriminate.
Qed.

Lemma step_gate (e : event) (this : t) (history : list effect) :
  gate this history ->
  gate (snd (fst (step e this))) (history ++ snd (step e this)).
Proof.
  intros [Hrs Hsf].
  assert (Hkeep : forall effs s,
            sentFlags s = sentFlags this ->
            (readyState s = Some 1 -> sentFlags this = true) ->
            gate s (history ++ effs)).
  { intros effs s Es Hr. split.
    - rewrite Es. exact Hr.
    - rewrite Es. intros H. apply in_or_app. left. now apply Hsf. }
  assert (Hadj : forall rs,
            Some (adjustedReadyState (sentFlags this) rs) = Some 1 ->
            sentFlags this = true).
  { intros rs E. injection E as E. now apply adjusted_open in E. }
  unfold step. destruct (live this);
    [|destruct e; simpl; apply Hkeep; auto].
  destruct e as [ty rs|rs p|ty cb|ty cb|msg|]; simpl;
    try (apply Hkeep; auto; fail).
  - apply Hkeep; [reflexivity|apply Hadj].
  - unfold messageHandler.
    destruct ((action p =? 0) || (action p =? 1));
      [apply Hkeep; [reflexivity|apply Hadj]|].
    destruct (action p =? 4);
      [apply Hkeep; [reflexivity|apply Hadj]|].
    destruct (action p =? 11).
    + simpl. destruct (sentFlags this) eqn:Hf; simpl.
      * apply Hkeep; [assumption|reflexivity].
      * split; [reflexivity|]. intros _. apply in_or_app. right. now left.
    + destruct (action p =? 15); simpl;
        (apply Hkeep; [reflexivity|apply Hadj]).
  - split; simpl; discriminate.
Qed.

Lemma run_gate (evs : list event) :
  forall this history,
    gate this history ->
    gate (fst (run evs this)) (history ++ snd (run evs this)) /\
    forall pre cb ty d post,
      snd (run evs this) = pre ++ Call cb ty d (Some 1) :: post ->
      In (WsSend msgFlags) (history ++ pre).
Proof.
  induction evs as [|e evs IH]; intros this history Hg; simpl.
  - rewrite app_nil_r. split; [exact Hg|].
    intros [|? ?] ? ? ? ? E; discriminate.
  - pose proof (step_gate e Hg) as Hg1.
    pose proof (@step_open_call e this) as Hcall.
    destruct (step e this) as [[c this1] e1]. simpl in Hg1, Hcall.
    destruct (IH this1 (history ++ e1) Hg1) as [Hg2 Hpre].
    destruct (run evs this1) as [this2 e2]. simpl in *.
    rewrite <- app_assoc in Hg2. split; [exact Hg2|].
    intros pre cb ty d post E.
    apply app_eq_app in E as (l & [[E1 E2]|[E1 E2]]).
    + destruct l as [|x l]; simpl in E2.
      * rewrite app_nil_r in E1. subst e1.
        specialize (Hpre [] cb ty d post (eq_sym E2)).
        now rewrite app_nil_r in Hpre.
      * injection E2 as <- _. apply in_or_app. left. apply Hg.
        apply (Hcall cb ty d). rewrite E1. apply in_or_app. right.
        now left.
    + specialize (Hpre l cb ty d post E2).
      rewrite <- app_assoc in Hpre. now rewrite E1.
Qed.

(** X27. The wrapper hides the open socket until it has asked for its flags:
    after any events and calls since [connect], [readyState] is 1 only if
    the flags were sent, the flags were sent only if the flags frame was
    written, and every callback that finds [readyState] 1 on its target
    is called after that frame was written. *)
Theorem open_is_gated (evs : list event) :
  (readyState (fst (run evs connect)) = Some 1 ->
   sentFlags (fst (run evs connect)) = true) /\
  (sentFlags (fst (run evs connect)) = true ->
   In (WsSend msgFlags) (snd (run evs connect))) /\
  forall pre cb ty d post,
    snd (run evs connect) = pre ++ Call cb ty d (Some 1) :: post ->
    In (WsSend msgFlags) pre.
Proof.
  destruct (@run_gate evs connect []) as [[H1 H2] H3].
  - split; simpl; discriminate.
  - simpl in *. auto.
Qed.

(** X28. The handshake opens the gate: with the handlers [h] registered, the
    socket's own ['open'] reaches the ['open'] handlers while [readyState]
    still reads 0, the connection message is answered with the attach
    request, the first attached message with the flags, and the second
    attached message reaches the ['open'] handlers again, now with
    [readyState] 1. *)
Theorem handshake_opens (cid : string) (h : list (string * nat)) :
  run (handshake cid) (with_handlers h connect)
  = (mk true 0 cid h (Some 1) true,
     dispatch "open" None (with_handlers h connect)
     ++ [WsSend msgJoin; WsSend msgFlags]
     ++ dispatch "open" None (mk true 0 cid h (Some 1) true)).
Proof.
  unfold handshake, run, step, stateHandler, messageHandler. simpl.
  now rewrite app_nil_r.
Qed.

Lemma remove_first_count (type ty : string) (cb c : nat)
    (h : list (string * nat)) :
  List.length
    (filter (fun x => String.eqb (fst x) ty && Nat.eqb (snd x) c)
       (remove_first type cb h))
  = if String.eqb type ty && Nat.eqb cb c
    then pred (List.length
                 (filter (fun x => String.eqb (fst x) ty && Nat.eqb (snd x) c)
                    h))
    else List.length
           (filter (fun x => String.eqb (fst x) ty && Nat.eqb (snd x) c) h).
Proof.
  induction h as [|[tp c0] h IH]; simpl.
  - now destruct (String.eqb type ty && Nat.eqb cb c).
  - destruct (String.eqb tp type && Nat.eqb c0 cb) eqn:E1.
    + apply andb_true_iff in E1 as [Et Ec].
      apply String.eqb_eq in Et. apply Nat.eqb_eq in Ec. subst.
      destruct (String.eqb type ty && Nat.eqb cb c); reflexivity.
    + simpl.
      destruct (String.eqb tp ty && Nat.eqb c0 c) eqn:E3; simpl;
        rewrite IH;
        destruct (String.eqb type ty && Nat.eqb cb c) eqn:E2;
        try reflexivity.
      apply andb_true_iff in E3 as [Et3 Ec3].
      apply andb_true_iff in E2 as [Et2 Ec2].
      apply String.eqb_eq in Et3, Et2. apply Nat.eqb_eq in Ec3, Ec2.
      subst. rewrite String.eqb_refl, Nat.eqb_refl in E1. discriminate.
Qed.

Lemma dispatch_calls (type : string) (data : option string) (cb : nat)
    (this : t) :
  calls_of cb (dispatch type data this) = registrations type cb this.
Proof.
  unfold calls_of, registrations, dispatch.
  induction (handlers this) as [|[tp c] h IH]; simpl; [reflexivity|].
  destruct (String.eqb tp type); simpl; [|exact IH].
  destruct (Nat.eqb c cb); simpl; now rewrite IH.
Qed.

(** X29. Listeners are counted, not merged: an event of the socket calls a
    callback once for each time it was registered for that type;
    [addEventListener] adds one registration even when the same one is
    there already, [removeEventListener] takes one away when there is one,
    and neither touches another registration. *)
Theorem listeners_are_counted (type : string) (cb : nat) (this : t) :
  live this = true ->
  (forall rs,
     calls_of cb (snd (step (SocketState type rs) this))
     = registrations type cb this) /\
  (forall ty c,
     registrations ty c (snd (fst (step (AddEventListener type cb) this)))
     = if String.eqb type ty && Nat.eqb cb c
       then S (registrations ty c this) else registrations ty c this) /\
  (forall ty c,
     registrations ty c
       (snd (fst (step (RemoveEventListener type cb) this)))
     = if String.eqb type ty && Nat.eqb cb c
       then pred (registrations ty c this) else registrations ty c this).
Proof.
  intros Hl. unfold step. rewrite Hl. simpl.
  split; [|split].
  - intros rs. rewrite dispatch_calls. reflexivity.
  - intros ty c. unfold registrations. simpl.
    rewrite filter_app, length_app. simpl.
    destruct (String.eqb type ty && Nat.eqb cb c); simpl; lia.
  - intros ty c. unfold registrations. simpl. apply remove_first_count.
Qed.

Lemma listeners_are_counted_witness :
  registrations "open" 7
    (snd (fst (step (AddEventListener "open" 7)
                 (with_handlers [("open"%string, 7%nat)] connect)))) = 2%nat.
Proof.
  refine (proj1 (proj2 (@listeners_are_counted "open" 7
                          (with_handlers [("open"%string, 7%nat)] connect) _))
            "open"%string 7%nat).
  reflexivity.
Defined.

Lemma run_closed (evs : list event) (this : t) :
  live this = false -> run evs this = (this, []).
Proof.
  intros Hl. induction evs as [|e evs IH]; simpl; [reflexivity|].
  unfold step. rewrite Hl. destruct e; now rewrite IH.
Qed.

(** X30. [close()] is final: it closes the socket, forgets the handlers, the
    flags and the serial number, and leaves an object without
    [readyState] and without methods. From then on nothing the socket
    delivers reaches a handler, no frame is written, and every call of the
    client throws a [TypeError]. *)
Theorem close_is_final (this : t) (evs : list event) :
  live this = true ->
  step Close this = (Normal, closed this, [WsClose]) /\
  readyState (closed this) = None /\
  run evs (closed this) = (closed this, []) /\
  forall e,
    is_client_call e = true ->
    step e (closed this) = (Throw TypeError, closed this, []).
Proof.
  intros Hl. unfold step at 1. rewrite Hl.
  split; [reflexivity|]. split; [reflexivity|].
  split; [now apply run_closed|].
  intros e He. destruct e; try discriminate; reflexivity.
Qed.

Lemma close_is_final_witness :
  run [Send "hello"; SocketState "open" 1] (closed connect)
  = (closed connect, []).
Proof.
  refine (proj1 (proj2 (proj2 (@close_is_final connect
            [Send "hello"; SocketState "open" 1] _)))).
  reflexivity.
Defined.

End AblyFacts.
